(** * Legal-document extraction pipeline: response parsing, validation, retry

    A shallow embedding of the extraction core of the repository
    ([src/llm_extractor.py], [src/validator.py], [src/text_cleaner.py],
    [src/config.py]), of the detection of the language
    ([src/pdf_processor.py]) and of the counts of the metrics
    ([src/metrics.py]), together with the properties its specification
    states and further properties of the code.

    Python strings are modelled as lists of characters whose code points
    are below 256 (the Latin-1 range); character classes ([str.isspace],
    [str.lower], [str.isdigit], the classes of [re]) are those of Python
    on that range.  Dictionaries are finite maps from field names to
    optional strings, [None] standing for Python's [None]. *)

From Stdlib Require Import ZArith QArith Lia Ascii String List Bool DecimalString.
From stdpp Require Import gmap strings list.

Close Scope Q_scope.
Local Open Scope list_scope.
Local Open Scope nat_scope.

(* ===================================================================== *)
(** * Part I: definitions                                                 *)
(* ===================================================================== *)

(** ** Python strings *)

Definition str := list ascii.

Definition code (c : ascii) : N := N_of_ascii c.
Definition chr (n : N) : ascii := ascii_of_N n.

(** A literal of the source, written in UTF-8 in this file, as a string of
    code points: the two-byte sequences of the range 128..255 are decoded. *)
Fixpoint utf8 (bs : list ascii) : str :=
  match bs with
  | [] => []
  | b :: bs' =>
      match bs' with
      | b2 :: bs'' =>
          if (code b =? 194)%N then b2 :: utf8 bs''
          else if (code b =? 195)%N then chr (code b2 + 64) :: utf8 bs''
          else b :: utf8 bs'
      | [] => [b]
      end
  end.

Definition py (s : string) : str := utf8 (list_ascii_of_string s).

Definition LF : ascii := chr 10.
Definition CR : ascii := chr 13.
Definition BACKSLASH : ascii := chr 92.

Definition between (lo hi : N) (c : ascii) : bool :=
  ((lo <=? code c) && (code c <=? hi))%N.

(** [str.isspace] on one character. *)
Definition isspace (c : ascii) : bool :=
  between 9 13 c || between 28 32 c || (code c =? 133)%N || (code c =? 160)%N.

(** [str.isdigit] on one character. *)
Definition isdigit_char (c : ascii) : bool :=
  between 48 57 c || (code c =? 178)%N || (code c =? 179)%N || (code c =? 185)%N.

Definition is_nil {A} (l : list A) : bool :=
  match l with [] => true | _ :: _ => false end.

(** [str.isdigit]: every character is a digit and there is at least one. *)
Definition isdigit (s : str) : bool :=
  negb (is_nil s) && forallb isdigit_char s.

(** [str.lower]. *)
Definition lower_char (c : ascii) : ascii :=
  if between 65 90 c || (between 192 222 c && negb (code c =? 215)%N)
  then chr (code c + 32) else c.

Definition lower (s : str) : str := map lower_char s.

Definition str_eqb (a b : str) : bool := bool_decide (a = b).

(** [x in xs] for a list of strings. *)
Definition in_list (x : str) (xs : list str) : bool := existsb (str_eqb x) xs.

Fixpoint lstrip (s : str) : str :=
  match s with
  | c :: s' => if isspace c then lstrip s' else s
  | [] => []
  end.

Definition rstrip (s : str) : str := rev (lstrip (rev s)).

(** [str.strip()]. *)
Definition strip (s : str) : str := lstrip (rstrip s).

(** [s.split(sep)] for a one-character separator. *)
Fixpoint split_char (sep : ascii) (s : str) : list str :=
  match s with
  | [] => [[]]
  | c :: s' =>
      if Ascii.eqb c sep then [] :: split_char sep s'
      else match split_char sep s' with
           | l :: ls => (c :: l) :: ls
           | [] => [[c]]
           end
  end.

(** [s.split()]: the maximal runs of non-whitespace characters. *)
Fixpoint split_ws (s : str) : list str :=
  match s with
  | [] => []
  | c :: s' =>
      if isspace c then split_ws s'
      else match s' with
           | c' :: _ =>
               if isspace c' then [c] :: split_ws s'
               else match split_ws s' with
                    | w :: ws => (c :: w) :: ws
                    | [] => [[c]]
                    end
           | [] => [[c]]
           end
  end.

(** [sep.join(ls)]. *)
Fixpoint join (sep : str) (ls : list str) : str :=
  match ls with
  | [] => []
  | l :: ls' =>
      match ls' with
      | [] => l
      | _ :: _ => l ++ sep ++ join sep ls'
      end
  end.

Fixpoint starts_with (p s : str) : bool :=
  match p, s with
  | [], _ => true
  | a :: p', b :: s' => Ascii.eqb a b && starts_with p' s'
  | _ :: _, [] => false
  end.

(** [s.replace(old, new)] for a non-empty [old]: occurrences are replaced
    from the left and do not overlap; [skip] counts the characters of the
    occurrence being replaced that are still to be passed over. *)
Fixpoint replace_from (old new : str) (skip : nat) (s : str) : str :=
  match s with
  | [] => []
  | c :: s' =>
      match skip with
      | S n => replace_from old new n s'
      | O =>
          if starts_with old s
          then new ++ replace_from old new (length old - 1) s'
          else c :: replace_from old new 0 s'
      end
  end.

Definition replace (old new s : str) : str := replace_from old new 0 s.

(** [sub in s]. *)
Fixpoint contains (sub s : str) : bool :=
  starts_with sub s ||
  match s with
  | [] => false
  | _ :: s' => contains sub s'
  end.

(** [s.count(c)] for a one-character argument. *)
Definition count_char (c : ascii) (s : str) : nat :=
  length (List.filter (fun x => Ascii.eqb x c) s).

(** Decimal digits. *)
Definition digit (n : N) : ascii := chr (48 + n).

(** [str(n)] for a natural number. *)
Definition str_of_nat (n : nat) : str :=
  list_ascii_of_string (NilZero.string_of_uint (Nat.to_uint n)).

(** [s.zfill(2)] for a string of digits. *)
Definition zfill2 (s : str) : str :=
  match s with
  | [] => [digit 0; digit 0]
  | [c] => [digit 0; c]
  | _ => s
  end.

(** ** Configuration ([src/config.py]) *)

Record Settings := {
  MAX_RETRIES : nat;
  ENTITIES : list str;
  VALID_RESULTS : list str;
  MIN_SUMMARY_LINES : nat;
  MAX_SUMMARY_LINES : nat
}.

Definition settings : Settings := {|
  MAX_RETRIES := 5;
  ENTITIES := [py "autor"; py "reu"; py "assunto_principal"; py "tipo_decisao";
               py "resultado"; py "resumo_5_linhas"; py "data_decisao";
               py "tribunal"];
  VALID_RESULTS := [py "granted"; py "denied"; py "dismissed"; py "allowed";
                    py "rejected"; py "deferido"; py "indeferido";
                    py "procedente"; py "improcedente"; py "arquivado"];
  MIN_SUMMARY_LINES := 1;
  MAX_SUMMARY_LINES := 5
|}.

(** A dictionary of entities: a field may be missing, hold [None], or hold
    a string. *)
Abbreviation dict := (gmap str (option str)).

(** [d.get(k)]: [None] for a missing key. *)
Definition get (d : dict) (k : str) : option str :=
  match d !! k with
  | Some v => v
  | None => None
  end.

(** ** Dates: [datetime.strptime] and [strftime] for the layouts in use

    [strptime] compiles a layout into a regular expression, matches it at
    the start of the value, requires the match to cover the whole value
    and then builds a date, which fails for a day the month does not
    have.  The parsers below follow the alternatives of each directive in
    the order of the library's expression; in the six layouts in use the
    text after a day or a month begins with a character that is not a
    digit, so that a later alternative never succeeds where an earlier one
    has matched. *)

Definition is_digit (c : ascii) : bool := between 48 57 c.

Definition digit_val (c : ascii) : N := code c - 48.

Definition char_is (x : string) (c : ascii) : bool :=
  match x with
  | String a EmptyString => Ascii.eqb a c
  | _ => false
  end.

(** [%d]: [3[0-1]|[1-2]\d|0[1-9]|[1-9]| [1-9]]. *)
Definition parse_d (s : str) : option (N * str) :=
  match s with
  | a :: b :: r =>
      if char_is "3" a && between 48 49 b then Some (30 + digit_val b, r)%N
      else if between 49 50 a && is_digit b
           then Some (10 * digit_val a + digit_val b, r)%N
      else if char_is "0" a && between 49 57 b then Some (digit_val b, r)
      else if between 49 57 a then Some (digit_val a, b :: r)
      else if char_is " " a && between 49 57 b then Some (digit_val b, r)
      else None
  | [a] => if between 49 57 a then Some (digit_val a, []) else None
  | [] => None
  end.

(** [%m]: [1[0-2]|0[1-9]|[1-9]]. *)
Definition parse_m (s : str) : option (N * str) :=
  match s with
  | a :: b :: r =>
      if char_is "1" a && between 48 50 b then Some (10 + digit_val b, r)%N
      else if char_is "0" a && between 49 57 b then Some (digit_val b, r)
      else if between 49 57 a then Some (digit_val a, b :: r)
      else None
  | [a] => if between 49 57 a then Some (digit_val a, []) else None
  | [] => None
  end.

(** [%Y]: [\d\d\d\d]. *)
Definition parse_Y (s : str) : option (N * str) :=
  match s with
  | a :: b :: c :: d :: r =>
      if is_digit a && is_digit b && is_digit c && is_digit d
      then Some (1000 * digit_val a + 100 * digit_val b
                 + 10 * digit_val c + digit_val d, r)%N
      else None
  | _ => None
  end.

(** The full month names, in the order of the library's expression
    (longest first), with their numbers. *)
Definition month_names : list (str * N) :=
  [(py "september", 9); (py "february", 2); (py "november", 11);
   (py "december", 12); (py "january", 1); (py "october", 10);
   (py "august", 8); (py "march", 3); (py "april", 4); (py "june", 6);
   (py "july", 7); (py "may", 5)]%N.

(** [%B], matched without regard to case. *)
Fixpoint parse_B_in (names : list (str * N)) (s : str) : option (N * str) :=
  match names with
  | [] => None
  | (name, k) :: names' =>
      if str_eqb (lower (firstn (length name) s)) name
      then Some (k, skipn (length name) s)
      else parse_B_in names' s
  end.

Definition parse_B (s : str) : option (N * str) := parse_B_in month_names s.

(** A literal character of the layout. *)
Definition parse_lit (x : string) (s : str) : option str :=
  match s with
  | c :: r => if char_is x c then Some r else None
  | [] => None
  end.

(** White space of the layout: [\s+]. *)
Definition parse_ws (s : str) : option str :=
  match s with
  | c :: r => if isspace c then Some (lstrip r) else None
  | [] => None
  end.

Definition is_leap (y : N) : bool :=
  ((y mod 4 =? 0) && (negb (y mod 100 =? 0) || (y mod 400 =? 0)))%N.

Definition days_in_month (y m : N) : N :=
  match m with
  | 2 => if is_leap y then 29 else 28
  | 4 | 6 | 9 | 11 => 30
  | _ => 31
  end%N.

Record date := { year : N; month : N; day : N }.

(** The date is built only when it exists and the value is used up. *)
Definition make_date (y m d : N) (rest : str) : option date :=
  if (is_nil rest && (1 <=? y) && (y <=? 9999) && (1 <=? m) && (m <=? 12)
      && (1 <=? d) && (d <=? days_in_month y m))%N
  then Some {| year := y; month := m; day := d |}
  else None.

Inductive layout :=
  | DMY_slash   (* %d/%m/%Y *)
  | DMY_dash    (* %d-%m-%Y *)
  | YMD_dash    (* %Y-%m-%d *)
  | DMY_dot     (* %d.%m.%Y *)
  | D_B_Y       (* %d %B %Y *)
  | B_D_Y.      (* %B %d, %Y *)

Definition parse_dmy (sep : string) (s : str) : option date :=
  match parse_d s with
  | Some (d, s1) =>
      match parse_lit sep s1 with
      | Some s2 =>
          match parse_m s2 with
          | Some (m, s3) =>
              match parse_lit sep s3 with
              | Some s4 =>
                  match parse_Y s4 with
                  | Some (y, s5) => make_date y m d s5
                  | None => None
                  end
              | None => None
              end
          | None => None
          end
      | None => None
      end
  | None => None
  end.

Definition strptime (fmt : layout) (s : str) : option date :=
  match fmt with
  | DMY_slash => parse_dmy "/" s
  | DMY_dash => parse_dmy "-" s
  | DMY_dot => parse_dmy "." s
  | YMD_dash =>
      match parse_Y s with
      | Some (y, s1) =>
          match parse_lit "-" s1 with
          | Some s2 =>
              match parse_m s2 with
              | Some (m, s3) =>
                  match parse_lit "-" s3 with
                  | Some s4 =>
                      match parse_d s4 with
                      | Some (d, s5) => make_date y m d s5
                      | None => None
                      end
                  | None => None
                  end
              | None => None
              end
          | None => None
          end
      | None => None
      end
  | D_B_Y =>
      match parse_d s with
      | Some (d, s1) =>
          match parse_ws s1 with
          | Some s2 =>
              match parse_B s2 with
              | Some (m, s3) =>
                  match parse_ws s3 with
                  | Some s4 =>
                      match parse_Y s4 with
                      | Some (y, s5) => make_date y m d s5
                      | None => None
                      end
                  | None => None
                  end
              | None => None
              end
          | None => None
          end
      | None => None
      end
  | B_D_Y =>
      match parse_B s with
      | Some (m, s1) =>
          match parse_ws s1 with
          | Some s2 =>
              match parse_d s2 with
              | Some (d, s3) =>
                  match parse_lit "," s3 with
                  | Some s4 =>
                      match parse_ws s4 with
                      | Some s5 =>
                          match parse_Y s5 with
                          | Some (y, s6) => make_date y m d s6
                          | None => None
                          end
                      | None => None
                      end
                  | None => None
                  end
              | None => None
              end
          | None => None
          end
      | None => None
      end
  end.

Definition two_digits (n : N) : str := [digit (n / 10); digit (n mod 10)]%N.

Definition four_digits (n : N) : str :=
  [digit (n / 1000); digit (n / 100 mod 10); digit (n / 10 mod 10);
   digit (n mod 10)]%N.

(** [%Y] as the C library writes it: the year in decimal without leading
    zeros, so in fewer than four digits for a year before 1000 (the year
    of a date is between 1 and 9999). *)
Definition year_digits (n : N) : str :=
  if (n <? 10)%N then [digit n]
  else if (n <? 100)%N then two_digits n
  else if (n <? 1000)%N
       then [digit (n / 100); digit (n / 10 mod 10); digit (n mod 10)]%N
  else four_digits n.

(** [date_obj.strftime('%d/%m/%Y')]: the day and the month are filled to
    two digits, the year is not filled. *)
Definition strftime_dmY (dt : date) : str :=
  two_digits (day dt) ++ py "/" ++ two_digits (month dt) ++ py "/"
  ++ year_digits (year dt).

(** ** The permissive date pattern
    [(\d{1,2})[\/\-\.](\d{1,2})[\/\-\.](\d{4})] *)

Definition is_date_sep (c : ascii) : bool :=
  char_is "/" c || char_is "-" c || char_is "." c.

(** [\d{1,2}]: the ways to match it at the start of [s], longest first. *)
Definition digits_1_2 (s : str) : list (str * str) :=
  match s with
  | a :: r =>
      if is_digit a then
        match r with
        | b :: r' => if is_digit b then [([a; b], r'); ([a], r)] else [([a], r)]
        | [] => [([a], r)]
        end
      else []
  | [] => []
  end.

Definition digits_4 (s : str) : option str :=
  match s with
  | a :: b :: c :: d :: _ =>
      if is_digit a && is_digit b && is_digit c && is_digit d
      then Some [a; b; c; d] else None
  | _ => None
  end.

Definition after_sep (s : str) : option str :=
  match s with
  | c :: r => if is_date_sep c then Some r else None
  | [] => None
  end.

(** The first success among the candidates, in order. *)
Fixpoint first_some {A B} (f : A -> option B) (l : list A) : option B :=
  match l with
  | [] => None
  | x :: l' => match f x with Some y => Some y | None => first_some f l' end
  end.

(** The pattern matched at the start of [s]: the three groups. *)
Definition date_match_at (s : str) : option (str * str * str) :=
  first_some (fun '(g1, r1) =>
    match after_sep r1 with
    | Some r2 =>
        first_some (fun '(g2, r3) =>
          match after_sep r3 with
          | Some r4 =>
              match digits_4 r4 with
              | Some g3 => Some (g1, g2, g3)
              | None => None
              end
          | None => None
          end) (digits_1_2 r2)
    | None => None
    end) (digits_1_2 s).

(** [re.search(date_pattern, value)]: the leftmost match. *)
Fixpoint date_search (s : str) : option (str * str * str) :=
  match date_match_at s with
  | Some g => Some g
  | None =>
      match s with
      | [] => None
      | _ :: s' => date_search s'
      end
  end.

(** ** The validator ([src/validator.py]) *)

Module EntityValidator.

(** The test that opens every validator:
    [not value or value.lower() in ['null', 'none', 'n/a']]. *)
Definition placeholder (value : option str) : bool :=
  match value with
  | None => true
  | Some v => is_nil v || in_list (lower v) [py "null"; py "none"; py "n/a"]
  end.

Definition result := (bool * option str * str)%type.

Definition collapse (value : str) : str := join (py " ") (split_ws value).

Definition _validate_party_name (value : option str) : result :=
  match value with
  | Some v =>
      if placeholder value then (true, None, [])
      else
        let normalized := collapse v in
        if length normalized <? 2 then (false, None, py "Nome muito curto")
        else if isdigit (replace (py " ") [] normalized)
        then (false, None, py "Nome não pode ser apenas números")
        else (true, Some normalized, [])
  | None => (true, None, [])
  end.

Definition _validate_subject (value : option str) : result :=
  match value with
  | Some v =>
      if placeholder value then (true, None, [])
      else
        let normalized := collapse v in
        if length normalized <? 3 then (false, None, py "Assunto muito curto")
        else (true, Some normalized, [])
  | None => (true, None, [])
  end.

Definition valid_types : list str :=
  [py "sentença"; py "acórdão"; py "despacho"; py "decisão"; py "liminar";
   py "judgment"; py "order"; py "decree"; py "ruling"; py "decision"].

(** Whether the value names a known type; it decides only what is logged. *)
Definition contains_valid_type (v : str) : bool :=
  existsb (fun vtype => contains vtype (lower (collapse v))) valid_types.

Definition _validate_decision_type (value : option str) : result :=
  match value with
  | Some v =>
      if placeholder value then (true, None, [])
      else (true, Some v, [])
  | None => (true, None, [])
  end.

Definition valid_results (cfg : Settings) : list str :=
  map lower (VALID_RESULTS cfg).

Definition _validate_result (cfg : Settings) (value : option str) : result :=
  match value with
  | Some v =>
      if placeholder value then (true, None, [])
      else
        let normalized := lower v in
        let contains_valid :=
          existsb (fun valid_result => contains valid_result normalized)
                  (valid_results cfg) in
        if negb contains_valid
        then (false, None,
              py "Resultado inválido. Esperado um de: "
              ++ join (py ", ") (VALID_RESULTS cfg))
        else (true, Some v, [])
  | None => (true, None, [])
  end.

(** The stripped non-empty lines of a summary. *)
Definition summary_lines (v : str) : list str :=
  map strip (List.filter (fun line => negb (is_nil (strip line)))
                         (split_char LF v)).

Definition _validate_summary (cfg : Settings) (value : option str) : result :=
  match value with
  | Some v =>
      if placeholder value
      then (false, None, py "Resumo é obrigatório")
      else
        let lines := summary_lines v in
        let num_lines := length lines in
        if num_lines <? MIN_SUMMARY_LINES cfg
        then (false, None,
              py "Resumo muito curto (mínimo "
              ++ str_of_nat (MIN_SUMMARY_LINES cfg) ++ py " linha)")
        else if MAX_SUMMARY_LINES cfg <? num_lines
        then (true, Some (join [LF] (firstn (MAX_SUMMARY_LINES cfg) lines)), [])
        else (true, Some v, [])
  | None => (false, None, py "Resumo é obrigatório")
  end.

Definition date_formats : list layout :=
  [DMY_slash; DMY_dash; YMD_dash; DMY_dot; D_B_Y; B_D_Y].

Definition _validate_date (value : option str) : result :=
  match value with
  | Some v =>
      if placeholder value then (true, None, [])
      else
        match first_some (fun fmt => strptime fmt v) date_formats with
        | Some date_obj => (true, Some (strftime_dmY date_obj), [])
        | None =>
            match date_search v with
            | Some (d, m, y) =>
                (true, Some (zfill2 d ++ py "/" ++ zfill2 m ++ py "/" ++ y), [])
            | None => (true, Some v, [])
            end
        end
  | None => (true, None, [])
  end.

Definition _validate_court (value : option str) : result :=
  match value with
  | Some v =>
      if placeholder value then (true, None, [])
      else
        let normalized := collapse v in
        if length normalized <? 3
        then (false, None, py "Nome do tribunal muito curto")
        else (true, Some normalized, [])
  | None => (true, None, [])
  end.

(** The table of validators, in the order of the source. *)
Definition validators (cfg : Settings) : list (str * (option str -> result)) :=
  [(py "autor", _validate_party_name);
   (py "reu", _validate_party_name);
   (py "assunto_principal", _validate_subject);
   (py "tipo_decisao", _validate_decision_type);
   (py "resultado", _validate_result cfg);
   (py "resumo_5_linhas", _validate_summary cfg);
   (py "data_decisao", _validate_date);
   (py "tribunal", _validate_court)].

(** One turn of the loop of [validate] over the table: the copy of the
    entities and the errors collected so far are the state. *)
Definition validate_step (st : dict * list str)
    (fv : str * (option str -> result)) : dict * list str :=
  let '(validated, errors) := st in
  let '(field, validator) := fv in
  match validated !! field with
  | Some value =>
      let '(is_valid, normalized_value, error) := validator value in
      (<[field := normalized_value]> validated,
       if is_valid then errors else errors ++ [field ++ py ": " ++ error])
  | None => st
  end.

Definition validate (cfg : Settings) (entities : dict)
  : bool * dict * list str :=
  let '(validated, errors) :=
    fold_left validate_step (validators cfg) (entities, []) in
  (is_nil errors, validated, errors).

(** [entities.get(key) and str(entities[key]).lower() not in [...]]. *)
Definition filled (entities : dict) (key : str) : bool :=
  match get entities key with
  | Some v =>
      negb (is_nil v)
      && negb (in_list (lower v) [py "null"; py "none"; py "n/a"; []])
  | None => false
  end.

Definition calculate_completeness (cfg : Settings) (entities : dict) : Q :=
  let total_fields := length (ENTITIES cfg) in
  let filled_fields :=
    list_sum (map (fun key => if filled entities key then 1 else 0)
                  (ENTITIES cfg)) in
  if 0 <? total_fields
  then (inject_Z (Z.of_nat filled_fields) / inject_Z (Z.of_nat total_fields))%Q
  else 0%Q.

Definition get_missing_fields (cfg : Settings) (entities : dict) : list str :=
  List.filter (fun key =>
                 match get entities key with
                 | Some v =>
                     is_nil v
                     || in_list (lower v) [py "null"; py "none"; py "n/a"; []]
                 | None => true
                 end) (ENTITIES cfg).

End EntityValidator.

(** ** The [csv] module: writer and reader of the default dialect

    Delimiter comma, quote character the double quote, doubled quotes, minimal quoting,
    line terminator CR LF, not strict, no escape character. *)

Module csv.

Definition DELIMITER : ascii := chr 44.
Definition QUOTECHAR : ascii := chr 34.

(** [csv.field_size_limit()]. *)
Definition field_size_limit : N := 131072.

(** A field is quoted when it holds the delimiter, the quote character or
    a character of the line terminator. *)
Definition special (c : ascii) : bool :=
  Ascii.eqb c DELIMITER || Ascii.eqb c QUOTECHAR || Ascii.eqb c CR
  || Ascii.eqb c LF.

Definition needs_quotes (w : str) : bool := existsb special w.

Fixpoint double_quotes (w : str) : str :=
  match w with
  | [] => []
  | c :: w' =>
      if Ascii.eqb c QUOTECHAR then QUOTECHAR :: QUOTECHAR :: double_quotes w'
      else c :: double_quotes w'
  end.

Definition write_field (w : str) : str :=
  if needs_quotes w then [QUOTECHAR] ++ double_quotes w ++ [QUOTECHAR] else w.

(** [writer.writerow(row)]: what is written to the stream.  A row of one
    empty field is written as a pair of quotes. *)
Definition writerow (row : list str) : str :=
  match row with
  | [[]] => [QUOTECHAR; QUOTECHAR; CR; LF]
  | _ => join [DELIMITER] (map write_field row) ++ [CR; LF]
  end.

(** The states of the reader that the dialect can reach. *)
Inductive parser_state :=
  | START_RECORD
  | START_FIELD
  | IN_FIELD
  | IN_QUOTED_FIELD
  | QUOTE_IN_QUOTED_FIELD
  | EAT_CRNL.

Record reader := {
  state : parser_state;
  field : str;           (* the field being read *)
  fields : list str      (* the fields of the record read so far *)
}.

Definition parse_reset : reader :=
  {| state := START_RECORD; field := []; fields := [] |}.

Definition set_state (r : reader) (s : parser_state) : reader :=
  {| state := s; field := field r; fields := fields r |}.

(** [None] is the error "field larger than field limit". *)
Definition parse_add_char (r : reader) (c : ascii) : option reader :=
  if (field_size_limit <=? N.of_nat (length (field r)))%N then None
  else Some {| state := state r; field := field r ++ [c]; fields := fields r |}.

Definition parse_save_field (r : reader) : reader :=
  {| state := state r; field := []; fields := fields r ++ [field r] |}.

Definition is_newline (c : ascii) : bool := Ascii.eqb c LF || Ascii.eqb c CR.

(** One character of a line is [Some c]; the end of the line is [None].
    The result [None] is a [csv.Error]. *)
Definition parse_process_char (r : reader) (c : option ascii) : option reader :=
  match state r with
  | START_RECORD | START_FIELD =>
      match state r, c with
      | START_RECORD, None => Some r
      | _, None => Some (set_state (parse_save_field r) START_RECORD)
      | st, Some ch =>
          if is_newline ch then
            match st with
            | START_RECORD => Some (set_state r EAT_CRNL)
            | _ => Some (set_state (parse_save_field r) EAT_CRNL)
            end
          else if Ascii.eqb ch QUOTECHAR then Some (set_state r IN_QUOTED_FIELD)
          else if Ascii.eqb ch DELIMITER
          then Some (set_state (parse_save_field r) START_FIELD)
          else
            match parse_add_char r ch with
            | Some r' => Some (set_state r' IN_FIELD)
            | None => None
            end
      end
  | IN_FIELD =>
      match c with
      | None => Some (set_state (parse_save_field r) START_RECORD)
      | Some ch =>
          if is_newline ch then Some (set_state (parse_save_field r) EAT_CRNL)
          else if Ascii.eqb ch DELIMITER
          then Some (set_state (parse_save_field r) START_FIELD)
          else parse_add_char r ch
      end
  | IN_QUOTED_FIELD =>
      match c with
      | None => Some r
      | Some ch =>
          if Ascii.eqb ch QUOTECHAR then Some (set_state r QUOTE_IN_QUOTED_FIELD)
          else parse_add_char r ch
      end
  | QUOTE_IN_QUOTED_FIELD =>
      match c with
      | None => Some (set_state (parse_save_field r) START_RECORD)
      | Some ch =>
          if Ascii.eqb ch QUOTECHAR then
            match parse_add_char r ch with
            | Some r' => Some (set_state r' IN_QUOTED_FIELD)
            | None => None
            end
          else if Ascii.eqb ch DELIMITER
          then Some (set_state (parse_save_field r) START_FIELD)
          else if is_newline ch
          then Some (set_state (parse_save_field r) EAT_CRNL)
          else
            match parse_add_char r ch with
            | Some r' => Some (set_state r' IN_FIELD)
            | None => None
            end
      end
  | EAT_CRNL =>
      match c with
      | None => Some (set_state r START_RECORD)
      | Some ch => if is_newline ch then Some r else None
      end
  end.

Fixpoint process_line (r : reader) (line : str) : option reader :=
  match line with
  | [] => parse_process_char r None
  | c :: line' =>
      match parse_process_char r (Some c) with
      | Some r' => process_line r' line'
      | None => None
      end
  end.

(** What a call of [next] on a reader gives. *)
Inductive next_result (A : Type) :=
  | Row (row : A) (rest : list str)   (* a row, and the lines not yet read *)
  | StopIteration
  | Error.
Arguments Row {A}.
Arguments StopIteration {A}.
Arguments Error {A}.

(** [next(reader)]: lines are taken until a record is complete. *)
Fixpoint read_record (r : reader) (lines : list str) : next_result (list str) :=
  match lines with
  | [] =>
      if negb (is_nil (field r))
         || match state r with IN_QUOTED_FIELD => true | _ => false end
      then Row (fields (parse_save_field r)) []
      else StopIteration
  | line :: lines' =>
      match process_line r line with
      | Some r' =>
          match state r' with
          | START_RECORD => Row (fields r') lines'
          | _ => read_record r' lines'
          end
      | None => Error
      end
  end.

Definition reader_next (lines : list str) : next_result (list str) :=
  read_record parse_reset lines.

(** The lines of an [io.StringIO], each with its line feed. *)
Fixpoint readlines (s : str) : list str :=
  match s with
  | [] => []
  | c :: s' =>
      if Ascii.eqb c LF then [c] :: readlines s'
      else match readlines s' with
           | l :: ls => (c :: l) :: ls
           | [] => [[c]]
           end
  end.

(** The rows that [DictReader] skips are the empty ones; [fuel] bounds the
    number of lines, each call of [next] taking at least one. *)
Fixpoint next_nonempty (fuel : nat) (lines : list str) : next_result (list str) :=
  match fuel with
  | O => StopIteration
  | S fuel' =>
      match reader_next lines with
      | Row [] rest => next_nonempty fuel' rest
      | other => other
      end
  end.

(** A row of [DictReader]: the values under the field names, and the
    fields beyond the names, which the library keeps under the key [None]. *)
Record dict_row := {
  named : dict;
  restkey : option (list str)
}.

Fixpoint zip_insert (names : list str) (row : list str) (d : dict) : dict :=
  match names, row with
  | k :: names', v :: row' => zip_insert names' row' (<[k := Some v]> d)
  | _, _ => d
  end.

Fixpoint restval_insert (names : list str) (d : dict) : dict :=
  match names with
  | [] => d
  | k :: names' => restval_insert names' (<[k := None]> d)
  end.

(** [next(csv.DictReader(f), None)] on a fresh reader over [lines]: the
    first row gives the field names. *)
Definition DictReader_next (lines : list str) : next_result dict_row :=
  match reader_next lines with
  | Row fieldnames rest =>
      match next_nonempty (S (length rest)) rest with
      | Row row rest' =>
          let lf := length fieldnames in
          let lr := length row in
          Row {| named := restval_insert (skipn lr fieldnames)
                            (zip_insert fieldnames row ∅);
                 restkey := if lf <? lr then Some (skipn lf row) else None |}
              rest'
      | StopIteration => StopIteration
      | Error => Error
      end
  | StopIteration => StopIteration
  | Error => Error
  end.

(** [not row] for a row of [DictReader]. *)
Definition row_is_empty (row : dict_row) : bool :=
  bool_decide (named row = ∅)
  && match restkey row with None => true | Some _ => false end.

End csv.

(** ** Regular expressions ([re])

    The part of the pattern language that the source uses: classes of one
    character, sequence, ordered alternation, repetition of a class (greedy
    or lazy, with bounds), numbered groups, look-ahead, look-behind of a
    fixed text, and the anchors.  Matching is by backtracking in the order
    of [re]: a continuation receives the position reached and the groups,
    and its failure makes the matcher try the next possibility. *)

Inductive regex :=
  | Eps
  | Chr (p : ascii -> bool)
  | Seq (r1 r2 : regex)
  | Alt (r1 r2 : regex)
  | Rep (greedy : bool) (lo : nat) (hi : option nat) (p : ascii -> bool)
  | Group (i : nat) (r : regex)
  | Ahead (r : regex)                    (* (?=r) *)
  | Behind (ps : list (ascii -> bool))   (* (?<=...) of fixed characters *)
  | Bol                                  (* ^ *)
  | Eos                                  (* \Z *)
  | WordB.                               (* \b *)

(** A position: the text before it (nearest character first), the text
    after it, and the groups closed so far (latest first). *)
Definition mstate := (str * str * list (nat * str))%type.

Definition hi_allows (hi : option nat) : bool :=
  match hi with Some O => false | _ => true end.

Definition hi_pred (hi : option nat) : option nat :=
  match hi with Some n => Some (pred n) | None => None end.

Fixpoint rep_match (greedy : bool) (p : ascii -> bool) (lo : nat)
    (hi : option nat) (before after : str) (g : list (nat * str))
    (k : mstate -> option mstate) : option mstate :=
  let stop :=
    match lo with O => k (before, after, g) | S _ => None end in
  let more :=
    match after with
    | c :: after' =>
        if p c && hi_allows hi
        then rep_match greedy p (pred lo) (hi_pred hi) (c :: before) after' g k
        else None
    | [] => None
    end in
  if greedy
  then match more with Some r => Some r | None => stop end
  else match stop with Some r => Some r | None => more end.

(** [\w] on the range. *)
Definition is_word (c : ascii) : bool :=
  between 48 57 c || between 65 90 c || (code c =? 95)%N || between 97 122 c
  || (code c =? 170)%N || between 178 179 c || (code c =? 181)%N
  || between 185 186 c || between 188 190 c || between 192 214 c
  || between 216 246 c || between 248 255 c.

Definition head_is (p : ascii -> bool) (s : str) : bool :=
  match s with c :: _ => p c | [] => false end.

Fixpoint behind_ok (ps : list (ascii -> bool)) (before : str) : bool :=
  match ps, before with
  | [], _ => true
  | p :: ps', c :: before' => p c && behind_ok ps' before'
  | _ :: _, [] => false
  end.

Fixpoint rmatch (r : regex) (st : mstate) (k : mstate -> option mstate)
  : option mstate :=
  let '(before, after, g) := st in
  match r with
  | Eps => k st
  | Chr p =>
      match after with
      | c :: after' => if p c then k (c :: before, after', g) else None
      | [] => None
      end
  | Seq r1 r2 => rmatch r1 st (fun st' => rmatch r2 st' k)
  | Alt r1 r2 =>
      match rmatch r1 st k with
      | Some res => Some res
      | None => rmatch r2 st k
      end
  | Rep greedy lo hi p => rep_match greedy p lo hi before after g k
  | Group i r' =>
      rmatch r' st
        (fun '(before', after', g') =>
           k (before', after',
              (i, firstn (length before' - length before) after) :: g'))
  | Ahead r' =>
      match rmatch r' st Some with
      | Some _ => k st
      | None => None
      end
  | Behind ps => if behind_ok (rev ps) before then k st else None
  | Bol => if is_nil before then k st else None
  | Eos => if is_nil after then k st else None
  | WordB =>
      if xorb (head_is is_word before) (head_is is_word after)
      then k st else None
  end.

(** A match: the text matched and the groups. *)
Record re_match := {
  group0 : str;
  groups : list (nat * str)
}.

(** [m.group(i)]: [None] for a group that took no part in the match. *)
Fixpoint lookup_group (i : nat) (g : list (nat * str)) : option str :=
  match g with
  | [] => None
  | (j, s) :: g' => if i =? j then Some s else lookup_group i g'
  end.

Definition group (m : re_match) (i : nat) : option str :=
  lookup_group i (groups m).

Definition match_here (r : regex) (before after : str) : option re_match :=
  match rmatch r (before, after, []) Some with
  | Some (before', _, g) =>
      Some {| group0 := firstn (length before' - length before) after;
              groups := g |}
  | None => None
  end.

(** [re.search]: the leftmost position at which the expression matches. *)
Fixpoint search_from (r : regex) (before after : str) : option re_match :=
  match match_here r before after with
  | Some m => Some m
  | None =>
      match after with
      | [] => None
      | c :: after' => search_from r (c :: before) after'
      end
  end.

Definition re_search (r : regex) (s : str) : option re_match :=
  search_from r [] s.

(** [re.sub] looks for the next match from the end of the last one; after
    an empty match the next one must not be empty at the same position
    ([must_advance]). *)
Definition match_at (r : regex) (must_advance : bool) (before after : str)
  : option re_match :=
  match rmatch r (before, after, [])
          (fun st =>
             let '(before', _, _) := st in
             if must_advance && (length before' =? length before)
             then None else Some st) with
  | Some (before', _, g) =>
      Some {| group0 := firstn (length before' - length before) after;
              groups := g |}
  | None => None
  end.

(** [re.sub(r, repl, s)] for a replacement without references to groups:
    the matches are replaced from the left and do not overlap; [skip]
    counts the characters of the match being replaced that are still to
    be passed over. *)
Fixpoint sub_from (r : regex) (repl : str) (skip : nat) (before after : str)
  : str :=
  match skip with
  | S n =>
      match after with
      | c :: after' => sub_from r repl n (c :: before) after'
      | [] => []
      end
  | O =>
      let step_over :=
        match after with
        | c :: after' => c :: sub_from r repl 0 (c :: before) after'
        | [] => []
        end in
      let pass_over (n : nat) :=
        match after with
        | c :: after' => sub_from r repl (n - 1) (c :: before) after'
        | [] => []
        end in
      match match_at r false before after with
      | None => step_over
      | Some m =>
          match length (group0 m) with
          | S n => repl ++ pass_over (S n)
          | O =>
              repl ++
              match match_at r true before after with
              | Some m2 => repl ++ pass_over (length (group0 m2))
              | None => step_over
              end
          end
      end
  end.

Definition re_sub (r : regex) (repl : str) (s : str) : str :=
  sub_from r repl 0 [] s.

(** Builders for expressions. *)
Fixpoint seq_of (rs : list regex) : regex :=
  match rs with
  | [] => Eps
  | r :: rs' => match rs' with [] => r | _ :: _ => Seq r (seq_of rs') end
  end.

Fixpoint alt_of (rs : list regex) : regex :=
  match rs with
  | [] => Eps
  | r :: rs' => match rs' with [] => r | _ :: _ => Alt r (alt_of rs') end
  end.

(** One character, without regard to case ([re.IGNORECASE]). *)
Definition ci (x : ascii) (c : ascii) : bool :=
  Ascii.eqb (lower_char c) (lower_char x).

(** A literal text, without regard to case. *)
Definition lit (s : str) : regex := seq_of (map (fun x => Chr (ci x)) s).

(** The exact character. *)
Definition exactly (x : ascii) (c : ascii) : bool := Ascii.eqb c x.

Definition any_char (c : ascii) : bool := true.            (* . with DOTALL *)
Definition dot (c : ascii) : bool := negb (Ascii.eqb c LF). (* . *)

(** [[A-Z]] and [[a-z]] without regard to case. *)
Definition letter (c : ascii) : bool := between 65 90 c || between 97 122 c.

Definition star (p : ascii -> bool) : regex := Rep true 0 None p.
Definition plus (p : ascii -> bool) : regex := Rep true 1 None p.
Definition lazy_star (p : ascii -> bool) : regex := Rep false 0 None p.
Definition lazy_plus (p : ascii -> bool) : regex := Rep false 1 None p.

Fixpoint count_groups (r : regex) : nat :=
  match r with
  | Seq r1 r2 | Alt r1 r2 => count_groups r1 + count_groups r2
  | Group _ r' => S (count_groups r')
  | Ahead r' => count_groups r'
  | _ => 0
  end.

(** Exceptions, for the code that can raise. *)
Inductive exn :=
  | AttributeError     (* a method called on [None] *)
  | ClientError.       (* any failure of the call to the model *)

Inductive exc (A : Type) :=
  | Ok (a : A)
  | Raise (e : exn).
Arguments Ok {A}.
Arguments Raise {A}.

(** ** The extractor ([src/llm_extractor.py]): parsing of replies *)

Definition CSV_FIELDS : list str :=
  [py "autor"; py "reu"; py "assunto_principal"; py "tipo_decisao";
   py "resultado"; py "resumo_5_linhas"; py "data_decisao"; py "tribunal"].

(** A literal backslash followed by the letter n. *)
Definition ESCAPED_LF : str := [BACKSLASH; chr 110].

(** [{k: f(k) for k in keys}]. *)
Fixpoint dict_of_keys (keys : list str) (f : str -> option str) (d : dict) : dict :=
  match keys with
  | [] => d
  | k :: keys' => dict_of_keys keys' f (<[k := f k]> d)
  end.

(** [line.splitlines()]: the line boundaries of the range are line feed,
    carriage return (with a following line feed), vertical tab, form feed,
    the separators 28 to 30 and next line (133). *)
Definition is_linebreak (c : ascii) : bool :=
  between 10 13 c || between 28 30 c || (code c =? 133)%N.

Fixpoint splitlines_from (cur : str) (s : str) : list str :=
  match s with
  | [] => if is_nil cur then [] else [cur]
  | c :: s' =>
      if is_linebreak c then
        cur :: match s' with
               | c2 :: s'' =>
                   if Ascii.eqb c CR && Ascii.eqb c2 LF
                   then splitlines_from [] s''
                   else splitlines_from [] s'
               | [] => []
               end
      else splitlines_from (cur ++ [c]) s'
  end.

Definition splitlines (s : str) : list str := splitlines_from [] s.

Module LLMExtractor.

Definition _parse_csv_output (raw : str) : option dict :=
  if is_nil raw then None
  else
    let raw := strip (replace [CR; LF] [LF] raw) in
    let lines :=
      List.filter (fun ln => negb (is_nil (strip ln))) (split_char LF raw) in
    let header_data :=
      match lines with
      | l0 :: ((_ :: _) as tl) => Some (strip l0, strip (join [LF] tl))
      | [l0] => Some (join (py ",") CSV_FIELDS, strip l0)
      | [] => None
      end in
    match header_data with
    | None => None
    | Some (header_line, data_line) =>
        let f := header_line ++ [LF] ++ data_line ++ [LF] in
        match csv.DictReader_next (csv.readlines f) with
        | csv.Row row _ =>
            if csv.row_is_empty row then None
            else
              Some (dict_of_keys CSV_FIELDS
                      (fun k =>
                         match get (csv.named row) k with
                         | None => None
                         | Some v =>
                             let v := strip v in
                             let v := replace ESCAPED_LF [LF] v in
                             if is_nil v then None else Some v
                         end) ∅)
        | csv.StopIteration => None
        | csv.Error => None
        end
    end.

(** [all(field in block or field in line for field in CSV_FIELDS[:3])]. *)
Definition has_header_names (block line : str) : bool :=
  forallb (fun field => contains field block || contains field line)
          (firstn 3 CSV_FIELDS).

(** The loop over the pairs of consecutive candidate lines. *)
Fixpoint first_header_pair (candidate_lines : list str) : option str :=
  match candidate_lines with
  | l1 :: ((l2 :: _) as tl) =>
      let block := l1 ++ [LF] ++ l2 in
      if has_header_names block l1 then Some block else first_header_pair tl
  | _ => None
  end.

Definition _extract_csv_block (text : str) : option str :=
  let candidate_lines :=
    List.filter (fun ln => 3 <=? count_char (chr 44) ln) (splitlines text) in
  if is_nil candidate_lines then None
  else
    match first_header_pair candidate_lines with
    | Some block => Some block
    | None =>
        match candidate_lines with
        | l1 :: l2 :: _ => Some (l1 ++ [LF] ++ l2)
        | _ => None
        end
    end.

(** [dict_to_csv_line]: the values in the order of the header, new lines
    written as a backslash and the letter n. *)
Definition dict_to_csv_line (d : dict) : str :=
  let row :=
    map (fun f =>
           match get d f with
           | None => []
           | Some v => replace [LF] ESCAPED_LF v
           end) CSV_FIELDS in
  strip (csv.writerow row).

(** [re.sub(r"\s+", " ", text)]. *)
Fixpoint sub_spaces (in_run : bool) (s : str) : str :=
  match s with
  | [] => []
  | c :: s' =>
      if isspace c
      then if in_run then sub_spaces true s' else chr 32 :: sub_spaces true s'
      else c :: sub_spaces false s'
  end.

(** The end of the expression of [find_after], with the number [n] of its
    group: [\s*[:\-]\s*(.+?)(?=\s+[A-Z][a-z]+:|\Z)].  (The class of the
    source also holds a dash that lies outside the range of characters.) *)
Definition label_suffix (n : nat) : regex :=
  seq_of [star isspace;
          Chr (fun c => exactly ":" c || exactly "-" c);
          star isspace;
          Group n (lazy_plus dot);
          Ahead (Alt (seq_of [plus isspace; Chr letter; plus letter;
                              Chr (exactly ":")])
                     Eos)].

(** The source pastes the text of a key pattern in front of the text of
    the suffix and compiles the result.  A key pattern is given by its
    alternatives at top level: the suffix, and with it the group of the
    value, belongs to the last of them. *)
Definition paste_suffix (alternatives : list regex) : regex :=
  let n := S (list_sum (map count_groups alternatives)) in
  match rev alternatives with
  | [] => label_suffix n
  | last :: init => alt_of (rev init ++ [Seq last (label_suffix n)])
  end.

(** [find_after]: the first key pattern found gives the answer, which is
    the group numbered 1, stripped; a match in which that group took no
    part makes [strip] be called on [None]. *)
Fixpoint find_after (t : str) (key_patterns : list (list regex))
  : exc (option str) :=
  match key_patterns with
  | [] => Ok None
  | pat :: key_patterns' =>
      match re_search (paste_suffix pat) t with
      | Some m =>
          match group m 1 with
          | Some g => Ok (Some (strip g))
          | None => Raise AttributeError
          end
      | None => find_after t key_patterns'
      end
  end.

Definition words_of (ws : list string) : list regex := map (fun w => lit (py w)) ws.

Definition autor_patterns : list (list regex) :=
  [ (* ^(appellant|petitioner|plaintiff|autor|peticioner|petitioner) *)
    [Seq Bol (Group 1 (alt_of (words_of
       ["appellant"; "petitioner"; "plaintiff"; "autor"; "peticioner";
        "petitioner"])))];
    (* (?<=versus\s).*?(?=\s+v\b) *)
    [seq_of [Behind (map ci (py "versus") ++ [isspace]);
             lazy_star dot;
             Ahead (seq_of [plus isspace; Chr (ci "v"); WordB])]] ].

Definition reu_patterns : list (list regex) :=
  [ (* defendant|respondent|respondent:|réu|respondente *)
    words_of ["defendant"; "respondent"; "respondent:"; "réu"; "respondente"];
    (* versus\s+(.+?)\s *)
    [seq_of [lit (py "versus"); plus isspace; Group 1 (lazy_plus dot);
             Chr isspace]] ].

Definition assunto_patterns : list (list regex) :=
  [ (* subject|assunto|matter|case about|challenge to|challenge of *)
    words_of ["subject"; "assunto"; "matter"; "case about"; "challenge to";
              "challenge of"] ].

Definition tipo_patterns : list (list regex) :=
  [ (* judgment|order|decision|sentença|acórdão|order: *)
    words_of ["judgment"; "order"; "decision"; "sentença"; "acórdão";
              "order:"] ].

Definition resultado_patterns : list (list regex) :=
  [ (* result|disposition|held that|decided that|order|disposed *)
    words_of ["result"; "disposition"; "held that"; "decided that"; "order";
              "disposed"];
    (* result: *)
    words_of ["result:"] ].

Definition tribunal_patterns : list (list regex) :=
  [ (* court|tribunal|supreme court|tribunal de *)
    words_of ["court"; "tribunal"; "supreme court"; "tribunal de"];
    (* in the (supreme court|high court) *)
    [Seq (lit (py "in the "))
         (Group 1 (alt_of (words_of ["supreme court"; "high court"])))] ].

(** [(\d{1,2}[\/\-]\d{1,2}[\/\-]\d{2,4})] *)
Definition heuristic_date : regex :=
  let sep := Chr (fun c => exactly "/" c || exactly "-" c) in
  Group 1 (seq_of [Rep true 1 (Some 2) is_digit; sep;
                   Rep true 1 (Some 2) is_digit; sep;
                   Rep true 2 (Some 4) is_digit]).

(** The truth value of an optional string: [None] and the empty string
    are false. *)
Definition truthy (v : option str) : bool :=
  match v with
  | Some s => negb (is_nil s)
  | None => false
  end.

Definition _heuristic_extract (text : str) : exc (option dict) :=
  let t := sub_spaces false text in
  match find_after t autor_patterns with
  | Raise e => Raise e
  | Ok autor =>
  match find_after t reu_patterns with
  | Raise e => Raise e
  | Ok reu =>
  match find_after t assunto_patterns with
  | Raise e => Raise e
  | Ok assunto =>
  match find_after t tipo_patterns with
  | Raise e => Raise e
  | Ok tipo =>
  match find_after t resultado_patterns with
  | Raise e => Raise e
  | Ok resultado =>
  let data :=
    match re_search heuristic_date text with
    | Some mdate => group mdate 1
    | None => None
    end in
  match find_after t tribunal_patterns with
  | Raise e => Raise e
  | Ok tribunal =>
      let out : dict :=
        <[py "tribunal" := tribunal]>
        (<[py "data_decisao" := data]>
        (<[py "resumo_5_linhas" := None]>
        (<[py "resultado" := resultado]>
        (<[py "tipo_decisao" := tipo]>
        (<[py "assunto_principal" := assunto]>
        (<[py "reu" := reu]>
        (<[py "autor" := autor]> ∅))))))) in
      if existsb truthy [autor; reu; assunto; tipo; resultado; None; data;
                         tribunal]
      then Ok (Some out)
      else Ok None
  end end end end end end.

(** *** The prompt

    The text of the instruction, before and after the names of the
    columns; the document follows it. *)

Definition csv_instruction_head : str := py "
AGORA: Produza EXATAMENTE DUAS LINHAS CSV: a primeira deve ser o cabeçalho
com estas colunas, nesta ordem:

".

Definition csv_instruction_tail : str := py "

A segunda linha deve conter os valores correspondentes. Regras importantes:
- Não escreva texto adicional além das duas linhas CSV.
- Se um campo contiver quebras de linha (por exemplo o resumo), substitua cada quebra por a sequência de dois caracteres '\n' (barra invertida + n).
- Se um campo contiver vírgulas, coloque-o entre aspas (padrão CSV).
- Se não for possível extrair um campo, deixe-o vazio (i.e. ,,).
- Temperatura 0: seja factual e conciso.

Agora produza as 2 linhas (cabeçalho + valores) para o texto do documento abaixo.
DOCUMENTO:
".

Section Prompt.

(** The two templates of [src/config.py]. *)
Variable EXTRACTION_PROMPT_PT EXTRACTION_PROMPT_EN : str.

Definition _build_csv_prompt (text language : str) : str :=
  let base_prompt :=
    if str_eqb language (py "pt")
    then EXTRACTION_PROMPT_PT else EXTRACTION_PROMPT_EN in
  let csv_instruction :=
    csv_instruction_head ++ join (py ", ") CSV_FIELDS ++ csv_instruction_tail
    ++ text ++ [LF] in
  strip csv_instruction.

End Prompt.

(** *** The call to the model and the loop of attempts *)

(** What the client hands back: the text, the parts of the candidates,
    and a value already parsed. *)
Record response := {
  text : option str;
  candidates : list (list str);
  parsed : option dict
}.

(** The truth value of an optional dictionary: [None] and the empty
    dictionary are false. *)
Definition dict_truthy (d : option dict) : bool :=
  match d with
  | Some d => negb (bool_decide (d = ∅))
  | None => false
  end.

(** The three ways of reading a reply, in the order of the source; the
    heuristic reads the text of the document, not the reply. *)
Definition parse_reply (raw_text text : str) : exc (option dict) :=
  let parsed := _parse_csv_output raw_text in
  if dict_truthy parsed then Ok parsed
  else
    let parsed2 :=
      match _extract_csv_block raw_text with
      | Some embedded =>
          if negb (is_nil embedded) then _parse_csv_output embedded else None
      | None => None
      end in
    if dict_truthy parsed2 then Ok parsed2
    else
      match _heuristic_extract text with
      | Raise e => Raise e
      | Ok heuristic => if dict_truthy heuristic then Ok heuristic else Ok None
      end.

(** The body of the [try]: [Ok (Some d)] is [return d], [Ok None] is the
    end of the body, [Raise] an exception on its way to the handler. *)
Definition try_body (answer : exc response) (text : str) : exc (option dict) :=
  match answer with
  | Raise e => Raise e
  | Ok response =>
      let raw_or_return : dict + str :=
        if truthy (LLMExtractor.text response)
        then inr (default [] (LLMExtractor.text response))
        else match candidates response with
             | parts :: _ => inr (concat parts)
             | [] =>
                 match parsed response with
                 | Some p =>
                     if dict_truthy (Some p)
                     then inl (dict_of_keys CSV_FIELDS (get p) ∅)
                     else inr []
                 | None => inr []
                 end
             end in
      match raw_or_return with
      | inl d => Ok (Some d)
      | inr raw_text => parse_reply (strip raw_text) text
      end
  end.

(** The effects of a run: the calls made to the model and the durations
    slept, in order. *)
Record world := {
  calls : nat;
  sleeps : list nat
}.

Definition call_made (w : world) : world :=
  {| calls := S (calls w); sleeps := sleeps w |}.

Definition sleep (seconds : nat) (w : world) : world :=
  {| calls := calls w; sleeps := sleeps w ++ [seconds] |}.

(** The loop [for attempt in range(1, attempts + 1)], [todo] being the
    number of turns still to run.  The client answers its calls in order:
    [generate_content n] is the answer to the call after [n] earlier ones
    (the prompt and the configuration are the same at every call). *)
Fixpoint attempt_loop (generate_content : nat -> exc response) (text : str)
    (attempts todo attempt : nat) (w : world) : option dict * world :=
  match todo with
  | O => (None, w)
  | S todo' =>
      let answer := generate_content (calls w) in
      let w := call_made w in
      match try_body answer text with
      | Ok (Some d) => (Some d, w)
      | _ =>
          let w := if attempt <? attempts
                   then sleep (2 ^ (attempt - 1)) w else w in
          attempt_loop generate_content text attempts todo' (S attempt) w
      end
  end.

Definition extract_entities (cfg : Settings)
    (generate_content : nat -> exc response) (text : str) (retry : bool)
  : option dict * world :=
  let attempts := if retry then MAX_RETRIES cfg else 1 in
  attempt_loop generate_content text attempts attempts 1
    {| calls := 0; sleeps := [] |}.

End LLMExtractor.

(** ** The cleaner ([src/text_cleaner.py]): sections and truncation *)

Module TextCleaner.

Record sections := {
  header : str;
  facts : str;
  arguments : str;
  decision : str;
  full_text : str
}.

(** [a[:n]] for an integer [n]; a negative [n] counts from the end. *)
Definition slice_to (n : Z) (s : str) : str :=
  if (0 <=? n)%Z then firstn (Z.to_nat n) s
  else firstn (length s - Z.to_nat (- n)) s.

(** [(?:FACTS?|FATOS|RELAT[ÓO]RIO).*?(?=\n\n)], without regard to case,
    the dot matching every character. *)
Definition facts_pattern : regex :=
  seq_of [alt_of [Seq (lit (py "FACT")) (Rep true 0 (Some 1) (ci "S"));
                  lit (py "FATOS");
                  seq_of [lit (py "RELAT");
                          Chr (fun c => existsb (fun x => ci x c) (py "ÓO"));
                          lit (py "RIO")]];
          lazy_star any_char;
          Ahead (lit [LF; LF])].

(** [(?:ARGUMENTS?|ARGUMENTOS|FUNDAMENTOS?).*?(?=\n\n)] *)
Definition arguments_pattern : regex :=
  seq_of [alt_of [Seq (lit (py "ARGUMENT")) (Rep true 0 (Some 1) (ci "S"));
                  lit (py "ARGUMENTOS");
                  Seq (lit (py "FUNDAMENTO")) (Rep true 0 (Some 1) (ci "S"))];
          lazy_star any_char;
          Ahead (lit [LF; LF])].

(** [(?:DECISION|DECIS[ÃA]O|CONCLUS[ÃA]O|DISPOSITIVO).*] *)
Definition decision_pattern : regex :=
  let a_tilde := Chr (fun c => existsb (fun x => ci x c) (py "ÃA")) in
  seq_of [alt_of [lit (py "DECISION");
                  seq_of [lit (py "DECIS"); a_tilde; lit (py "O")];
                  seq_of [lit (py "CONCLUS"); a_tilde; lit (py "O")];
                  lit (py "DISPOSITIVO")];
          star any_char].

Definition found (r : regex) (text : str) : str :=
  match re_search r text with
  | Some m => group0 m
  | None => []
  end.

Definition extract_sections (text : str) : sections :=
  {| header := [];
     facts := found facts_pattern text;
     arguments := found arguments_pattern text;
     decision := found decision_pattern text;
     full_text := text |}.

Definition priority_text (s : sections) : str :=
  slice_to 500 (header s) ++ [LF; LF] ++ slice_to 2000 (decision s)
  ++ [LF; LF] ++ slice_to 2000 (facts s).

Definition truncate_for_llm (text : str) (max_tokens : Z) : str :=
  let max_chars := (max_tokens * 4)%Z in
  if (Z.of_nat (length text) <=? max_chars)%Z then text
  else
    let s := extract_sections text in
    let priority := priority_text s in
    if (max_chars <? Z.of_nat (length priority))%Z
    then slice_to max_chars priority
    else
      let remaining := (max_chars - Z.of_nat (length priority))%Z in
      priority ++ [LF; LF] ++ slice_to remaining (full_text s).

(** The patterns of headers and footers, without regard to case:
    [Page \d+ of \d+], [www\.\S+], [©\s*\d{4}], [All Rights Reserved]. *)
Definition header_patterns : list regex :=
  [ seq_of [lit (py "Page "); plus is_digit; lit (py " of "); plus is_digit];
    seq_of [lit (py "www."); plus (fun c => negb (isspace c))];
    seq_of [lit (py "©"); star isspace; Rep true 4 (Some 4) is_digit];
    lit (py "All Rights Reserved") ].

Definition _remove_headers (text : str) : str :=
  fold_left (fun text pattern => re_sub pattern [] text) header_patterns text.

Definition TAB : ascii := chr 9.
Definition SPACE : ascii := chr 32.

(** [re.sub(r' +', ' ', text)], then [text.replace('\t', ' ')]. *)
Definition _normalize_whitespace (text : str) : str :=
  let text := re_sub (plus (exactly SPACE)) [SPACE] text in
  replace [TAB] [SPACE] text.

(** [[a-z]] as it is written. *)
Definition small_letter (c : ascii) : bool := between 97 122 c.

(** [(?<=[a-z,])\n(?=[a-z])] becomes a space, then [\n{3,}] becomes two
    line feeds. *)
Definition _fix_line_breaks (text : str) : str :=
  let text :=
    re_sub (seq_of [Behind [fun c => small_letter c || exactly "," c];
                    Chr (exactly LF);
                    Ahead (Chr small_letter)])
           [SPACE] text in
  re_sub (Rep true 3 None (exactly LF)) [LF; LF] text.

(** [[\x00-\x08\x0b-\x0c\x0e-\x1f\x7f-\x9f]] *)
Definition control_char (c : ascii) : bool :=
  between 0 8 c || between 11 12 c || between 14 31 c || between 127 159 c.

Definition _remove_special_chars (text : str) : str :=
  let text :=
    List.filter (fun char => Ascii.eqb char LF || negb (isspace char)
                             || Ascii.eqb char SPACE) text in
  re_sub (Chr control_char) [] text.

Definition clean (text : str) : str :=
  if is_nil text then []
  else
    let text := _remove_headers text in
    let text := _normalize_whitespace text in
    let text := _fix_line_breaks text in
    let text := _remove_special_chars text in
    strip text.

End TextCleaner.

(** ** Slices and searches with integer bounds

    [s[start:stop]] and [s.rfind(c, start, stop)] take integers of either
    sign: a negative bound counts from the end, and both are brought into
    the range of the text. *)

Definition adjust (len i : Z) : Z :=
  if (i <? 0)%Z then Z.max 0 (i + len) else Z.min i len.

(** [s[start:stop]] *)
Definition slice (s : str) (start stop : Z) : str :=
  let len := Z.of_nat (length s) in
  let a := adjust len start in
  let b := adjust len stop in
  firstn (Z.to_nat (b - a)) (skipn (Z.to_nat a) s).

(** The highest index of [c] in [s], the first character of [s] having
    the index [i]; [-1] when [c] does not occur. *)
Fixpoint rfind_in (c : ascii) (s : str) (i : Z) : Z :=
  match s with
  | [] => (-1)%Z
  | x :: s' =>
      let r := rfind_in c s' (i + 1) in
      if (r <? 0)%Z then (if Ascii.eqb x c then i else (-1)%Z) else r
  end.

(** [s.rfind(c, start, stop)] for a one-character argument. *)
Definition rfind (c : ascii) (s : str) (start stop : Z) : Z :=
  let len := Z.of_nat (length s) in
  let a := adjust len start in
  let b := adjust len stop in
  rfind_in c (firstn (Z.to_nat (b - a)) (skipn (Z.to_nat a) s)) a.

(** ** The chunker ([src/text_cleaner.py], class [TextChunker]) *)

Module TextChunker.

Record chunker := {
  chunk_size : Z;
  chunk_overlap : Z
}.

(** [TextChunker()] with the default arguments. *)
Definition default_chunker : chunker :=
  {| chunk_size := 3000; chunk_overlap := 200 |}.

(** The end of the chunk that starts at [start]: the size of a chunk
    further on, or just after the last full stop of that window when it
    lies in the second half of the window and the window does not reach
    the end of the text. *)
Definition chunk_end (self : chunker) (text : str) (start : Z) : Z :=
  let end_ := (start + chunk_size self)%Z in
  if (end_ <? Z.of_nat (length text))%Z then
    let sentence_end := rfind "." text start end_ in
    if negb (sentence_end =? -1)%Z
       && (start + chunk_size self / 2 <? sentence_end)%Z
    then (sentence_end + 1)%Z
    else end_
  else end_.

(** The loop [while start < len(text)].  Nothing in the source bounds the
    number of its turns, so the model counts them: [None] stands for a
    run that has not ended after [fuel] turns. *)
Fixpoint chunk_loop (fuel : nat) (self : chunker) (text : str) (start : Z)
    (chunks : list str) : option (list str) :=
  if (start <? Z.of_nat (length text))%Z then
    match fuel with
    | O => None
    | S fuel' =>
        let end_ := chunk_end self text start in
        chunk_loop fuel' self text (end_ - chunk_overlap self)%Z
          (chunks ++ [strip (slice text start end_)])
    end
  else Some chunks.

Definition chunk_text (fuel : nat) (self : chunker) (text : str)
  : option (list str) :=
  if (Z.of_nat (length text) <=? chunk_size self)%Z then Some [text]
  else chunk_loop fuel self text 0 [].

End TextChunker.

(** ** The language of a document ([src/pdf_processor.py]) *)

Module PDFProcessor.

Definition pt_keywords : list str :=
  [py "autor"; py "réu"; py "processo"; py "sentença"; py "acórdão";
   py "tribunal"; py "recurso"; py "decisão"].

Definition en_keywords : list str :=
  [py "plaintiff"; py "defendant"; py "court"; py "judgment";
   py "appeal"; py "order"; py "petition"].

(** [sum(1 for word in keywords if word in text)] *)
Definition keyword_count (keywords : list str) (text : str) : nat :=
  list_sum (map (fun word => if contains word text then 1 else 0) keywords).

Definition detect_language (text : str) : str :=
  let text_lower := TextCleaner.slice_to 5000 (lower text) in
  let pt_count := keyword_count pt_keywords text_lower in
  let en_count := keyword_count en_keywords text_lower in
  if en_count <? pt_count then py "pt" else py "en".

End PDFProcessor.

(** ** The metrics ([src/metrics.py]): kinds of errors and rates of fields

    An extraction is recorded with its file name, its entities, its
    completeness, its processing time, whether it succeeded and its
    errors.  The source computes with floating-point numbers; their type
    and the division of one integer by another are left open here. *)

Module MetricsCalculator.

(** [error.split(':')[0].strip() if ':' in error else 'unknown'] *)
Definition error_type (error : str) : str :=
  if contains (py ":") error
  then strip (hd [] (split_char ":" error))
  else py "unknown".

(** [error_types[error_type] = error_types.get(error_type, 0) + 1] *)
Definition count_error (error_types : gmap str nat) (error : str)
  : gmap str nat :=
  <[error_type error := default 0 (error_types !! error_type error) + 1]>
    error_types.

(** [value and str(value).lower() not in ['null', 'none', 'n/a', '']] *)
Definition value_counts (value : option str) : bool :=
  match value with
  | Some v =>
      negb (is_nil v)
      && negb (in_list (lower v) [py "null"; py "none"; py "n/a"; []])
  | None => false
  end.

(** The loop over the items of the entities of one extraction; the order
    of the items does not enter into the counts. *)
Definition count_fields (entities : dict) (field_counts : gmap str nat)
  : gmap str nat :=
  map_fold (fun field value field_counts =>
              if value_counts value
              then <[field := default 0 (field_counts !! field) + 1]>
                     field_counts
              else field_counts)
           field_counts entities.

Section Floats.

Context {float : Type}.

(** [count / total_extractions] for two integers. *)
Variable true_div : nat -> nat -> float.

Record extraction := {
  filename : str;
  entities : option dict;
  completeness : float;
  processing_time : float;
  success : bool;
  errors : list str
}.

(** [self.extractions.append({...})] *)
Definition add_extraction (extractions : list extraction) (filename : str)
    (entities : option dict) (completeness processing_time : float)
    (success : bool) (errors : option (list str)) : list extraction :=
  extractions
  ++ [{| filename := filename; entities := entities;
         completeness := completeness; processing_time := processing_time;
         success := success; errors := default [] errors |}].

Definition _calculate_error_types (extractions : list extraction)
  : gmap str nat :=
  fold_left (fun error_types extraction =>
               if is_nil (errors extraction) then error_types
               else fold_left count_error (errors extraction) error_types)
            extractions ∅.

(** One turn of the loop over the extractions: the counts by field and
    the number of extractions counted. *)
Definition field_rates_step (st : gmap str nat * nat) (extraction : extraction)
  : gmap str nat * nat :=
  let '(field_counts, total_extractions) := st in
  if negb (success extraction)
     || negb (LLMExtractor.dict_truthy (entities extraction))
  then st
  else (count_fields (default ∅ (entities extraction)) field_counts,
        S total_extractions).

Definition _calculate_field_rates (extractions : list extraction)
  : gmap str float :=
  let '(field_counts, total_extractions) :=
    fold_left field_rates_step extractions (∅, 0) in
  if total_extractions =? 0 then ∅
  else (fun count => true_div count total_extractions) <$> field_counts.

End Floats.

Arguments extraction : clear implicits.

End MetricsCalculator.

(** ** Notions used in the statements and proofs *)

(** A string that does not begin with white space. *)
Definition head_nonspace (s : str) : Prop :=
  match s with
  | c :: _ => isspace c = false
  | [] => True
  end.

(** A string without white space at either end: [strip] leaves it as it
    is. *)
Definition trimmed (s : str) : Prop := head_nonspace s /\ head_nonspace (rev s).

(** A string in which the character [sep] does not occur. *)
Definition lacks (sep : ascii) (s : str) : Prop :=
  forallb (fun c => negb (Ascii.eqb c sep)) s = true.

(** A non-empty string without white space. *)
Definition word (w : str) : Prop :=
  w <> [] /\ forallb (fun c => negb (isspace c)) w = true.

(** The two replacements of the wire format: a line feed is written as a
    backslash and the letter n, and read back. *)
Definition escape (v : str) : str := replace [LF] ESCAPED_LF v.
Definition unescape (v : str) : str := replace ESCAPED_LF [LF] v.

(** The three components of what a validator answers. *)
Definition ok (r : EntityValidator.result) : bool := fst (fst r).
Definition normalized (r : EntityValidator.result) : option str := snd (fst r).
Definition message (r : EntityValidator.result) : str := snd r.

(** The validator that a table holds for a field. *)
Fixpoint find_validator (tbl : list (str * (option str -> EntityValidator.result)))
    (k : str) : option (option str -> EntityValidator.result) :=
  match tbl with
  | [] => None
  | (k', f) :: tbl' => if str_eqb k k' then Some f else find_validator tbl' k
  end.

(** The error that a field of the table adds for the entities [e]. *)
Definition step_errors (e : dict)
    (fv : str * (option str -> EntityValidator.result)) : list str :=
  match e !! fst fv with
  | Some value =>
      if ok (snd fv value) then []
      else [fst fv ++ py ": " ++ message (snd fv value)]
  | None => []
  end.

(** The layout [fmt] is the first of the list that reads [v], as [dt]. *)
Definition first_layout (v : str) (fmt : layout) (dt : date) : Prop :=
  exists before after,
    EntityValidator.date_formats = before ++ fmt :: after
    /\ strptime fmt v = Some dt
    /\ Forall (fun f => strptime f v = None) before.

(** The second way of reading a reply, on its own: the block found in
    the reply, read again by the strict reader. *)
Definition embedded_parse (raw_text : str) : option dict :=
  match LLMExtractor._extract_csv_block raw_text with
  | Some embedded => LLMExtractor._parse_csv_output embedded
  | None => None
  end.

(** The waits of a run that made [n] calls: 1, 2, 4, ... after each of
    the calls but the last. *)
Definition backoffs (n : nat) : list nat :=
  map (fun attempt => 2 ^ (attempt - 1)) (seq 1 (n - 1)).

(** The attempt with the given answer gives a result. *)
Definition succeeds (answer : exc LLMExtractor.response) (text : str) : Prop :=
  exists d, LLMExtractor.try_body answer text = Ok (Some d).

(** A dictionary that holds the eight fields of the header and no other
    key. *)
Definition has_csv_fields (d : dict) : Prop :=
  forall k, d !! k <> None <-> In k CSV_FIELDS.

(** The lines of a reply that hold at least three commas: the candidate
    lines of [_extract_csv_block]. *)
Definition candidate_lines (text : str) : list str :=
  List.filter (fun ln => 3 <=? count_char (chr 44) ln) (splitlines text).

(** The windows that the loop of [chunk_text] cuts, as pairs of the
    start and the end of each. *)
Fixpoint chunk_windows (fuel : nat) (self : TextChunker.chunker) (text : str)
    (start : Z) : list (Z * Z) :=
  if (start <? Z.of_nat (length text))%Z then
    match fuel with
    | O => []
    | S fuel' =>
        let end_ := TextChunker.chunk_end self text start in
        (start, end_)
        :: chunk_windows fuel' self text (end_ - TextChunker.chunk_overlap self)%Z
    end
  else [].

(** The chunk of a window. *)
Definition chunk_of (text : str) (w : Z * Z) : str :=
  strip (slice text (fst w) (snd w)).

(** The least number of characters that a match of an expression
    holds. *)
Fixpoint min_len (r : regex) : nat :=
  match r with
  | Chr _ => 1
  | Seq r1 r2 => min_len r1 + min_len r2
  | Alt r1 r2 => Nat.min (min_len r1) (min_len r2)
  | Rep _ lo _ _ => lo
  | Group _ r' => min_len r'
  | _ => 0
  end.

(** The positions of a state of the matcher: the characters before it and
    after it. *)
Definition consumed (st : mstate) : nat := length (fst (fst st)).
Definition remaining (st : mstate) : nat := length (snd (fst st)).

(** The error messages of a series of extractions, in order. *)
Definition all_errors {float : Type}
    (extractions : list (MetricsCalculator.extraction float)) : list str :=
  concat (map MetricsCalculator.errors extractions).

(** The number of messages of the kind [t]. *)
Definition errors_of_type (t : str) (messages : list str) : nat :=
  length (List.filter (fun e => str_eqb (MetricsCalculator.error_type e) t)
                      messages).

(** The extractions that the field rates count: the successful ones
    whose entities are not empty. *)
Definition counted {float : Type} (x : MetricsCalculator.extraction float)
  : bool :=
  MetricsCalculator.success x
  && LLMExtractor.dict_truthy (MetricsCalculator.entities x).

(** The extractions counted in which the field [f] is filled. *)
Definition counted_with {float : Type} (f : str)
    (x : MetricsCalculator.extraction float) : bool :=
  counted x
  && EntityValidator.filled (default ∅ (MetricsCalculator.entities x)) f.

(** The instruction of the prompt: the fixed text that comes before the
    document. *)
Definition prompt_instruction : str :=
  lstrip (LLMExtractor.csv_instruction_head
          ++ join (py ", ") CSV_FIELDS
          ++ LLMExtractor.csv_instruction_tail).

(** A text that is empty or made of white space only. *)
Definition blank (s : str) : bool := forallb isspace s.

(** The matcher has passed from the position [st] to the position [st']
    over the text [x]. *)
Definition advances (st st' : mstate) (x : str) : Prop :=
  fst (fst st') = rev x ++ fst (fst st)
  /\ snd (fst st) = x ++ snd (fst st').

(** An expression without groups of its own (the groups inside a
    look-ahead are not kept by the matcher). *)
Fixpoint groupless (r : regex) : bool :=
  match r with
  | Seq r1 r2 | Alt r1 r2 => groupless r1 && groupless r2
  | Group _ _ => false
  | _ => true
  end.

(** The characters that [find_after] requires between a label and its
    value: the colon and the dash. *)
Definition label_sep (c : ascii) : bool := exactly ":" c || exactly "-" c.

(** A text without colon and without dash. *)
Definition no_label_sep (s : str) : Prop :=
  forall c, In c s -> label_sep c = false.

(** A key pattern whose alternatives before the last hold no group. *)
Definition plain_labels (pat : list regex) : bool :=
  negb (is_nil pat) && forallb groupless (removelast pat).

(** ** The scenarios of the specification *)

(** The reply of scenario A: the header line and one line of values. *)
Definition scenario_A_reply : str :=
  py "autor,reu,assunto_principal,tipo_decisao,resultado,resumo_5_linhas,data_decisao,tribunal"
  ++ [LF]
  ++ py "John Doe,ACME Corp,contract dispute,judgment,granted,Plaintiff prevailed.,15/03/2020,District Court".

Definition scenario_A_values : list (option str) :=
  map Some [py "John Doe"; py "ACME Corp"; py "contract dispute";
            py "judgment"; py "granted"; py "Plaintiff prevailed.";
            py "15/03/2020"; py "District Court"].

(** A client whose first [n] calls fail and whose later calls give the
    text [reply]. *)
Definition fails_then_replies (n : nat) (reply : str)
  : nat -> exc LLMExtractor.response :=
  fun j =>
    if j <? n then Raise ClientError
    else Ok {| LLMExtractor.text := Some reply;
               LLMExtractor.candidates := [];
               LLMExtractor.parsed := None |}.

(** A client whose every call fails. *)
Definition always_fails : nat -> exc LLMExtractor.response :=
  fun _ => Raise ClientError.

(** The fields of what a reader of replies gives, [None] when it gives
    no dictionary. *)
Definition fields_of (r : exc (option dict)) : option (list (option str)) :=
  match r with
  | Ok (Some d) => Some (map (get d) CSV_FIELDS)
  | _ => None
  end.

(** The shape of a computed value. *)
Definition is_some {A} (o : option A) : bool :=
  match o with Some _ => true | None => false end.

Definition returns_some {A} (r : exc (option A)) : bool :=
  match r with Ok (Some _) => true | _ => false end.

(** A string of two digits. *)
Definition two_digit_string (g : str) : Prop :=
  exists p q, g = [p; q] /\ is_digit p = true /\ is_digit q = true.


(** A value that reads null, none or n/a only once its white space is
    collapsed (as the value " null " does): the first pass keeps it in
    its collapsed form, which the second pass takes for a placeholder. *)
Definition collapses_to_placeholder (s : str) : bool :=
  negb (EntityValidator.placeholder (Some s))
  && negb (is_nil (EntityValidator.collapse s))
  && EntityValidator.placeholder (Some (EntityValidator.collapse s)).

(** A date that no layout reads and in which the pattern of three numbers
    finds a date that exists, with a year before 1000 (as the value
    "on 1/1/0999"): the first pass fills day and month and keeps the four
    digits of the year, and the second pass reads the result by the first
    layout and writes its year again. *)
Definition early_year_triplet (s : str) : bool :=
  negb (EntityValidator.placeholder (Some s))
  && match first_some (fun fmt => strptime fmt s) EntityValidator.date_formats with
     | Some _ => false
     | None =>
         match date_search s with
         | Some (d, m, y) =>
             match strptime DMY_slash
                     (zfill2 d ++ py "/" ++ zfill2 m ++ py "/" ++ y) with
             | Some dt => (year dt <? 1000)%N
             | None => false
             end
         | None => false
         end
     end.




(** The error that [validate] reports for a summary that is absent. *)
Definition summary_required : str :=
  py "resumo_5_linhas" ++ py ": " ++ py "Resumo é obrigatório".

(** No two lines that follow one another in [ls] name the first three
    fields of the header. *)
Definition no_header_pair (ls : list str) : Prop :=
  forall before l1 l2 after,
    ls = before ++ l1 :: l2 :: after ->
    LLMExtractor.has_header_names (l1 ++ [LF] ++ l2) l1 = false.


(** Entities for a second pass: white space to collapse, a date in
    words, and a summary of seven lines. *)
Definition untidy_entities : dict :=
  <[py "tribunal" := Some (py "District   Court ")]>
  (<[py "data_decisao" := Some (py "March 5, 2021")]>
  (<[py "resumo_5_linhas" :=
       Some (join [LF] [py "one"; py "two"; py "three"; py "four"; py "five";
                        py "six"; py "seven"])]>
  (<[py "resultado" := Some (py "Granted")]>
  (<[py "autor" := Some (py " John   Doe")]> ∅)))).

(** The eight fields that a dictionary holds, each with its value or
    absent. *)
Definition fieldset_of (d : dict) : dict := dict_of_keys CSV_FIELDS (get d) ∅.

(** A value that the wire format carries faithfully: not empty, without
    white space at the ends of its escaped form (so none at the ends of the
    value but line feeds), without a backslash followed by the letter n,
    and within the field size limit of the reader. *)
Definition wire_safe (v : str) : Prop :=
  v <> []
  /\ trimmed (escape v)
  /\ contains ESCAPED_LF v = false
  /\ (N.of_nat (length (escape v)) <= csv.field_size_limit)%N.

(** A field that the reader can hold. *)
Definition within_limit (w : str) : Prop :=
  (N.of_nat (length w) <= csv.field_size_limit)%N.

(** The field of the written row at the key [f]. *)
Definition wire_value (d : dict) (f : str) : str :=
  match get d f with
  | None => []
  | Some v => escape v
  end.

(** The reader in a given state, with the field being read and the
    fields read. *)
Definition reader_at (s : csv.parser_state) (f : str) (fs : list str)
  : csv.reader :=
  {| csv.state := s; csv.field := f; csv.fields := fs |}.

(** A field of a written row that the reader gives back: without line
    feed, within the limit, and empty or without white space at its ends. *)
Definition field_ok (w : str) : Prop :=
  lacks LF w /\ within_limit w /\ (w = [] \/ trimmed w).

(** A dictionary for the wire format: a comma, quotes, and a line feed
    inside the values. *)
Definition wire_example : dict :=
  <[py "tribunal" := Some (py "the " ++ [csv.QUOTECHAR] ++ py "High"
                           ++ [csv.QUOTECHAR] ++ py " Court")]>
  (<[py "resumo_5_linhas" := Some (py "First line," ++ [LF] ++ py "second line.")]>
  (<[py "reu" := None]>
  (<[py "autor" := Some (py "Doe, John")]> ∅))).

(** ** The wording of the specification, for comparison with the code *)

(** From the specification: the placeholder values are the strings "null",
    "none", "n/a" and the empty string, without regard to case. *)
Definition spec_placeholder (v : str) : bool :=
  in_list (lower v) [py "null"; py "none"; py "n/a"; py ""].

(** From the specification: the number of canonical fields whose value is
    present and is not a placeholder. *)
Definition spec_present_count (entities : dict) : nat :=
  length (List.filter
            (fun key =>
               match get entities key with
               | Some v => negb (spec_placeholder v)
               | None => false
               end)
            (ENTITIES settings)).

(** A string of the form DD/MM/YYYY. *)
Definition is_dd_mm_yyyy (s : str) : bool :=
  match s with
  | [d1; d2; s1; m1; m2; s2; y1; y2; y3; y4] =>
      is_digit d1 && is_digit d2 && char_is "/" s1 && is_digit m1
      && is_digit m2 && char_is "/" s2 && is_digit y1 && is_digit y2
      && is_digit y3 && is_digit y4
  | _ => false
  end.

(* ===================================================================== *)
(** * Part II: properties                                                 *)
(* ===================================================================== *)

Import EntityValidator.

(** ** Strings *)

Example py_latin1 : py "réu" = [chr 114; chr 233; chr 117].
Proof. reflexivity. Qed.

Lemma str_eqb_eq (a b : str) : str_eqb a b = true <-> a = b.
Proof. unfold str_eqb. apply bool_decide_eq_true. Qed.

Lemma str_eqb_refl (a : str) : str_eqb a a = true.
Proof. by apply str_eqb_eq. Qed.

Lemma in_list_In (x : str) (xs : list str) : in_list x xs = true <-> In x xs.
Proof.
  unfold in_list. rewrite existsb_exists. split.
  - intros (y & Hy & E). apply str_eqb_eq in E. by subst.
  - intros H. exists x. split; [done | apply str_eqb_refl].
Qed.

Lemma lower_nil (v : str) : lower v = [] <-> v = [].
Proof. destruct v; simpl; split; intros; congruence. Qed.

Lemma is_nil_true {A} (l : list A) : is_nil l = true <-> l = [].
Proof. destruct l; simpl; split; intros; congruence. Qed.

Lemma is_nil_false {A} (l : list A) : is_nil l = false <-> l <> [].
Proof. destruct l; simpl; split; intros; congruence. Qed.

(** ** Completeness *)

Lemma list_sum_indicator {A} (p : A -> bool) (l : list A) :
  list_sum (map (fun x => if p x then 1 else 0) l) = length (List.filter p l).
Proof.
  induction l as [|x l IH]; simpl; [done|].
  destruct (p x); simpl; lia.
Qed.

Lemma filter_length_le {A} (p : A -> bool) (l : list A) :
  length (List.filter p l) <= length l.
Proof. induction l as [|x l IH]; simpl; [lia|]. destruct (p x); simpl; lia. Qed.

(** The test of the code and the wording of the specification agree. *)
Lemma filled_spec (entities : dict) (key : str) :
  filled entities key =
  match get entities key with
  | Some v => negb (spec_placeholder v)
  | None => false
  end.
Proof.
  unfold filled, spec_placeholder. destruct (get entities key) as [v|]; [|done].
  destruct v as [|c v]; [done|]. simpl is_nil. simpl negb at 1.
  by rewrite andb_true_l.
Qed.

Lemma filter_ext_bool {A} (p q : A -> bool) (l : list A) :
  (forall x, p x = q x) -> List.filter p l = List.filter q l.
Proof. intros E. induction l as [|x l IH]; simpl; [done|]. by rewrite E, IH. Qed.

(** C3. For every field mapping, [calculate_completeness] lies in [0,1] and
    is the number of canonical fields that are present and not a
    placeholder ("null", "none", "n/a", "" in any case), divided by 8. *)
Theorem C3_completeness_exact (entities : dict) :
  (calculate_completeness settings entities
     == Z.of_nat (spec_present_count entities) # 8)%Q
  /\ (0 <= calculate_completeness settings entities)%Q
  /\ (calculate_completeness settings entities <= 1)%Q.
Proof.
  unfold calculate_completeness, spec_present_count.
  rewrite list_sum_indicator.
  rewrite (filter_ext_bool _ _ _ (filled_spec entities)).
  pose proof (filter_length_le
    (fun key => match get entities key with
                | Some v => negb (spec_placeholder v)
                | None => false
                end) (ENTITIES settings)) as Hle.
  change (length (ENTITIES settings)) with 8 in *.
  set (n := length _) in *. clearbody n.
  change (0 <? 8) with true. cbv iota.
  unfold Qeq, Qle, Qdiv, Qmult, Qinv, inject_Z. simpl. lia.
Qed.

(** ** Placeholders *)

Ltac pick_case :=
  lazymatch goal with
  | |- (?a = ?b /\ _) \/ _ =>
      first [ constr_eq a b; left; split; reflexivity | right; pick_case ]
  | |- ?a = ?b /\ _ => constr_eq a b; split; reflexivity
  end.

Lemma validators_cases (cfg : Settings) field validator :
  In (field, validator) (validators cfg) ->
  (field = py "autor" /\ validator = _validate_party_name)
  \/ (field = py "reu" /\ validator = _validate_party_name)
  \/ (field = py "assunto_principal" /\ validator = _validate_subject)
  \/ (field = py "tipo_decisao" /\ validator = _validate_decision_type)
  \/ (field = py "resultado" /\ validator = _validate_result cfg)
  \/ (field = py "resumo_5_linhas" /\ validator = _validate_summary cfg)
  \/ (field = py "data_decisao" /\ validator = _validate_date)
  \/ (field = py "tribunal" /\ validator = _validate_court).
Proof.
  unfold validators. intros H.
  repeat (apply in_inv in H as [H|H];
          [apply pair_equal_spec in H as [<- <-]; pick_case|]).
  destruct H.
Qed.

Lemma str_neq_by_compute (a b : str) : str_eqb a b = false -> a <> b.
Proof. unfold str_eqb. intros H. by apply bool_decide_eq_false in H. Qed.

Ltac str_neq := apply str_neq_by_compute; vm_compute; reflexivity.

(** An equation between a computed value and a constructor that it does
    not begin with is refuted by evaluating the shape of the value. *)
Ltac absurd_shape H :=
  first [ apply (f_equal is_some) in H; vm_compute in H; discriminate H
        | apply (f_equal returns_some) in H; vm_compute in H; discriminate H ].

(** C4, as the code has it.  A placeholder value makes every validator
    but the one of the summary answer (ok, absent, no message); the
    validator of the summary answers (not ok, absent, "Resumo é
    obrigatório"); and every validator treats a placeholder as it treats an
    absent value. *)
Theorem C4_placeholder_short_circuit (cfg : Settings) field validator value :
  In (field, validator) (validators cfg) ->
  placeholder value = true ->
  validator value = validator None
  /\ (field <> py "resumo_5_linhas" -> validator value = (true, None, []))
  /\ (field = py "resumo_5_linhas" ->
      validator value = (false, None, py "Resumo é obrigatório")).
Proof.
  intros Hin Hp. apply validators_cases in Hin.
  destruct Hin as [[-> ->]|[[-> ->]|[[-> ->]|[[-> ->]|[[-> ->]|[[-> ->]|[[-> ->]|[-> ->]]]]]]]];
    destruct value as [v|];
    unfold _validate_party_name, _validate_subject, _validate_decision_type,
           _validate_result, _validate_summary, _validate_date, _validate_court;
    rewrite ?Hp;
    (split; [reflexivity|]).
  all: split; intros Hf.
  all: try reflexivity.
  all: exfalso.
  all: try (by apply Hf).
  all: revert Hf; str_neq.
Qed.

Lemma C4_placeholder_short_circuit_witness :
  _validate_court (Some (py "N/A")) = _validate_court None
  /\ (py "tribunal" <> py "resumo_5_linhas" ->
      _validate_court (Some (py "N/A")) = (true, None, []))
  /\ (py "tribunal" = py "resumo_5_linhas" ->
      _validate_court (Some (py "N/A")) = (false, None, py "Resumo é obrigatório")).
Proof.
  apply (C4_placeholder_short_circuit settings (py "tribunal") _validate_court
           (Some (py "N/A"))).
  - unfold validators. do 7 right. left. reflexivity.
  - reflexivity.
Defined.

(** C4 as stated fails at the validator of the summary: the placeholder
    "null" is answered with a failure and a message. *)
Lemma C4_counterexample :
  In (py "resumo_5_linhas", _validate_summary settings) (validators settings)
  /\ placeholder (Some (py "null")) = true
  /\ _validate_summary settings (Some (py "null"))
     = (false, None, py "Resumo é obrigatório")
  /\ _validate_summary settings (Some (py "null")) <> (true, None, []).
Proof.
  split; [unfold validators; do 5 right; left; reflexivity|].
  split; [reflexivity|]. split; [reflexivity|].
  vm_compute. discriminate.
Qed.
(** ** White space at the ends of a string *)

Lemma lstrip_id (s : str) : head_nonspace s -> lstrip s = s.
Proof. destruct s as [|c s]; simpl; [done|]. by intros ->. Qed.

Lemma lstrip_head (s : str) : head_nonspace (lstrip s).
Proof.
  induction s as [|c s IH]; simpl; [done|].
  destruct (isspace c) eqn:E; [done|]. simpl. done.
Qed.

Lemma lstrip_split (s : str) :
  exists sp, s = sp ++ lstrip s /\ forallb isspace sp = true.
Proof.
  induction s as [|c s (sp & E & Hsp)]; simpl.
  - by exists [].
  - destruct (isspace c) eqn:Ec.
    + exists (c :: sp). simpl. rewrite Ec, Hsp. split; [by f_equal|done].
    + by exists [].
Qed.

Lemma head_nonspace_app (a b : str) :
  a <> [] -> head_nonspace (a ++ b) <-> head_nonspace a.
Proof. destruct a; simpl; [done|tauto]. Qed.

Lemma rstrip_last (s : str) : head_nonspace (rev (rstrip s)).
Proof. unfold rstrip. rewrite rev_involutive. apply lstrip_head. Qed.

Lemma rstrip_id (s : str) : head_nonspace (rev s) -> rstrip s = s.
Proof. intros H. unfold rstrip. rewrite lstrip_id by done. apply rev_involutive. Qed.

Lemma lstrip_keeps_last (s : str) :
  head_nonspace (rev s) -> head_nonspace (rev (lstrip s)).
Proof.
  intros H. destruct (lstrip_split s) as (sp & E & _).
  destruct (lstrip s) as [|c w] eqn:Ew; [done|].
  rewrite E, rev_app_distr in H.
  apply head_nonspace_app in H; [done|].
  simpl. by destruct (rev w).
Qed.

Lemma strip_trimmed (s : str) : trimmed (strip s).
Proof.
  split; unfold strip.
  - apply lstrip_head.
  - apply lstrip_keeps_last, rstrip_last.
Qed.

Lemma strip_id (s : str) : trimmed s -> strip s = s.
Proof. intros [H1 H2]. unfold strip. by rewrite rstrip_id, lstrip_id. Qed.

Lemma strip_idem (s : str) : strip (strip s) = strip s.
Proof. apply strip_id, strip_trimmed. Qed.

Lemma strip_nil : strip [] = [].
Proof. reflexivity. Qed.

Lemma trimmed_app (a b : str) :
  a <> [] -> b <> [] -> head_nonspace a -> head_nonspace (rev b) -> trimmed (a ++ b).
Proof.
  intros Ha Hb H1 H2. split.
  - by apply head_nonspace_app.
  - rewrite rev_app_distr. apply head_nonspace_app; [|done].
    destruct b; [done|]. simpl. by destruct (rev b).
Qed.

(** Stripping removes a white-space tail. *)
Lemma rstrip_app_spaces (s sp : str) :
  forallb isspace sp = true -> rstrip (s ++ sp) = rstrip s.
Proof.
  revert s. induction sp as [|c sp IH] using rev_ind; intros s H.
  - by rewrite app_nil_r.
  - rewrite forallb_app in H. apply andb_true_iff in H as [H1 H2].
    simpl in H2. rewrite andb_true_r in H2.
    rewrite app_assoc. unfold rstrip at 1. rewrite rev_app_distr. simpl.
    rewrite H2. fold (rstrip (s ++ sp)). by apply IH.
Qed.

Lemma strip_app_spaces (s sp : str) :
  forallb isspace sp = true -> strip (s ++ sp) = strip s.
Proof. intros H. unfold strip. by rewrite rstrip_app_spaces. Qed.

(** ** Splitting on a character and joining *)

Lemma lacks_cons sep c s :
  lacks sep (c :: s) <-> Ascii.eqb c sep = false /\ lacks sep s.
Proof.
  unfold lacks. simpl. rewrite andb_true_iff, negb_true_iff. tauto.
Qed.

Lemma lacks_app sep a b : lacks sep (a ++ b) <-> lacks sep a /\ lacks sep b.
Proof. unfold lacks. rewrite forallb_app, andb_true_iff. tauto. Qed.

Lemma split_char_not_nil sep s : split_char sep s <> [].
Proof.
  destruct s as [|c s]; simpl; [done|].
  destruct (Ascii.eqb c sep); [done|]. by destruct (split_char sep s).
Qed.

Lemma split_char_lacks sep s : lacks sep s -> split_char sep s = [s].
Proof.
  induction s as [|c s IH]; [done|].
  intros [Hc Hs]%lacks_cons. simpl. by rewrite Hc, IH.
Qed.

Lemma split_char_app sep l r :
  lacks sep l -> split_char sep (l ++ sep :: r) = l :: split_char sep r.
Proof.
  induction l as [|c l IH]; intros H; simpl.
  - by rewrite Ascii.eqb_refl.
  - apply lacks_cons in H as [Hc Hl]. by rewrite Hc, IH.
Qed.



Lemma lacks_join sep (other : str) (ls : list str) :
  lacks sep other -> Forall (lacks sep) ls -> lacks sep (join other ls).
Proof.
  intros Ho. induction ls as [|l ls IH]; intros H; [done|].
  inversion H; subst. destruct ls as [|l2 ls]; [done|].
  change (join other (l :: l2 :: ls)) with (l ++ other ++ join other (l2 :: ls)).
  rewrite !lacks_app. auto.
Qed.

(** Parts of a string keep lacking what the string lacks. *)
Lemma lacks_lstrip sep s : lacks sep s -> lacks sep (lstrip s).
Proof.
  induction s as [|c s IH]; [done|]. intros H. simpl.
  destruct (isspace c); [|done]. apply IH. by apply lacks_cons in H as [_ ?].
Qed.

Lemma lacks_rev sep s : lacks sep (rev s) <-> lacks sep s.
Proof.
  unfold lacks. rewrite !forallb_forall. setoid_rewrite <- List.in_rev. done.
Qed.

Lemma lacks_strip sep s : lacks sep s -> lacks sep (strip s).
Proof.
  intros H. unfold strip, rstrip.
  apply lacks_lstrip, lacks_rev, lacks_lstrip, lacks_rev, H.
Qed.

(** ** Words *)









(** ** Replacement *)

Lemma replace_cons_1 (a : ascii) (new : str) (c : ascii) (s : str) :
  replace [a] new (c :: s)
  = (if Ascii.eqb a c then new else [c]) ++ replace [a] new s.
Proof.
  unfold replace. simpl. rewrite andb_true_r. by destruct (Ascii.eqb a c).
Qed.

Lemma replace_cons_2 (a b : ascii) (new : str) (c1 c2 : ascii) (s : str) :
  replace [a; b] new (c1 :: c2 :: s)
  = if Ascii.eqb a c1 && Ascii.eqb b c2 then new ++ replace [a; b] new s
    else c1 :: replace [a; b] new (c2 :: s).
Proof.
  unfold replace. simpl. rewrite andb_true_r.
  by destruct (Ascii.eqb a c1 && Ascii.eqb b c2).
Qed.

Lemma replace_single_2 (a b : ascii) (new : str) (c : ascii) :
  replace [a; b] new [c] = [c].
Proof. unfold replace. simpl. by rewrite andb_false_r. Qed.

(** A string without line feed holds no CR LF pair. *)
Lemma replace_crlf_lacks (s : str) :
  lacks LF s -> replace [CR; LF] [LF] s = s.
Proof.
  induction s as [|c1 s IH]; [done|].
  intros [H1 Hs]%lacks_cons. destruct s as [|c2 s].
  - apply replace_single_2.
  - rewrite replace_cons_2. pose proof Hs as [H2 _]%lacks_cons.
    rewrite (Ascii.eqb_sym LF c2), H2, andb_false_r. f_equal. by apply IH.
Qed.

Lemma escape_cons (c : ascii) (v : str) :
  escape (c :: v) = (if Ascii.eqb LF c then ESCAPED_LF else [c]) ++ escape v.
Proof. apply replace_cons_1. Qed.

Lemma escape_lacks_LF (v : str) : lacks LF (escape v).
Proof.
  induction v as [|c v IH]; [done|]. rewrite escape_cons.
  apply lacks_app. split; [|done].
  destruct (Ascii.eqb LF c) eqn:E; [done|].
  apply lacks_cons. by rewrite Ascii.eqb_sym.
Qed.

Lemma escape_nil_iff (v : str) : escape v = [] <-> v = [].
Proof.
  split; [|by intros ->]. destruct v as [|c v]; [done|].
  rewrite escape_cons. by destruct (Ascii.eqb LF c).
Qed.

Lemma escape_starts_n (v : str) (c2 : ascii) (ev : str) :
  escape v = c2 :: ev -> Ascii.eqb (chr 110) c2 = true ->
  exists v', v = chr 110 :: v'.
Proof.
  destruct v as [|c v]; [done|]. rewrite escape_cons.
  destruct (Ascii.eqb LF c) eqn:E; intros Heq H; injection Heq as <- _.
  - vm_compute in H. done.
  - apply Ascii.eqb_eq in H as <-. by eexists.
Qed.

Lemma contains_cons (sub : str) (c : ascii) (s : str) :
  contains sub (c :: s) = starts_with sub (c :: s) || contains sub s.
Proof. reflexivity. Qed.

Lemma starts_with_2 (a b c1 c2 : ascii) (s : str) :
  starts_with [a; b] (c1 :: c2 :: s) = Ascii.eqb a c1 && Ascii.eqb b c2.
Proof. cbn [starts_with]. by rewrite andb_true_r. Qed.

(** Escaping and restoring gives the value back when it holds no
    backslash followed by the letter n. *)
Lemma unescape_escape (v : str) :
  contains ESCAPED_LF v = false -> unescape (escape v) = v.
Proof.
  induction v as [|c v IH]; [done|].
  rewrite contains_cons. intros [Hhd Htl]%orb_false_iff.
  specialize (IH Htl). rewrite escape_cons.
  destruct (Ascii.eqb LF c) eqn:E.
  - apply Ascii.eqb_eq in E as <-. unfold unescape, ESCAPED_LF.
    change ([BACKSLASH; chr 110] ++ escape v) with (BACKSLASH :: chr 110 :: escape v).
    rewrite replace_cons_2, !Ascii.eqb_refl. cbn [andb app]. f_equal. apply IH.
  - cbn [app]. unfold unescape, ESCAPED_LF in *.
    destruct (escape v) as [|c2 ev] eqn:Eev.
    + apply escape_nil_iff in Eev as ->. by rewrite replace_single_2.
    + rewrite replace_cons_2.
      destruct (Ascii.eqb BACKSLASH c && Ascii.eqb (chr 110) c2) eqn:Eb.
      * exfalso. apply andb_true_iff in Eb as [Eb1 Eb2].
        destruct (escape_starts_n v c2 ev Eev Eb2) as (v' & ->).
        rewrite starts_with_2, Eb1, Ascii.eqb_refl in Hhd. done.
      * f_equal. apply IH.
Qed.
(** ** The loop of [validate] *)

Lemma find_validator_None tbl k :
  ~ In k (map fst tbl) -> find_validator tbl k = None.
Proof.
  induction tbl as [|[k' f] tbl IH]; [done|]. cbn [map fst find_validator].
  intros H. destruct (str_eqb k k') eqn:E.
  - apply str_eqb_eq in E as ->. exfalso. apply H. by left.
  - apply IH. intros Hin. apply H. by right.
Qed.

Lemma step_errors_agree (e e0 : dict) tbl :
  (forall k, In k (map fst tbl) -> e !! k = e0 !! k) ->
  flat_map (step_errors e) tbl = flat_map (step_errors e0) tbl.
Proof.
  induction tbl as [|[k f] tbl IH]; [done|]. intros H. simpl.
  f_equal.
  - unfold step_errors. simpl. rewrite H; [done|]. simpl. by left.
  - apply IH. intros k' Hk'. apply H. simpl. by right.
Qed.

Lemma validate_step_eq (e : dict) (errs : list str) k0 f0 :
  validate_step (e, errs) (k0, f0)
  = match e !! k0 with
    | Some value =>
        (<[k0 := normalized (f0 value)]> e,
         if ok (f0 value) then errs
         else errs ++ [k0 ++ py ": " ++ message (f0 value)])
    | None => (e, errs)
    end.
Proof.
  unfold validate_step, normalized, ok, message.
  destruct (e !! k0) as [value|]; [|done].
  by destruct (f0 value) as [[? ?] ?].
Qed.

(** The loop, in one step: every field of the table that the entities
    hold is replaced by its normal form, the other keys are kept, and the
    errors are those of the fields in the order of the table. *)
Lemma validate_fold tbl :
  List.NoDup (map fst tbl) ->
  forall (e : dict) (errs : list str),
    (forall k, (fold_left validate_step tbl (e, errs)).1 !! k
               = match find_validator tbl k with
                 | Some f => (fun v => normalized (f v)) <$> e !! k
                 | None => e !! k
                 end)
    /\ (fold_left validate_step tbl (e, errs)).2
       = errs ++ flat_map (step_errors e) tbl.
Proof.
  induction tbl as [|[k0 f0] tbl IH]; intros Hnd e errs.
  - simpl. split; [done|]. by rewrite app_nil_r.
  - inversion Hnd as [|? ? Hk0 Hnd']; subst.
    cbn [fold_left]. rewrite validate_step_eq.
    cbn [flat_map]. unfold step_errors at 1. cbn [fst snd].
    destruct (e !! k0) as [value|] eqn:Ek0.
    + destruct (IH Hnd' (<[k0:=normalized (f0 value)]> e)
                  (if ok (f0 value) then errs
                   else errs ++ [k0 ++ py ": " ++ message (f0 value)]))
        as [IH1 IH2].
      split.
      * intros k. rewrite IH1. cbn [find_validator].
        destruct (str_eqb k k0) eqn:E.
        -- apply str_eqb_eq in E as ->.
           rewrite find_validator_None by done.
           by rewrite lookup_insert_eq, Ek0.
        -- assert (k0 <> k) by (intros ->; by rewrite str_eqb_refl in E).
           by rewrite lookup_insert_ne.
      * rewrite IH2.
        rewrite (step_errors_agree (<[k0:=normalized (f0 value)]> e) e).
        -- destruct (ok (f0 value)); [done|]. by rewrite <- app_assoc.
        -- intros k Hk. apply lookup_insert_ne. by intros ->.
    + destruct (IH Hnd' e errs) as [IH1 IH2]. split.
      * intros k. rewrite IH1. cbn [find_validator].
        destruct (str_eqb k k0) eqn:E; [|done].
        apply str_eqb_eq in E as ->.
        rewrite find_validator_None by done. by rewrite Ek0.
      * by rewrite IH2.
Qed.

Lemma validators_keys (cfg : Settings) :
  map fst (validators cfg) = ENTITIES settings.
Proof. reflexivity. Qed.

Lemma entities_nodup : List.NoDup (ENTITIES settings).
Proof.
  apply NoDup_ListNoDup. apply (bool_decide_unpack _). by vm_compute.
Qed.

Lemma validate_spec (cfg : Settings) (e : dict) :
  exists d',
    validate cfg e
    = (is_nil (flat_map (step_errors e) (validators cfg)), d',
       flat_map (step_errors e) (validators cfg))
    /\ forall k, d' !! k
                 = match find_validator (validators cfg) k with
                   | Some f => (fun v => normalized (f v)) <$> e !! k
                   | None => e !! k
                   end.
Proof.
  unfold validate.
  destruct (validate_fold (validators cfg)) with (e := e) (errs := @nil str)
    as [H1 H2].
  { rewrite validators_keys. apply entities_nodup. }
  destruct (fold_left validate_step (validators cfg) (e, [])) as [d' errs].
  simpl in H1, H2. subst errs. by exists d'.
Qed.

(** ** The summary *)

Lemma lacks_lower (v : str) : lacks LF (lower v) -> lacks LF v.
Proof.
  induction v as [|c v IH]; [done|]. unfold lower. cbn [map].
  intros [Hc Hv]%lacks_cons. apply lacks_cons. split; [|by apply IH].
  destruct (Ascii.eqb c LF) eqn:E; [|done].
  apply Ascii.eqb_eq in E as ->. by vm_compute in Hc.
Qed.

Lemma placeholder_cases (v : str) :
  placeholder (Some v) = true ->
  v = [] \/ lower v = py "null" \/ lower v = py "none" \/ lower v = py "n/a".
Proof.
  unfold placeholder. intros [H|H]%orb_true_iff.
  - left. by apply is_nil_true.
  - right. apply in_list_In in H. cbn [In] in H.
    destruct H as [H|[H|[H|[]]]]; symmetry in H; auto.
Qed.

Lemma placeholder_lacks_LF (v : str) : placeholder (Some v) = true -> lacks LF v.
Proof.
  intros [->|[H|[H|H]]]%placeholder_cases; [done| | |];
    apply lacks_lower; by rewrite H.
Qed.

(** A placeholder has at most one line. *)
Lemma placeholder_lines (v : str) :
  placeholder (Some v) = true -> length (summary_lines v) <= 1.
Proof.
  intros H%placeholder_lacks_LF. unfold summary_lines.
  rewrite split_char_lacks by done. rewrite length_map. cbn [List.filter].
  destruct (negb (is_nil (strip v))); simpl; lia.
Qed.

(** C5. The validator of the summary fails exactly when the value is
    absent or a placeholder, or has fewer non-empty lines than the
    configured minimum; with more non-empty lines than the configured
    maximum it succeeds with the first lines up to the maximum (for seven
    lines and the default settings: the first five); and it is the only
    validator that fails on an absent value. *)
Theorem C5_summary_validator (cfg : Settings) (value : option str) :
  (ok (_validate_summary cfg value) = false <->
     placeholder value = true
     \/ exists v, value = Some v
                  /\ length (summary_lines v) < MIN_SUMMARY_LINES cfg)
  /\ (forall v, value = Some v -> placeholder value = false ->
        MIN_SUMMARY_LINES cfg <= length (summary_lines v) ->
        MAX_SUMMARY_LINES cfg < length (summary_lines v) ->
        _validate_summary cfg value
        = (true,
           Some (join [LF] (firstn (MAX_SUMMARY_LINES cfg) (summary_lines v))),
           []))
  /\ (forall v, value = Some v -> length (summary_lines v) = 7 ->
        _validate_summary settings value
        = (true, Some (join [LF] (firstn 5 (summary_lines v))), []))
  /\ (forall field validator,
        In (field, validator) (validators cfg) ->
        (ok (validator None) = false <-> field = py "resumo_5_linhas")).
Proof.
  repeat split.
  - destruct value as [v|]; [|by left]. unfold _validate_summary.
    destruct (placeholder (Some v)) eqn:Ep; [by left|].
    destruct (length (summary_lines v) <? MIN_SUMMARY_LINES cfg) eqn:Emin.
    + intros _. right. exists v. split; [done|]. by apply Nat.ltb_lt.
    + by destruct (MAX_SUMMARY_LINES cfg <? length (summary_lines v)).
  - destruct value as [v|]; [|done]. unfold _validate_summary.
    intros [H|(v' & [= <-] & H)].
    + by rewrite H.
    + destruct (placeholder (Some v)); [done|].
      apply Nat.ltb_lt in H. by rewrite H.
  - intros v -> Hp Hmin Hmax. unfold _validate_summary. rewrite Hp.
    apply Nat.ltb_ge in Hmin. apply Nat.ltb_lt in Hmax. by rewrite Hmin, Hmax.
  - intros v -> H7. unfold _validate_summary.
    destruct (placeholder (Some v)) eqn:Ep.
    + apply placeholder_lines in Ep. lia.
    + by rewrite H7.
  - intros Hok. apply validators_cases in H.
    destruct H as [[-> ->]|[[-> ->]|[[-> ->]|[[-> ->]|[[-> ->]|[[-> ->]|[[-> ->]|[-> ->]]]]]]]];
      first [ exfalso; vm_compute in Hok; discriminate | reflexivity ].
  - intros ->. apply validators_cases in H.
    destruct H as [[E ->]|[[E ->]|[[E ->]|[[E ->]|[[E ->]|[[E ->]|[[E ->]|[E ->]]]]]]]];
      first [ exfalso; revert E; str_neq | reflexivity ].
Qed.

Lemma C5_summary_validator_witness :
  let v := join [LF] [py "one"; py " two "; py "three"; py ""; py "four";
                      py "five"; py "six"; py "seven"] in
  length (summary_lines v) = 7
  /\ _validate_summary settings (Some v)
     = (true, Some (join [LF] [py "one"; py "two"; py "three"; py "four";
                               py "five"]), []).
Proof.
  intros v. split; [reflexivity|].
  destruct (C5_summary_validator settings (Some v)) as (_ & _ & H & _).
  rewrite (H v eq_refl); reflexivity.
Defined.

(** ** Dates *)

Lemma code_chr (n : N) : (n < 256)%N -> code (chr n) = n.
Proof. apply N_ascii_embedding. Qed.

Lemma is_digit_digit (k : N) : (k < 10)%N -> is_digit (digit k) = true.
Proof.
  intros H. unfold is_digit, between, digit. rewrite code_chr by lia.
  apply andb_true_iff. split; apply N.leb_le; lia.
Qed.

Lemma days_in_month_le (y m : N) : (days_in_month y m <= 31)%N.
Proof.
  unfold days_in_month. repeat case_match; lia.
Qed.

Lemma make_date_bounds (y m d : N) (rest : str) (dt : date) :
  make_date y m d rest = Some dt ->
  dt = {| year := y; month := m; day := d |} /\ rest = []
  /\ (1 <= y <= 9999 /\ 1 <= m <= 12 /\ 1 <= d <= days_in_month y m)%N.
Proof.
  unfold make_date. case_match eqn:E; [|done]. intros [= <-].
  repeat (apply andb_true_iff in E as [E ?]).
  apply is_nil_true in E.
  repeat match goal with H : (_ <=? _)%N = true |- _ => apply N.leb_le in H end.
  done.
Qed.

Lemma strptime_make_date (fmt : layout) (v : str) (dt : date) :
  strptime fmt v = Some dt ->
  exists y m d rest, make_date y m d rest = Some dt.
Proof.
  destruct fmt; unfold strptime, parse_dmy; intros H;
    repeat (case_match; try done); eauto.
Qed.

Lemma strptime_bounds (fmt : layout) (v : str) (dt : date) :
  strptime fmt v = Some dt ->
  (1 <= year dt <= 9999 /\ 1 <= month dt <= 12
   /\ 1 <= day dt <= days_in_month (year dt) (month dt))%N.
Proof.
  intros (y & m & d & rest & H)%strptime_make_date.
  apply make_date_bounds in H as (-> & _ & H). done.
Qed.

(** From the year 1000 on a year is written in four digits, and before
    it in fewer. *)
Lemma year_digits_late (y : N) : (1000 <= y)%N -> year_digits y = four_digits y.
Proof.
  intros H. unfold year_digits.
  destruct (N.ltb_spec y 10); [lia|]. destruct (N.ltb_spec y 100); [lia|].
  destruct (N.ltb_spec y 1000); [lia|]. reflexivity.
Qed.

Lemma year_digits_early (y : N) :
  (y < 1000)%N -> 1 <= length (year_digits y) <= 3.
Proof.
  intros H. unfold year_digits.
  destruct (N.ltb_spec y 10); [simpl; lia|].
  destruct (N.ltb_spec y 100); [simpl; lia|].
  destruct (N.ltb_spec y 1000); [simpl; lia|lia].
Qed.


Lemma is_dd_mm_yyyy_length (s : str) :
  is_dd_mm_yyyy s = true -> length s = 10.
Proof.
  do 10 (destruct s as [|? s]; [done|]). by destruct s.
Qed.

(** What [strftime] writes for a date that [strptime] has built has the
    form DD/MM/YYYY when the year has four digits. *)
Lemma strftime_shape (dt : date) :
  (day dt <= 31 -> month dt <= 12 -> 1000 <= year dt <= 9999 ->
   is_dd_mm_yyyy (strftime_dmY dt) = true)%N.
Proof.
  intros Hd Hm Hy. unfold strftime_dmY, two_digits.
  rewrite year_digits_late by lia. unfold four_digits.
  change (py "/") with [chr 47]. cbn [app is_dd_mm_yyyy].
  rewrite !is_digit_digit;
    first [ reflexivity
          | apply N.mod_lt; lia
          | apply N.Div0.div_lt_upper_bound; lia ].
Qed.

(** Before the year 1000 it has not: the year is written in one to three
    digits. *)
Lemma strftime_early (dt : date) :
  (year dt < 1000)%N -> is_dd_mm_yyyy (strftime_dmY dt) = false.
Proof.
  intros Hy. destruct (is_dd_mm_yyyy _) eqn:E; [|done].
  apply is_dd_mm_yyyy_length in E. unfold strftime_dmY, two_digits in E.
  change (py "/") with [chr 47] in E. rewrite !length_app in E.
  pose proof (year_digits_early (year dt) Hy). cbn [length] in E. lia.
Qed.

Lemma first_some_Some {A B} (f : A -> option B) (l : list A) (y : B) :
  first_some f l = Some y <->
  exists before x after,
    l = before ++ x :: after /\ f x = Some y
    /\ Forall (fun a => f a = None) before.
Proof.
  induction l as [|a l IH]; simpl.
  - split; [done|]. intros (before & x & after & E & _). by destruct before.
  - destruct (f a) as [b|] eqn:Ea.
    + split.
      * intros [= <-]. exists [], a, l. by repeat split.
      * intros ([|a' before] & x & after & E & Hx & Hb).
        -- injection E as <- _. congruence.
        -- injection E as <- _. inversion Hb; subst. congruence.
    + rewrite IH. split.
      * intros (before & x & after & -> & Hx & Hb).
        exists (a :: before), x, after. repeat split; [done|].
        by constructor.
      * intros ([|a' before] & x & after & E & Hx & Hb).
        -- injection E as <- _. congruence.
        -- injection E as <- ->. inversion Hb; subst. by exists before, x, after.
Qed.

Lemma first_some_None {A B} (f : A -> option B) (l : list A) :
  first_some f l = None <-> Forall (fun a => f a = None) l.
Proof.
  induction l as [|a l IH]; simpl; [by split; [constructor|]|].
  destruct (f a) eqn:Ea.
  - split; [done|]. inversion 1; congruence.
  - rewrite IH. split; [by constructor|by inversion 1].
Qed.

(** C8. The validator of the date never fails.  A value that is not a
    placeholder and that one of the layouts reads is written again from
    the date of the first such layout; what is written has the form
    DD/MM/YYYY exactly when the year is 1000 or later, and "01/01/0999"
    comes back as "01/01/999".  A value that no layout reads and in which
    the pattern of three numbers is found gives day and month filled to
    two digits; any other value is handed back as it is. *)
Theorem C8_date_never_fails :
  (forall value, ok (_validate_date value) = true)
  /\ (forall v fmt dt,
        placeholder (Some v) = false -> first_layout v fmt dt ->
        _validate_date (Some v) = (true, Some (strftime_dmY dt), [])
        /\ (is_dd_mm_yyyy (strftime_dmY dt) = true <-> (1000 <= year dt)%N))
  /\ (forall v d m y,
        placeholder (Some v) = false ->
        Forall (fun f => strptime f v = None) date_formats ->
        date_search v = Some (d, m, y) ->
        _validate_date (Some v)
        = (true, Some (zfill2 d ++ py "/" ++ zfill2 m ++ py "/" ++ y), []))
  /\ (forall v,
        placeholder (Some v) = false ->
        Forall (fun f => strptime f v = None) date_formats ->
        date_search v = None ->
        _validate_date (Some v) = (true, Some v, []))
  /\ _validate_date (Some (py "March 5, 2021"))
     = (true, Some (py "05/03/2021"), [])
  /\ _validate_date (Some (py "01/01/0999"))
     = (true, Some (py "01/01/999"), [])
  /\ is_dd_mm_yyyy (py "01/01/999") = false.
Proof.
  split; [|split; [|split; [|split; [|split; [|split]]]]].
  - intros [v|]; [|done]. unfold _validate_date.
    destruct (placeholder (Some v)); [done|].
    destruct (first_some _ _); [done|].
    by destruct (date_search v) as [[[? ?] ?]|].
  - intros v fmt dt Hp (before & after & E & Hs & Hb).
    assert (first_some (fun fmt => strptime fmt v) date_formats = Some dt) as Hf.
    { apply first_some_Some. by exists before, fmt, after. }
    unfold _validate_date. rewrite Hp, Hf. split; [done|].
    apply strptime_bounds in Hs as (Hy & Hm & Hd).
    pose proof (days_in_month_le (year dt) (month dt)).
    split.
    + intros Hshape. destruct (N.lt_ge_cases (year dt) 1000) as [Hlt|]; [|done].
      by rewrite (strftime_early dt Hlt) in Hshape.
    + intros Hlate. apply strftime_shape; lia.
  - intros v d m y Hp Hnone Hs. apply first_some_None in Hnone.
    unfold _validate_date. by rewrite Hp, Hnone, Hs.
  - intros v Hp Hnone Hs. apply first_some_None in Hnone.
    unfold _validate_date. by rewrite Hp, Hnone, Hs.
  - reflexivity.
  - reflexivity.
  - reflexivity.
Qed.

Lemma C8_date_never_fails_witness :
  (_validate_date (Some (py "5 march 2021"))
   = (true, Some (strftime_dmY {| year := 2021; month := 3; day := 5 |}), [])
   /\ is_dd_mm_yyyy (strftime_dmY {| year := 2021; month := 3; day := 5 |}) = true)
  /\ (_validate_date (Some (py "5 march 0987"))
      = (true, Some (strftime_dmY {| year := 987; month := 3; day := 5 |}), [])
      /\ is_dd_mm_yyyy (strftime_dmY {| year := 987; month := 3; day := 5 |})
         <> true)
  /\ _validate_date (Some (py "on 1/13/2021, at noon"))
     = (true, Some (py "01/13/2021"), [])
  /\ _validate_date (Some (py "last spring")) = (true, Some (py "last spring"), []).
Proof.
  destruct C8_date_never_fails as (_ & H1 & H2 & H3 & _).
  split; [|split; [|split]].
  - destruct (H1 (py "5 march 2021") D_B_Y
                {| year := 2021; month := 3; day := 5 |}) as [E [_ Hs]];
      [reflexivity| |].
    + exists [DMY_slash; DMY_dash; YMD_dash; DMY_dot], [B_D_Y].
      split; [reflexivity|]. split; [reflexivity|].
      repeat constructor.
    + split; [exact E|]. apply Hs. cbn [year]. lia.
  - destruct (H1 (py "5 march 0987") D_B_Y
                {| year := 987; month := 3; day := 5 |}) as [E [Hs _]];
      [reflexivity| |].
    + exists [DMY_slash; DMY_dash; YMD_dash; DMY_dot], [B_D_Y].
      split; [reflexivity|]. split; [reflexivity|].
      repeat constructor.
    + split; [exact E|]. intros Hshape. apply Hs in Hshape.
      cbn [year] in Hshape. lia.
  - apply (H2 (py "on 1/13/2021, at noon") (py "1") (py "13") (py "2021"));
      [reflexivity| |reflexivity].
    repeat constructor.
  - apply (H3 (py "last spring")); [reflexivity| |reflexivity].
    repeat constructor.
Defined.
(** ** The loop of attempts *)

Import LLMExtractor.

Lemma backoffs_succ (n : nat) :
  1 <= n -> backoffs (S n) = backoffs n ++ [2 ^ (n - 1)].
Proof.
  intros H. unfold backoffs.
  replace (S n - 1) with (S (n - 1)) by lia.
  rewrite seq_S, map_app. simpl. do 3 f_equal. lia.
Qed.

(** The invariant of the loop: before the turn numbered [attempt], the
    earlier turns have made one call each and slept after each, except
    after the last turn of all. *)
Lemma attempt_loop_spec (client : nat -> exc response) (text : str)
    (attempts todo attempt : nat) (w : world) :
  attempt + todo = S attempts -> 1 <= attempt ->
  calls w = attempt - 1 -> sleeps w = backoffs (Nat.min attempt attempts) ->
  (forall j, j < attempt - 1 -> ~ succeeds (client j) text) ->
  let res := attempt_loop client text attempts todo attempt w in
  calls res.2 <= attempts
  /\ sleeps res.2 = backoffs (calls res.2)
  /\ (forall d, res.1 = Some d ->
        1 <= calls res.2
        /\ try_body (client (calls res.2 - 1)) text = Ok (Some d)
        /\ forall j, j < calls res.2 - 1 -> ~ succeeds (client j) text)
  /\ (res.1 = None ->
        calls res.2 = attempts
        /\ forall j, j < attempts -> ~ succeeds (client j) text).
Proof.
  revert attempt w.
  induction todo as [|todo IH]; intros attempt w Hsum H1 Hc Hs Hfail.
  - cbn [attempt_loop fst snd]. assert (attempt = S attempts) as -> by lia.
    replace (S attempts - 1) with attempts in * by lia.
    rewrite Nat.min_r in Hs by lia. rewrite Hc.
    split; [lia|]. split; [done|]. split; [done|]. intros _. by split.
  - cbn [attempt_loop].
    assert (Hnext : forall w',
      calls w' = attempt ->
      sleeps w' = backoffs (Nat.min (S attempt) attempts) ->
      ~ succeeds (client (attempt - 1)) text ->
      let res := attempt_loop client text attempts todo (S attempt) w' in
      calls res.2 <= attempts
      /\ sleeps res.2 = backoffs (calls res.2)
      /\ (forall d, res.1 = Some d ->
            1 <= calls res.2
            /\ try_body (client (calls res.2 - 1)) text = Ok (Some d)
            /\ forall j, j < calls res.2 - 1 -> ~ succeeds (client j) text)
      /\ (res.1 = None ->
            calls res.2 = attempts
            /\ forall j, j < attempts -> ~ succeeds (client j) text)).
    { intros w' Hc' Hs' Hno. apply IH; [lia|lia|lia|done|].
      intros j Hj. replace (S attempt - 1) with attempt in Hj by lia.
      destruct (decide (j = attempt - 1)) as [->|]; [done|]. apply Hfail. lia. }
    assert (Hw : forall w0, calls w0 = attempt -> sleeps w0 = sleeps w ->
      sleeps (if attempt <? attempts then sleep (2 ^ (attempt - 1)) w0 else w0)
      = backoffs (Nat.min (S attempt) attempts)
      /\ calls (if attempt <? attempts then sleep (2 ^ (attempt - 1)) w0 else w0)
         = attempt).
    { intros w0 Hc0 Hs0. destruct (attempt <? attempts) eqn:El.
      - apply Nat.ltb_lt in El. cbn [sleeps sleep calls]. rewrite Hs0, Hs.
        rewrite !Nat.min_l by lia. by rewrite backoffs_succ.
      - apply Nat.ltb_ge in El. rewrite Hs0, Hs.
        rewrite !Nat.min_r by lia. done. }
    destruct (Hw (call_made w)) as [Hs' Hc'].
    { cbn [call_made calls]. lia. }
    { done. }
    destruct (try_body (client (calls w)) text) as [[d|]|e] eqn:Eb.
    + cbn [fst snd call_made calls sleeps]. rewrite Hc.
      replace (S (attempt - 1)) with attempt by lia.
      rewrite Hs, Nat.min_l by lia.
      split; [lia|]. split; [done|]. split; [|done].
      intros d' [= <-]. split; [lia|]. split; [by rewrite <- Hc|done].
    + apply Hnext; [done|done|].
      intros [d Hd]. rewrite <- Hc, Eb in Hd. done.
    + apply Hnext; [done|done|].
      intros [d Hd]. rewrite <- Hc, Eb in Hd. done.
Qed.

Lemma raised_fails (e : exn) (text : str) : ~ succeeds (Raise e) text.
Proof. by intros [d Hd]. Qed.

(** C2. [extract_entities] calls the model at most as many times as the
    configured number of attempts (5 by default; one without retry); an
    exception raised by a call makes the attempt fail and is not
    propagated; after every failed attempt but the last it waits
    2^(attempt-1); the first attempt that gives a result ends the run;
    and a run in which no attempt gives a result returns [None]. *)
Theorem C2_retry_policy (cfg : Settings) (client : nat -> exc response)
    (text : str) (retry : bool) :
  let attempts := if retry then MAX_RETRIES cfg else 1 in
  let res := extract_entities cfg client text retry in
  MAX_RETRIES settings = 5
  /\ calls res.2 <= attempts
  /\ sleeps res.2 = backoffs (calls res.2)
  /\ (forall e, ~ succeeds (Raise e) text)
  /\ (forall d, res.1 = Some d ->
        1 <= calls res.2
        /\ try_body (client (calls res.2 - 1)) text = Ok (Some d)
        /\ forall j, j < calls res.2 - 1 -> ~ succeeds (client j) text)
  /\ (res.1 = None <-> forall j, j < attempts -> ~ succeeds (client j) text)
  /\ (res.1 = None -> calls res.2 = attempts)
  /\ backoffs 5 = [1; 2; 4; 8].
Proof.
  intros attempts res.
  destruct (attempt_loop_spec client text attempts attempts 1
              {| calls := 0; sleeps := [] |}) as (H1 & H2 & H3 & H4);
    [lia|lia|done| |intros j Hj; lia|].
  { by destruct attempts. }
  fold attempts in res. change (attempt_loop _ _ _ _ _ _) with res in *.
  split; [done|]. split; [done|]. split; [done|].
  split; [intros e; apply raised_fails|]. split; [done|].
  split; [|split; [intros E; by destruct (H4 E) | reflexivity]].
  split; [intros E; by destruct (H4 E)|].
  intros Hall. destruct (res.1) as [d|] eqn:E; [|done].
  destruct (H3 d eq_refl) as (Hc & Hd & _).
  exfalso. apply (Hall (calls res.2 - 1)); [lia|]. by exists d.
Qed.

Lemma C2_retry_policy_witness :
  let client := fails_then_replies 4 scenario_A_reply in
  let res := extract_entities settings client (py "the document") true in
  exists d,
    res.1 = Some d
    /\ 1 <= calls res.2
    /\ try_body (client (calls res.2 - 1)) (py "the document") = Ok (Some d)
    /\ sleeps res.2 = backoffs (calls res.2).
Proof.
  intros client res.
  destruct (res.1) as [d|] eqn:E; [|absurd_shape E].
  destruct (C2_retry_policy settings client (py "the document") true)
    as (_ & _ & Hs & _ & Hd & _).
  destruct (Hd d E) as (Hc & Hd' & _).
  exists d. split; [reflexivity|]. split; [exact Hc|]. split; [exact Hd'|exact Hs].
Defined.

(** Scenario E: four failed calls, then the reply of scenario A. *)
Example scenario_E :
  let res := extract_entities settings (fails_then_replies 4 scenario_A_reply)
               (py "the document") true in
  option_map (fun d => map (get d) CSV_FIELDS) res.1 = Some scenario_A_values
  /\ res.2 = {| calls := 5; sleeps := [1; 2; 4; 8] |}.
Proof. split; vm_compute; reflexivity. Qed.

(** Scenario F: every call fails. *)
Example scenario_F :
  extract_entities settings always_fails (py "the document") true
  = (None, {| calls := 5; sleeps := [1; 2; 4; 8] |}).
Proof. vm_compute. reflexivity. Qed.

(** ** The order of the three ways of reading a reply *)

Lemma dict_of_keys_ext (keys : list str) (f g : str -> option str) (m : dict) :
  (forall k, In k keys -> f k = g k) ->
  dict_of_keys keys f m = dict_of_keys keys g m.
Proof.
  revert m. induction keys as [|k keys IH]; intros m H; [done|].
  cbn [dict_of_keys]. rewrite (H k) by (by left).
  apply IH. intros k' Hk'. apply H. by right.
Qed.

Lemma dict_of_keys_other (keys : list str) (f : str -> option str) (m : dict) k :
  ~ In k keys -> dict_of_keys keys f m !! k = m !! k.
Proof.
  revert m. induction keys as [|k0 keys IH]; intros m H; [done|].
  cbn [dict_of_keys]. rewrite IH by (intros ?; apply H; by right).
  apply lookup_insert_ne. intros ->. apply H. by left.
Qed.

Lemma dict_of_keys_lookup (keys : list str) (f : str -> option str) (m : dict) k :
  List.NoDup keys -> In k keys -> dict_of_keys keys f m !! k = Some (f k).
Proof.
  revert m. induction keys as [|k0 keys IH]; intros m Hnd Hin; [done|].
  inversion Hnd as [|? ? Hk0 Hnd']; subst. cbn [dict_of_keys].
  destruct Hin as [->|Hin].
  - rewrite dict_of_keys_other by done. apply lookup_insert_eq.
  - by apply IH.
Qed.

Lemma csv_fields_nodup : List.NoDup CSV_FIELDS.
Proof. apply entities_nodup. Qed.

(** What the strict reader returns holds the eight keys, and is true. *)
Lemma parse_csv_output_truthy (raw : str) (d : dict) :
  _parse_csv_output raw = Some d -> dict_truthy (Some d) = true.
Proof.
  unfold _parse_csv_output. destruct (is_nil raw); [done|]. cbv zeta.
  destruct (match List.filter _ _ with [] => None | _ => _ end)
    as [[header_line data_line]|]; [|done].
  destruct (csv.DictReader_next _) as [row rest| |]; [|done|done].
  destruct (csv.row_is_empty row); [done|]. intros [= <-].
  unfold dict_truthy. apply negb_true_iff, bool_decide_eq_false. intros E.
  apply (f_equal (fun m : dict => m !! py "tribunal")) in E. cbv beta in E.
  by rewrite lookup_insert_eq in E.
Qed.

Lemma first_header_pair_not_nil (ls : list str) (block : str) :
  first_header_pair ls = Some block -> is_nil block = false.
Proof.
  induction ls as [|l1 ls IH]; [done|]. cbn [first_header_pair].
  destruct ls as [|l2 ls]; [done|]. cbv zeta.
  destruct (has_header_names _ _); [|by apply IH].
  intros [= <-]. by destruct l1.
Qed.

(** A block found in a reply is not empty. *)
Lemma extract_csv_block_not_nil (raw block : str) :
  _extract_csv_block raw = Some block -> is_nil block = false.
Proof.
  unfold _extract_csv_block. cbv zeta. destruct (is_nil _); [done|].
  destruct (first_header_pair _) as [b|] eqn:E.
  - intros [= <-]. by apply first_header_pair_not_nil in E.
  - destruct (List.filter _ _) as [|l1 [|l2 ls]]; [done|done|].
    intros [= <-]. by destruct l1.
Qed.

(** What the heuristic returns holds the eight keys, and is true. *)
Lemma heuristic_truthy (text : str) (d : dict) :
  _heuristic_extract text = Ok (Some d) -> dict_truthy (Some d) = true.
Proof.
  unfold _heuristic_extract.
  repeat match goal with
         | |- context [match find_after ?t ?p with _ => _ end] =>
             destruct (find_after t p); [|discriminate]
         end.
  destruct (existsb truthy _); [|discriminate]. intros [= <-].
  unfold dict_truthy. apply negb_true_iff, bool_decide_eq_false. intros E.
  apply (f_equal (fun m : dict => m !! py "tribunal")) in E. cbv beta in E.
  by rewrite lookup_insert_eq in E.
Qed.

(** C7, as the code has it.  The strict reader is tried first and its
    result, when there is one, is the result; when it gives nothing, the
    block found in the reply and read again by the strict reader gives the
    result, when there is one; when both give nothing the result is what
    the heuristic gives on the text of the document. *)
Theorem C7_strategy_order (raw_text text : str) :
  (forall d, _parse_csv_output raw_text = Some d ->
             parse_reply raw_text text = Ok (Some d))
  /\ (forall d, _parse_csv_output raw_text = None ->
                embedded_parse raw_text = Some d ->
                parse_reply raw_text text = Ok (Some d))
  /\ (_parse_csv_output raw_text = None ->
      embedded_parse raw_text = None ->
      parse_reply raw_text text = _heuristic_extract text).
Proof.
  unfold parse_reply, embedded_parse. cbv zeta. repeat split.
  - intros d H. by rewrite H, (parse_csv_output_truthy raw_text d H).
  - intros d -> H. cbn [dict_truthy].
    destruct (_extract_csv_block raw_text) as [b|] eqn:Eb; [|done].
    rewrite (extract_csv_block_not_nil _ _ Eb). cbn [negb].
    by rewrite H, (parse_csv_output_truthy b d H).
  - intros -> H. cbn [dict_truthy].
    destruct (_extract_csv_block raw_text) as [b|] eqn:Eb.
    + rewrite (extract_csv_block_not_nil _ _ Eb). cbn [negb]. rewrite H.
      cbn [dict_truthy].
      destruct (_heuristic_extract text) as [[h|]|] eqn:Eh; [|done|done].
      by rewrite (heuristic_truthy text h Eh).
    + cbn [dict_truthy].
      destruct (_heuristic_extract text) as [[h|]|] eqn:Eh; [|done|done].
      by rewrite (heuristic_truthy text h Eh).
Qed.

Lemma C7_strategy_order_witness :
  let raw := [csv.QUOTECHAR] ++ py "Here it is:" ++ [LF] ++ py "a,b,c,d"
             ++ [LF] ++ py "1,2,3,4" in
  _parse_csv_output raw = None
  /\ exists d, embedded_parse raw = Some d
               /\ parse_reply raw (py "the document") = Ok (Some d).
Proof.
  intros raw.
  destruct (C7_strategy_order raw (py "the document")) as (_ & H & _).
  destruct (_parse_csv_output raw) as [d0|] eqn:E1; [absurd_shape E1|].
  destruct (embedded_parse raw) as [d|] eqn:E2; [|absurd_shape E2].
  split; [reflexivity|]. exists d. split; [reflexivity|]. exact (H d eq_refl eq_refl).
Defined.

(** C7 as stated fails for a reply without any comma: the strict reader
    takes the line for a line of values, and the heuristic is not
    consulted. *)
Lemma C7_counterexample :
  let raw := py "I could not find the fields" in
  let text := py "Disposed: dismissed on 12/03/2020" in
  count_char (chr 44) raw = 0
  /\ _extract_csv_block raw = None
  /\ fields_of (parse_reply raw text)
     = Some [Some raw; None; None; None; None; None; None; None]
  /\ fields_of (_heuristic_extract text)
     = Some [None; None; None; None; Some (py "dismissed on 12/03/2020");
             None; Some (py "12/03/2020"); None]
  /\ parse_reply raw text <> _heuristic_extract text.
Proof.
  intros raw text. split; [reflexivity|]. split; [reflexivity|].
  split; [by vm_compute|]. split; [by vm_compute|].
  intros H. apply (f_equal fields_of) in H. by vm_compute in H.
Qed.

(** ** Truncation for the model *)

Import TextCleaner.

Lemma slice_to_length (n : Z) (s : str) :
  (0 <= n <= Z.of_nat (length s))%Z ->
  Z.of_nat (length (slice_to n s)) = n.
Proof.
  intros H. unfold slice_to.
  destruct (0 <=? n)%Z eqn:E; [|apply Z.leb_gt in E; lia].
  rewrite length_firstn. lia.
Qed.

(** C9, on the code.  A text within the budget of four characters per
    token is handed back as it is.  A longer text whose priority part fits
    the budget gives a result two characters longer than the budget: the
    separator before the rest of the text is not counted.  The header is
    always empty. *)
Theorem C9_truncate_budget (text : str) (max_tokens : Z) :
  ((Z.of_nat (length text) <= max_tokens * 4)%Z ->
   truncate_for_llm text max_tokens = text)
  /\ ((max_tokens * 4 < Z.of_nat (length text))%Z ->
      (Z.of_nat (length (priority_text (extract_sections text)))
       <= max_tokens * 4)%Z ->
      Z.of_nat (length (truncate_for_llm text max_tokens))
      = (max_tokens * 4 + 2)%Z)
  /\ header (extract_sections text) = []
  /\ truncate_for_llm (py "abcde") 1 = [LF; LF; LF; LF; LF; LF].
Proof.
  split; [|split; [|split; reflexivity]].
  - intros H. unfold truncate_for_llm.
    apply Z.leb_le in H. by rewrite H.
  - intros Hlong Hfit. unfold truncate_for_llm.
    apply Z.leb_gt in Hlong. rewrite Hlong. apply Z.leb_gt in Hlong.
    set (p := priority_text (extract_sections text)) in *.
    apply Z.ltb_ge in Hfit. rewrite Hfit. apply Z.ltb_ge in Hfit.
    rewrite !length_app, !Nat2Z.inj_add.
    cbn [full_text extract_sections].
    rewrite slice_to_length by lia. cbn [length]. lia.
Qed.

Lemma C9_truncate_budget_witness :
  Z.of_nat (length (truncate_for_llm (py "abcde") 1)) = (1 * 4 + 2)%Z.
Proof.
  destruct (C9_truncate_budget (py "abcde") 1) as (_ & H & _).
  apply H; vm_compute; done.
Defined.

(** ** The heuristic and the summary *)

Lemma filter_misses {A} (p : A -> bool) (l : list A) (x : A) :
  In x l -> p x = false -> length (List.filter p l) < length l.
Proof.
  induction l as [|a l IH]; [done|]. intros [->|Hin] Hx; simpl.
  - rewrite Hx. pose proof (filter_length_le p l). lia.
  - specialize (IH Hin Hx). destruct (p a); simpl; lia.
Qed.

(** A dictionary whose summary is absent is at most seven eighths
    complete. *)
Lemma completeness_without_summary (d : dict) :
  get d (py "resumo_5_linhas") = None ->
  (calculate_completeness settings d <= 7 # 8)%Q.
Proof.
  intros H. unfold calculate_completeness. rewrite list_sum_indicator.
  pose proof (filter_misses (filled d) (ENTITIES settings) (py "resumo_5_linhas"))
    as Hlt.
  change (length (ENTITIES settings)) with 8 in *.
  assert (length (List.filter (filled d) (ENTITIES settings)) < 8) as Hn.
  { apply Hlt.
    - unfold settings, ENTITIES. do 5 right. by left.
    - unfold filled. by rewrite H. }
  clear Hlt. set (n := length _) in *. clearbody n.
  change (0 <? 8) with true. cbv iota.
  unfold Qle, Qdiv, Qmult, Qinv, inject_Z. simpl. lia.
Qed.

(** A dictionary that holds the summary as absent fails validation. *)
Lemma validate_without_summary (cfg : Settings) (d : dict) :
  d !! py "resumo_5_linhas" = Some None -> (validate cfg d).1.1 = false.
Proof.
  intros H. destruct (validate_spec cfg d) as (d' & -> & _). cbn [fst].
  apply is_nil_false. intros Hnil.
  assert (In (py "resumo_5_linhas" ++ py ": " ++ py "Resumo é obrigatório")
             (flat_map (step_errors d) (validators cfg))) as Hin.
  { apply in_flat_map.
    exists (py "resumo_5_linhas", _validate_summary cfg). split.
    - unfold validators. do 5 right. by left.
    - unfold step_errors. cbn [fst snd]. rewrite H. by left. }
  by rewrite Hnil in Hin.
Qed.

Lemma heuristic_summary_absent (text : str) (d : dict) :
  _heuristic_extract text = Ok (Some d) -> d !! py "resumo_5_linhas" = Some None.
Proof.
  unfold _heuristic_extract.
  repeat match goal with
         | |- context [match find_after ?t ?p with _ => _ end] =>
             destruct (find_after t p); [|discriminate]
         end.
  destruct (existsb truthy _); [|discriminate]. intros [= <-].
  rewrite lookup_insert_ne by str_neq.
  rewrite lookup_insert_ne by str_neq.
  by rewrite lookup_insert_eq.
Qed.

(** C10, on the code.  On a text in which a label is found by an
    alternative that does not hold the group of the value, the heuristic
    raises instead of returning.  Whenever it returns a dictionary, the
    summary is absent from it, so that the dictionary is at most seven
    eighths complete and fails validation. *)
Theorem C10_heuristic_summary :
  _heuristic_extract (py "the defendant: Bob") = Raise AttributeError
  /\ forall text d,
       _heuristic_extract text = Ok (Some d) ->
       d !! py "resumo_5_linhas" = Some None
       /\ (calculate_completeness settings d <= 7 # 8)%Q
       /\ (validate settings d).1.1 = false.
Proof.
  split; [by vm_compute|].
  intros text d H%heuristic_summary_absent. split; [done|]. split.
  - apply completeness_without_summary. unfold get. by rewrite H.
  - by apply validate_without_summary.
Qed.

Lemma C10_heuristic_summary_witness :
  exists d,
    _heuristic_extract (py "Disposed: dismissed on 12/03/2020") = Ok (Some d)
    /\ d !! py "resumo_5_linhas" = Some None
    /\ (calculate_completeness settings d <= 7 # 8)%Q
    /\ (validate settings d).1.1 = false.
Proof.
  destruct C10_heuristic_summary as [_ H].
  specialize (H (py "Disposed: dismissed on 12/03/2020")).
  destruct (_heuristic_extract (py "Disposed: dismissed on 12/03/2020"))
    as [[d|]|e] eqn:E; [|absurd_shape E|absurd_shape E].
  exists d. split; [reflexivity|]. exact (H d eq_refl).
Defined.

Example heuristic_reads_a_label :
  fields_of (_heuristic_extract (py "Disposed: dismissed on 12/03/2020"))
  = Some [None; None; None; None; Some (py "dismissed on 12/03/2020");
          None; Some (py "12/03/2020"); None].
Proof. by vm_compute. Qed.
(** ** A second pass of the validators *)

(** *** What the validator of the date leaves as it is *)












(** A string of the form DD/MM/YYYY, taken apart. *)
Lemma is_dd_mm_yyyy_inv (z : str) :
  is_dd_mm_yyyy z = true ->
  exists a b c d e f g h,
    z = [a; b; "/"%char; c; d; "/"%char; e; f; g; h]
    /\ is_digit a = true /\ is_digit b = true /\ is_digit c = true
    /\ is_digit d = true /\ is_digit e = true /\ is_digit f = true
    /\ is_digit g = true /\ is_digit h = true.
Proof.
  do 10 (destruct z as [|? z]; [done|]). destruct z; [|done].
  cbn [is_dd_mm_yyyy]. intros H.
  do 9 (apply andb_true_iff in H as [H ?]).
  repeat match goal with
         | H : char_is "/" ?c = true |- _ =>
             cbn [char_is] in H; apply Ascii.eqb_eq in H; subst c
         end.
  do 8 eexists. split; [reflexivity|]. repeat split; assumption.
Qed.

Lemma placeholder_short (v : str) : placeholder (Some v) = true -> length v <= 4.
Proof.
  intros [->|[H|[H|H]]]%placeholder_cases; [simpl; lia| | |];
    apply (f_equal length) in H; unfold lower in H; rewrite length_map in H;
    rewrite H; vm_compute; lia.
Qed.






Section Canonical.

(** A day and a month of two digits each, followed by the text [Y]. *)
Variables a b c d : ascii.
Variable Y : str.
Hypothesis (Ha : is_digit a = true) (Hb : is_digit b = true)
           (Hc : is_digit c = true) (Hd : is_digit d = true).




End Canonical.

Section Canonical_year.

(** The same, followed by a year of four digits. *)
Variables a b c d e f g h : ascii.
Hypothesis (Ha : is_digit a = true) (Hb : is_digit b = true)
           (Hc : is_digit c = true) (Hd : is_digit d = true)
           (He : is_digit e = true) (Hf : is_digit f = true)
           (Hg : is_digit g = true) (Hh : is_digit h = true).





(** A date of a year before 1000 is written again with a shorter year. *)
Lemma canonical_early (dt : date) :
  strptime DMY_slash [a; b; "/"%char; c; d; "/"%char; e; f; g; h] = Some dt ->
  (year dt < 1000)%N ->
  _validate_date (Some [a; b; "/"%char; c; d; "/"%char; e; f; g; h])
  = (true, Some (strftime_dmY dt), [])
  /\ length (strftime_dmY dt) < 10.
Proof.
  intros Hs Hy. split.
  - unfold _validate_date.
    destruct (placeholder _) eqn:Ep.
    { apply placeholder_short in Ep. simpl in Ep. lia. }
    unfold date_formats. cbn [first_some]. by rewrite Hs.
  - unfold strftime_dmY, two_digits. change (py "/") with ["/"%char].
    rewrite !length_app. pose proof (year_digits_early (year dt) Hy).
    cbn [length]. lia.
Qed.

End Canonical_year.



(** *** What the permissive pattern finds *)

Lemma first_some_In {A B} (f : A -> option B) (l : list A) (y : B) :
  first_some f l = Some y -> exists x, In x l /\ f x = Some y.
Proof.
  intros (before & x & after & -> & Hx & _)%first_some_Some.
  exists x. split; [|done]. apply in_or_app. right. by left.
Qed.

Lemma digits_1_2_zfill (s : str) (g r : str) :
  In (g, r) (digits_1_2 s) -> two_digit_string (zfill2 g).
Proof.
  unfold digits_1_2. destruct s as [|x s]; [done|].
  destruct (is_digit x) eqn:Ex; [|done].
  assert (two_digit_string (zfill2 [x])) as H1.
  { exists (digit 0), x. by repeat split. }
  destruct s as [|y s].
  - intros [[= <- <-]|[]]. done.
  - destruct (is_digit y) eqn:Ey.
    + intros [[= <- <-]|[[= <- <-]|[]]]; [|done]. by exists x, y.
    + intros [[= <- <-]|[]]. done.
Qed.

Lemma digits_4_shape (s g : str) :
  digits_4 s = Some g ->
  exists e f g' h,
    g = [e; f; g'; h] /\ is_digit e = true /\ is_digit f = true
    /\ is_digit g' = true /\ is_digit h = true.
Proof.
  unfold digits_4. do 4 (destruct s as [|? s]; [done|]).
  destruct (_ && _) eqn:E; [|done]. intros [= <-].
  do 3 (apply andb_true_iff in E as [E ?]). by repeat eexists.
Qed.

Lemma date_match_at_shape (s g1 g2 g3 : str) :
  date_match_at s = Some (g1, g2, g3) ->
  is_dd_mm_yyyy (zfill2 g1 ++ py "/" ++ zfill2 g2 ++ py "/" ++ g3) = true.
Proof.
  unfold date_match_at.
  intros ([g1' r1] & Hin1 & H1)%first_some_In.
  destruct (after_sep r1) as [r2|]; [|done].
  apply first_some_In in H1 as ([g2' r3] & Hin2 & H2).
  destruct (after_sep r3) as [r4|]; [|done].
  destruct (digits_4 r4) as [g3'|] eqn:E4; [|done].
  injection H2 as <- <- <-.
  apply digits_1_2_zfill in Hin1 as (p1 & q1 & -> & Hp1 & Hq1).
  apply digits_1_2_zfill in Hin2 as (p2 & q2 & -> & Hp2 & Hq2).
  apply digits_4_shape in E4 as (e & f & g & h & -> & He & Hf & Hg & Hh).
  change (py "/") with ["/"%char]. cbn [app is_dd_mm_yyyy].
  rewrite Hp1, Hq1, Hp2, Hq2, He, Hf, Hg, Hh. reflexivity.
Qed.

Lemma date_search_shape (v g1 g2 g3 : str) :
  date_search v = Some (g1, g2, g3) ->
  is_dd_mm_yyyy (zfill2 g1 ++ py "/" ++ zfill2 g2 ++ py "/" ++ g3) = true.
Proof.
  induction v as [|x v IH]; cbn [date_search].
  - destruct (date_match_at []) as [[[? ?] ?]|] eqn:E; [|done].
    intros [= <- <- <-]. by apply date_match_at_shape in E.
  - destruct (date_match_at (x :: v)) as [[[? ?] ?]|] eqn:E; [|done].
    intros [= <- <- <-]. by apply date_match_at_shape in E.
Qed.

(** *** Every validator, applied to what it has returned *)


(** Such a triplet is changed by the second pass: the first gives ten
    characters and the second fewer. *)
Lemma date_early_year_changes (s : str) :
  early_year_triplet s = true ->
  exists z z',
    _validate_date (Some s) = (true, Some z, [])
    /\ _validate_date (Some z) = (true, Some z', [])
    /\ length z = 10 /\ length z' < 10.
Proof.
  unfold early_year_triplet. intros [Ep H]%andb_true_iff.
  apply negb_true_iff in Ep.
  destruct (first_some _ date_formats) as [dt|] eqn:E1; [done|].
  destruct (date_search s) as [[[g1 g2] g3]|] eqn:E2; [|done].
  destruct (strptime DMY_slash _) as [dt|] eqn:E3; [|done].
  apply N.ltb_lt in H.
  exists (zfill2 g1 ++ py "/" ++ zfill2 g2 ++ py "/" ++ g3), (strftime_dmY dt).
  pose proof (date_search_shape s g1 g2 g3 E2) as Hshape.
  split; [unfold _validate_date; by rewrite Ep, E1, E2|].
  split; [|split; [by apply is_dd_mm_yyyy_length|]].
  - revert E3.
    apply is_dd_mm_yyyy_inv in Hshape
      as (a & b & c & d & e & f & g & h & -> & Hd).
    destruct Hd as (?&?&?&?&?&?&?&?). intros E3.
    by destruct (canonical_early a b c d e f g h dt E3 H).
  - revert E3.
    apply is_dd_mm_yyyy_inv in Hshape
      as (a & b & c & d & e & f & g & h & -> & Hd).
    destruct Hd as (?&?&?&?&?&?&?&?). intros E3.
    by destruct (canonical_early a b c d e f g h dt E3 H).
Qed.






(** A letter and what [lower] makes it from. *)
Lemma lower_char_inv (c x : ascii) :
  lower_char c = x -> c = x \/ c = chr (code x - 32).
Proof.
  unfold lower_char. destruct (_ || _) eqn:E; [|by left]. intros <-. right.
  assert (code c <= 222)%N as Hc.
  { unfold between in E.
    apply orb_true_iff in E as [E|E]; [|apply andb_true_iff in E as [E _]];
      apply andb_true_iff in E as [_ E]; apply N.leb_le in E; lia. }
  rewrite code_chr by lia.
  replace (code c + 32 - 32)%N with (code c) by lia.
  symmetry. apply ascii_N_embedding.
Qed.

(** A value that collapses to a placeholder is kept, collapsed, by the
    first pass and made absent by the second. *)
Lemma collapsed_placeholder_changes (f : option str -> result) (s : str) :
  In f [_validate_party_name; _validate_subject; _validate_court] ->
  collapses_to_placeholder s = true ->
  f (Some s) = (true, Some (collapse s), [])
  /\ f (Some (collapse s)) = (true, None, []).
Proof.
  intros Hf H. unfold collapses_to_placeholder in H.
  apply andb_true_iff in H as [H Hc]. apply andb_true_iff in H as [Hp Hn].
  apply negb_true_iff in Hp, Hn.
  assert (f (Some (collapse s)) = (true, None, [])) as H2.
  { destruct Hf as [<-|[<-|[<-|[]]]];
      unfold _validate_party_name, _validate_subject, _validate_court;
      by rewrite Hc. }
  split; [|exact H2].
  assert (exists t, collapse s = t
                    /\ (3 <=? length t) = true
                    /\ isdigit (replace (py " ") [] t) = false)
    as (t & Et & Hlen & Hdig).
  { exists (collapse s). split; [done|].
    apply placeholder_cases in Hc as [Hc|Hc]; [by rewrite Hc in Hn|].
    destruct (collapse s) as [|c1 [|c2 [|c3 [|c4 [|c5 t]]]]];
      try (destruct Hc as [Hc|[Hc|Hc]]; discriminate Hc).
    - destruct Hc as [Hc|[Hc|Hc]]; try discriminate Hc.
      injection Hc as H1 H3 H4.
      apply lower_char_inv in H1 as [->| ->], H3 as [->| ->], H4 as [->| ->];
        by vm_compute.
    - destruct Hc as [Hc|[Hc|Hc]]; try discriminate Hc;
        injection Hc as H1 H3 H4 H5;
        apply lower_char_inv in H1 as [->| ->], H3 as [->| ->],
                                H4 as [->| ->], H5 as [->| ->];
        by vm_compute. }
  apply Nat.leb_le in Hlen.
  destruct Hf as [<-|[<-|[<-|[]]]];
    unfold _validate_party_name, _validate_subject, _validate_court;
    rewrite Hp; cbv zeta; rewrite Et.
  - destruct (Nat.ltb_spec (length t) 2); [lia|]. by rewrite Hdig.
  - destruct (Nat.ltb_spec (length t) 3); [lia|]. done.
  - destruct (Nat.ltb_spec (length t) 3); [lia|]. done.
Qed.






(** *** The second pass of [validate] *)

Lemma find_validator_In tbl k f :
  find_validator tbl k = Some f -> In (k, f) tbl.
Proof.
  induction tbl as [|[k' f'] tbl IH]; [done|]. cbn [find_validator].
  destruct (str_eqb k k') eqn:E.
  - apply str_eqb_eq in E as ->. intros [= ->]. by left.
  - intros H. right. by apply IH.
Qed.

Lemma find_validator_of_In tbl k f :
  List.NoDup (map fst tbl) -> In (k, f) tbl -> find_validator tbl k = Some f.
Proof.
  induction tbl as [|[k' f'] tbl IH]; [done|]. cbn [map fst find_validator].
  intros Hnd [[= -> ->]|Hin]; inversion Hnd as [|? ? Hk' Hnd']; subst.
  - by rewrite str_eqb_refl.
  - destruct (str_eqb k k') eqn:E; [|by apply IH].
    apply str_eqb_eq in E as ->. exfalso. apply Hk'.
    apply in_map_iff. by exists (k', f).
Qed.

Lemma flat_map_nil {A B} (g : A -> list B) (l : list A) :
  flat_map g l = [] <-> forall x, In x l -> g x = [].
Proof.
  induction l as [|a l IH]; cbn [flat_map]; [by split|].
  split.
  - intros [Ha Hl]%app_eq_nil x [<-|Hx]; [done|]. by apply IH.
  - intros H. rewrite (H a) by (by left). apply IH. intros x Hx. apply H. by right.
Qed.


(** A validator that rejects a value makes it absent. *)
Lemma rejected_is_emptied (cfg : Settings) field validator (v : option str) :
  In (field, validator) (validators cfg) ->
  ok (validator v) = false -> normalized (validator v) = None.
Proof.
  intros Hin%validators_cases.
  destruct Hin as [[-> ->]|[[-> ->]|[[-> ->]|[[-> ->]|[[-> ->]|[[-> ->]|[[-> ->]|[-> ->]]]]]]]];
    unfold ok, normalized;
    [ unfold _validate_party_name | unfold _validate_party_name
    | unfold _validate_subject | unfold _validate_decision_type
    | unfold _validate_result | unfold _validate_summary
    | unfold _validate_date | unfold _validate_court ];
    destruct v as [v|]; try done;
    repeat (case_match; try done).
Qed.








(** What the first pass makes of the untidy entities. *)
Example untidy_entities_validated :
  map (get (validate settings untidy_entities).1.2) CSV_FIELDS
  = [Some (py "John Doe"); None; None; None; Some (py "Granted");
     Some (join [LF] [py "one"; py "two"; py "three"; py "four"; py "five"]);
     Some (py "05/03/2021"); Some (py "District Court")].
Proof. vm_compute. reflexivity. Qed.

(** A dictionary that holds an empty summary and nothing else: the first
    pass reports that the summary is required, and so does the second. *)
Example absent_summary_twice :
  let e : dict := <[py "resumo_5_linhas" := Some []]> ∅ in
  let r1 := validate settings e in
  let r2 := validate settings r1.1.2 in
  r1.1.1 = false /\ r1.2 = [summary_required]
  /\ r1.1.2 !! py "resumo_5_linhas" = Some None
  /\ r2.1.1 = false /\ r2.2 = [summary_required]
  /\ r2.1.2 !! py "resumo_5_linhas" = Some None.
Proof. repeat split; by vm_compute. Qed.

(** ** The reader reads what the writer has written *)

Import csv.

Lemma special_false (c : ascii) :
  special c = false ->
  Ascii.eqb c DELIMITER = false /\ Ascii.eqb c QUOTECHAR = false
  /\ is_newline c = false.
Proof.
  unfold special, is_newline. intros H.
  repeat (apply orb_false_iff in H as [H ?]).
  repeat split; try done. apply orb_false_iff. by split.
Qed.

Lemma add_char_ok (s : parser_state) (acc : str) (fs : list str) (c : ascii) :
  (N.of_nat (length acc) < field_size_limit)%N ->
  parse_add_char (reader_at s acc fs) c = Some (reader_at s (acc ++ [c]) fs).
Proof.
  intros H. unfold parse_add_char, reader_at. cbn [field state fields].
  apply N.leb_gt in H. by rewrite H.
Qed.

Lemma within_limit_app_lt (acc : str) (c : ascii) (w : str) :
  within_limit (acc ++ c :: w) -> (N.of_nat (length acc) < field_size_limit)%N.
Proof. unfold within_limit. rewrite length_app. cbn [length]. lia. Qed.

(** The characters of a field without quotes are added one by one. *)
Lemma in_field_run (w acc : str) (fs : list str) (rest : str) :
  needs_quotes w = false -> within_limit (acc ++ w) ->
  process_line (reader_at IN_FIELD acc fs) (w ++ rest)
  = process_line (reader_at IN_FIELD (acc ++ w) fs) rest.
Proof.
  revert acc. induction w as [|c w IH]; intros acc Hq Hlim.
  - by rewrite app_nil_r.
  - unfold needs_quotes in Hq. cbn [existsb] in Hq.
    apply orb_false_iff in Hq as [Hc Hw].
    apply special_false in Hc as (Hd & Hqc & Hn).
    cbn [app process_line]. unfold parse_process_char at 1.
    cbn [state reader_at]. rewrite Hn, Hd.
    rewrite (add_char_ok IN_FIELD) by (by eapply within_limit_app_lt).
    rewrite IH; [|done|by rewrite <- app_assoc].
    by rewrite <- app_assoc.
Qed.

(** The characters of a field between quotes, its quotes doubled. *)
Lemma in_quoted_run (w acc : str) (fs : list str) (rest : str) :
  within_limit (acc ++ w) ->
  process_line (reader_at IN_QUOTED_FIELD acc fs) (double_quotes w ++ rest)
  = process_line (reader_at IN_QUOTED_FIELD (acc ++ w) fs) rest.
Proof.
  revert acc. induction w as [|c w IH]; intros acc Hlim.
  - by rewrite app_nil_r.
  - pose proof (within_limit_app_lt _ _ _ Hlim) as Hlt.
    cbn [double_quotes]. destruct (Ascii.eqb c QUOTECHAR) eqn:Ec.
    + apply Ascii.eqb_eq in Ec as ->.
      cbn [app process_line]. unfold parse_process_char at 1.
      cbn [state reader_at]. rewrite Ascii.eqb_refl.
      unfold set_state. cbn [field fields].
      unfold parse_process_char at 1. cbn [state]. rewrite Ascii.eqb_refl.
      fold (reader_at QUOTE_IN_QUOTED_FIELD acc fs).
      rewrite add_char_ok by done. unfold set_state, reader_at. cbn [field fields].
      fold (reader_at IN_QUOTED_FIELD (acc ++ [QUOTECHAR]) fs).
      rewrite IH by (by rewrite <- app_assoc). by rewrite <- app_assoc.
    + cbn [app process_line]. unfold parse_process_char at 1.
      cbn [state reader_at]. rewrite Ec.
      fold (reader_at IN_QUOTED_FIELD acc fs). rewrite add_char_ok by done.
      rewrite IH by (by rewrite <- app_assoc). by rewrite <- app_assoc.
Qed.

(** A written field and the delimiter after it: the field is saved. *)
Lemma read_field_then_delimiter (w : str) (fs : list str) (rest : str) :
  within_limit w ->
  process_line (reader_at START_FIELD [] fs) (write_field w ++ DELIMITER :: rest)
  = process_line (reader_at START_FIELD [] (fs ++ [w])) rest.
Proof.
  intros Hlim. unfold write_field. destruct (needs_quotes w) eqn:Hq.
  - cbn [app process_line]. unfold parse_process_char at 1. cbn [state reader_at].
    change (is_newline QUOTECHAR) with false. cbv iota.
    rewrite Ascii.eqb_refl. unfold set_state. cbn [field fields].
    fold (reader_at IN_QUOTED_FIELD [] fs). rewrite <- app_assoc.
    rewrite in_quoted_run by done. cbn [app process_line].
    unfold parse_process_char at 1. cbn [state reader_at]. rewrite Ascii.eqb_refl.
    unfold set_state. cbn [field fields].
    unfold parse_process_char at 1. cbn [state].
    change (Ascii.eqb DELIMITER QUOTECHAR) with false. cbv iota.
    rewrite Ascii.eqb_refl. reflexivity.
  - destruct w as [|c w].
    + cbn [app process_line]. unfold parse_process_char at 1. cbn [state reader_at].
      change (is_newline DELIMITER) with false.
      change (Ascii.eqb DELIMITER QUOTECHAR) with false. cbv iota.
      rewrite Ascii.eqb_refl. reflexivity.
    + pose proof Hq as Hq'. unfold needs_quotes in Hq'. cbn [existsb] in Hq'.
      apply orb_false_iff in Hq' as [Hc Hw].
      apply special_false in Hc as (Hd & Hqc & Hn).
      cbn [app process_line]. unfold parse_process_char at 1. cbn [state reader_at].
      rewrite Hn, Hqc, Hd. fold (reader_at START_FIELD [] fs).
      rewrite add_char_ok by (by apply (within_limit_app_lt [] c w)).
      unfold set_state, reader_at. cbn [field fields app].
      fold (reader_at IN_FIELD [c] fs).
      rewrite in_field_run by done. cbn [app process_line].
      unfold parse_process_char at 1. cbn [state reader_at].
      change (is_newline DELIMITER) with false. cbv iota.
      rewrite Ascii.eqb_refl. reflexivity.
Qed.

(** The last written field and the end of the line: the record is done. *)
Lemma read_last_field (w : str) (fs : list str) :
  within_limit w ->
  process_line (reader_at START_FIELD [] fs) (write_field w ++ [LF])
  = Some (reader_at START_RECORD [] (fs ++ [w])).
Proof.
  intros Hlim. unfold write_field. destruct (needs_quotes w) eqn:Hq.
  - cbn [app process_line]. unfold parse_process_char at 1. cbn [state reader_at].
    change (is_newline QUOTECHAR) with false. cbv iota.
    rewrite Ascii.eqb_refl. unfold set_state. cbn [field fields].
    fold (reader_at IN_QUOTED_FIELD [] fs). rewrite <- app_assoc.
    rewrite in_quoted_run by done. reflexivity.
  - destruct w as [|c w].
    + reflexivity.
    + pose proof Hq as Hq'. unfold needs_quotes in Hq'. cbn [existsb] in Hq'.
      apply orb_false_iff in Hq' as [Hc Hw].
      apply special_false in Hc as (Hd & Hqc & Hn).
      cbn [app process_line]. unfold parse_process_char at 1. cbn [state reader_at].
      rewrite Hn, Hqc, Hd. fold (reader_at START_FIELD [] fs).
      rewrite add_char_ok by (by apply (within_limit_app_lt [] c w)).
      unfold set_state, reader_at. cbn [field fields app].
      fold (reader_at IN_FIELD [c] fs).
      rewrite in_field_run by done. reflexivity.
Qed.

Lemma join_cons2 (sep l : str) (l2 : str) (ls : list str) :
  join sep (l :: l2 :: ls) = l ++ sep ++ join sep (l2 :: ls).
Proof. reflexivity. Qed.

(** A written row of at least one field, and the end of the line. *)
Lemma read_fields (ws : list str) (fs : list str) :
  ws <> [] -> Forall within_limit ws ->
  process_line (reader_at START_FIELD [] fs)
               (join [DELIMITER] (map write_field ws) ++ [LF])
  = Some (reader_at START_RECORD [] (fs ++ ws)).
Proof.
  revert fs. induction ws as [|w ws IH]; [done|]. intros fs _ Hall.
  inversion Hall as [|? ? Hw Hws]; subst.
  destruct ws as [|w2 ws].
  - cbn [map join]. by apply read_last_field.
  - cbn [map]. rewrite join_cons2, <- !app_assoc. cbn [app].
    rewrite read_field_then_delimiter by done.
    change (write_field w2 :: map write_field ws) with (map write_field (w2 :: ws)).
    rewrite IH by done. by rewrite <- app_assoc.
Qed.

(** At the start of a record a character that is no line break begins
    the first field. *)
Lemma start_record_as_field (c : ascii) (s : str) :
  is_newline c = false ->
  process_line parse_reset (c :: s)
  = process_line (reader_at START_FIELD [] []) (c :: s).
Proof.
  intros H. cbn [process_line]. unfold parse_process_char, parse_reset, reader_at.
  cbn [state]. by rewrite H.
Qed.

Lemma write_field_head (w : str) (rest : str) :
  exists c s, write_field w ++ DELIMITER :: rest = c :: s /\ is_newline c = false.
Proof.
  unfold write_field. destruct (needs_quotes w) eqn:Hq.
  - by eexists _, _.
  - destruct w as [|c w]; [by eexists _, _|].
    unfold needs_quotes in Hq. cbn [existsb] in Hq.
    apply orb_false_iff in Hq as [(_ & _ & Hn)%special_false _].
    by exists c, (w ++ DELIMITER :: rest).
Qed.

(** A written row of at least two fields is read back. *)
Lemma read_row (w : str) (ws : list str) :
  ws <> [] -> Forall within_limit (w :: ws) ->
  process_line parse_reset (join [DELIMITER] (map write_field (w :: ws)) ++ [LF])
  = Some (reader_at START_RECORD [] (w :: ws)).
Proof.
  intros Hne Hall. destruct ws as [|w2 ws]; [done|].
  pose proof (read_fields (w :: w2 :: ws) [] ltac:(done) Hall) as H.
  cbn [map] in *. rewrite join_cons2, <- !app_assoc in *. cbn [app] in *.
  destruct (write_field_head w
              (join [DELIMITER] (write_field w2 :: map write_field ws) ++ [LF]))
    as (c & s & E & Hc).
  rewrite E in *. by rewrite start_record_as_field.
Qed.

(** *** The lines of the stream *)

Lemma readlines_app (l rest : str) :
  lacks LF l -> readlines (l ++ LF :: rest) = (l ++ [LF]) :: readlines rest.
Proof.
  induction l as [|c l IH]; intros H.
  - cbn [app readlines]. by rewrite Ascii.eqb_refl.
  - apply lacks_cons in H as [Hc Hl]. cbn [app readlines].
    by rewrite Hc, IH.
Qed.

Lemma readlines_two (header data : str) :
  lacks LF header -> lacks LF data ->
  readlines (header ++ [LF] ++ data ++ [LF]) = [header ++ [LF]; data ++ [LF]].
Proof.
  intros Hh Hd. cbn [app]. rewrite readlines_app by done.
  by rewrite readlines_app by done.
Qed.

(** *** The written line *)

Lemma double_quotes_lacks_LF (w : str) : lacks LF w -> lacks LF (double_quotes w).
Proof.
  induction w as [|c w IH]; [done|]. intros [Hc Hw]%lacks_cons.
  cbn [double_quotes]. destruct (Ascii.eqb c QUOTECHAR) eqn:E.
  - apply lacks_cons. split; [done|]. apply lacks_cons. split; [done|]. by apply IH.
  - apply lacks_cons. split; [done|]. by apply IH.
Qed.

Lemma write_field_lacks_LF (w : str) : lacks LF w -> lacks LF (write_field w).
Proof.
  intros H. unfold write_field. destruct (needs_quotes w); [|done].
  apply lacks_app. split; [done|]. apply lacks_app. split; [|done].
  by apply double_quotes_lacks_LF.
Qed.

Lemma head_nonspace_write_field (w : str) (rest : str) :
  field_ok w -> head_nonspace (write_field w ++ DELIMITER :: rest).
Proof.
  intros (_ & _ & Hw). unfold write_field.
  destruct (needs_quotes w); [done|].
  destruct Hw as [->|[Hh _]]; [done|]. by destruct w.
Qed.

Lemma last_nonspace_write_field (w : str) (rest : str) :
  field_ok w -> head_nonspace (rev (rest ++ DELIMITER :: write_field w)).
Proof.
  intros (_ & _ & Hw). rewrite rev_app_distr. cbn [rev].
  unfold write_field. destruct (needs_quotes w).
  - rewrite !rev_app_distr. done.
  - destruct Hw as [->|[_ Hl]]; [done|].
    destruct (rev w) as [|c r] eqn:E; [done|]. done.
Qed.

Lemma join_snoc (sep : str) (ls : list str) (l : str) :
  ls <> [] -> join sep (ls ++ [l]) = join sep ls ++ sep ++ l.
Proof.
  induction ls as [|x ls IH]; [done|]. intros _.
  destruct ls as [|y ls].
  - reflexivity.
  - change ((x :: y :: ls) ++ [l]) with (x :: y :: (ls ++ [l])).
    rewrite !join_cons2.
    change (y :: ls ++ [l]) with ((y :: ls) ++ [l]).
    rewrite IH by done. by rewrite <- !app_assoc.
Qed.

(** The written line of at least two fields has no white space at its
    ends and no line feed. *)
Lemma written_line (w : str) (ws : list str) :
  ws <> [] -> Forall field_ok (w :: ws) ->
  let line := join [DELIMITER] (map write_field (w :: ws)) in
  trimmed line /\ lacks LF line /\ line <> [].
Proof.
  intros Hne Hall line.
  assert (lacks LF line) as Hlf.
  { apply lacks_join; [done|]. apply Forall_map.
    eapply Forall_impl; [exact Hall|]. intros x (Hx & _).
    by apply write_field_lacks_LF. }
  inversion Hall as [|? ? Hw Hws]; subst.
  assert (head_nonspace line) as Hhead.
  { subst line. destruct ws as [|w2 ws]; [done|].
    cbn [map]. rewrite join_cons2. by apply head_nonspace_write_field. }
  assert (head_nonspace (rev line)) as Hlast.
  { subst line. destruct (exists_last Hne) as (ws' & wl & ->).
    rewrite app_comm_cons, map_app. cbn [map].
    rewrite join_snoc by done.
    apply last_nonspace_write_field.
    rewrite Forall_app in Hws. destruct Hws as [_ Hl]. by inversion Hl. }
  split; [by split|]. split; [done|].
  subst line. destruct ws as [|w2 ws]; [done|]. cbn [map]. rewrite join_cons2.
  intros E. apply (f_equal length) in E. rewrite !length_app in E.
  cbn [length] in E. lia.
Qed.

(** *** The dictionary of the row *)

Lemma zip_insert_other (keys : list str) (row : list str) (m : dict) (k : str) :
  ~ In k keys -> zip_insert keys row m !! k = m !! k.
Proof.
  revert row m. induction keys as [|k0 keys IH]; intros row m H; [done|].
  destruct row as [|v row]; [done|]. cbn [zip_insert].
  rewrite IH by (intros ?; apply H; by right).
  apply lookup_insert_ne. intros ->. apply H. by left.
Qed.

Lemma zip_insert_lookup (keys : list str) (g : str -> str) (m : dict) (k : str) :
  List.NoDup keys -> In k keys ->
  zip_insert keys (map g keys) m !! k = Some (Some (g k)).
Proof.
  revert m. induction keys as [|k0 keys IH]; intros m Hnd Hin; [done|].
  inversion Hnd as [|? ? Hk0 Hnd']; subst. cbn [map zip_insert].
  destruct Hin as [->|Hin].
  - rewrite zip_insert_other by done. apply lookup_insert_eq.
  - by apply IH.
Qed.

(** The line of the header gives the names of the fields. *)
Lemma header_line_read :
  process_line parse_reset (join (py ",") CSV_FIELDS ++ [LF])
  = Some (reader_at START_RECORD [] CSV_FIELDS).
Proof. vm_compute. reflexivity. Qed.

Lemma header_lacks_LF : lacks LF (join (py ",") CSV_FIELDS).
Proof. by vm_compute. Qed.

(** *** The round trip *)

Lemma wire_value_ok (d : dict) (k : str) :
  (forall v, get d k = Some v -> wire_safe v) -> field_ok (wire_value d k).
Proof.
  intros H. unfold wire_value. destruct (get d k) as [v|].
  - destruct (H v eq_refl) as (Hne & Htr & Hesc & Hlim).
    split; [apply escape_lacks_LF|]. split; [done|]. by right.
  - split; [done|]. split; [by vm_compute|]. by left.
Qed.

(** What the reader of the reply makes of a field of the row. *)
Lemma wire_value_restored (d : dict) (k : str) :
  (forall v, get d k = Some v -> wire_safe v) ->
  (let v := strip (wire_value d k) in
   let v := replace ESCAPED_LF [LF] v in
   if is_nil v then None else Some v) = get d k.
Proof.
  intros H. unfold wire_value. destruct (get d k) as [v|]; [|done].
  destruct (H v eq_refl) as (Hne & Htr & Hesc & Hlim). cbv zeta.
  rewrite strip_id by done.
  change (replace ESCAPED_LF [LF] (escape v)) with (unescape (escape v)).
  rewrite unescape_escape by done.
  apply is_nil_false in Hne. by rewrite Hne.
Qed.

(** C1, as the code has it.  For every dictionary whose present values
    are not empty, have no white space at the ends of their escaped form,
    hold no backslash followed by the letter n and are within the field
    size limit of the reader, writing the line of values and reading it
    with the strict reader gives the eight fields of the dictionary:
    commas, quotes and line feeds inside the values are carried. *)
Theorem C1_round_trip (d : dict) :
  (forall k v, In k CSV_FIELDS -> get d k = Some v -> wire_safe v) ->
  _parse_csv_output (dict_to_csv_line d) = Some (fieldset_of d)
  /\ forall k, In k CSV_FIELDS -> fieldset_of d !! k = Some (get d k).
Proof.
  intros Hsafe. split.
  2: { intros k Hk. unfold fieldset_of.
       by apply dict_of_keys_lookup; [apply csv_fields_nodup|]. }
  set (row := map (wire_value d) CSV_FIELDS).
  set (line := join [DELIMITER] (map write_field row)).
  assert (Forall field_ok row) as Hrow.
  { unfold row. apply Forall_map, Forall_forall. intros k Hk%list_elem_of_In.
    apply wire_value_ok. intros v. by apply Hsafe. }
  assert (exists w ws, row = w :: ws /\ ws <> []) as (w & ws & Erow & Hws).
  { unfold row, CSV_FIELDS. cbn [map]. by eexists _, _. }
  destruct (written_line w ws Hws) as (Htrim & Hlf & Hne).
  { by rewrite <- Erow. }
  rewrite <- Erow in Htrim, Hlf, Hne. fold line in Htrim, Hlf, Hne.
  assert (dict_to_csv_line d = line) as ->.
  { change (dict_to_csv_line d) with (strip (writerow row)).
    assert (writerow row = line ++ [CR; LF]) as ->.
    { unfold writerow, line. rewrite Erow. by destruct w, ws. }
    rewrite strip_app_spaces by done. by apply strip_id. }
  unfold _parse_csv_output.
  apply is_nil_false in Hne. rewrite Hne.
  rewrite replace_crlf_lacks by done. rewrite (strip_id line) by done.
  rewrite split_char_lacks by done. cbn [List.filter].
  rewrite (strip_id line) by done. rewrite Hne. cbn [negb].
  rewrite (strip_id line) by done.
  rewrite readlines_two by (done || apply header_lacks_LF).
  unfold DictReader_next, reader_next. cbn [read_record].
  rewrite header_line_read. cbn [state reader_at fields length next_nonempty].
  unfold reader_next. cbn [read_record].
  assert (process_line parse_reset (line ++ [LF])
          = Some (reader_at START_RECORD [] row)) as ->.
  { unfold line. rewrite Erow. apply read_row; [done|].
    rewrite <- Erow. eapply Forall_impl; [exact Hrow|]. by intros x (_ & ? & _). }
  cbn [state reader_at fields]. rewrite Erow at 1. rewrite <- Erow.
  assert (length row = 8) as Hlen by (unfold row; by rewrite length_map).
  rewrite Hlen. change (length CSV_FIELDS) with 8.
  change (skipn 8 CSV_FIELDS) with (@nil str). cbn [restval_insert].
  change (8 <? 8) with false. cbv iota.
  assert (row_is_empty
            {| named := zip_insert CSV_FIELDS row ∅; restkey := None |} = false)
    as ->.
  { unfold row_is_empty. cbn [named restkey]. rewrite andb_true_r.
    apply bool_decide_eq_false. intros E.
    apply (f_equal (fun m : dict => m !! py "autor")) in E.
    unfold row in E.
    rewrite zip_insert_lookup in E; [done|apply csv_fields_nodup|].
    unfold CSV_FIELDS. by left. }
  f_equal. unfold fieldset_of. cbn [named]. apply dict_of_keys_ext.
  intros k Hk. unfold get at 1. unfold row.
  rewrite zip_insert_lookup by (done || apply csv_fields_nodup).
  apply wire_value_restored. intros v. by apply Hsafe.
Qed.

Lemma wire_example_safe k v :
  In k CSV_FIELDS -> get wire_example k = Some v -> wire_safe v.
Proof.
  intros Hin Hget. cbv [CSV_FIELDS In] in Hin.
  destruct Hin as [<-|[<-|[<-|[<-|[<-|[<-|[<-|[<-|[]]]]]]]]];
    vm_compute in Hget;
    first [ discriminate Hget
          | injection Hget as <-;
            split; [done|]; split; [by vm_compute|];
            split; [by vm_compute|]; by vm_compute ].
Qed.

Lemma C1_round_trip_witness :
  _parse_csv_output (dict_to_csv_line wire_example)
  = Some (fieldset_of wire_example)
  /\ forall k, In k CSV_FIELDS ->
               fieldset_of wire_example !! k = Some (get wire_example k).
Proof. exact (C1_round_trip wire_example wire_example_safe). Defined.

(** The line written for the example, and the fields read back. *)
Example wire_example_line :
  dict_to_csv_line wire_example
  = [QUOTECHAR] ++ py "Doe, John" ++ [QUOTECHAR] ++ py ",,,,,"
    ++ [QUOTECHAR] ++ py "First line,\nsecond line." ++ [QUOTECHAR] ++ py ",,"
    ++ [QUOTECHAR] ++ py "the " ++ [QUOTECHAR; QUOTECHAR] ++ py "High"
    ++ [QUOTECHAR; QUOTECHAR] ++ py " Court" ++ [QUOTECHAR].
Proof. vm_compute. reflexivity. Qed.

(** C1 as stated fails for a value that ends with a space, which the
    reader strips, and for a value that holds a backslash followed by the
    letter n, which the reader takes for a line feed. *)
Lemma C1_counterexample :
  let d1 : dict := <[py "autor" := Some (py "John Doe ")]> ∅ in
  let d2 : dict := <[py "autor" := Some (py "C:\new")]> ∅ in
  (get d1 (py "autor") = Some (py "John Doe ")
   /\ fields_of (Ok (_parse_csv_output (dict_to_csv_line d1)))
      = Some [Some (py "John Doe"); None; None; None; None; None; None; None])
  /\ (get d2 (py "autor") = Some (py "C:\new")
      /\ fields_of (Ok (_parse_csv_output (dict_to_csv_line d2)))
         = Some [Some (py "C:" ++ [LF] ++ py "ew"); None; None; None; None;
                 None; None; None]).
Proof. repeat split; vm_compute; reflexivity. Qed.
(* ===================================================================== *)
(** * Part III: further properties of the code                            *)
(* ===================================================================== *)

(** ** The validator: missing fields, keys and normal forms *)

(** The test of [get_missing_fields] is the negation of the test of
    [calculate_completeness]. *)
Lemma missing_not_filled (entities : dict) (cfg : Settings) :
  get_missing_fields cfg entities
  = List.filter (fun key => negb (filled entities key)) (ENTITIES cfg).
Proof.
  unfold get_missing_fields. apply filter_ext_bool. intros key.
  unfold filled. destruct (get entities key) as [v|]; [|done].
  by rewrite negb_andb, !negb_involutive.
Qed.

Lemma filter_partition_length {A} (p : A -> bool) (l : list A) :
  length (List.filter (fun x => negb (p x)) l) + length (List.filter p l)
  = length l.
Proof. induction l as [|x l IH]; simpl; [done|]. destruct (p x); simpl; lia. Qed.

(** X1. The fields that [get_missing_fields] lists are the canonical
    fields that [calculate_completeness] does not count: with [m] fields
    missing the completeness is [(8 - m) / 8], and no field is missing
    exactly when it is 1. *)
Theorem X1_missing_fields_complement (entities : dict) :
  (forall cfg key,
     In key (get_missing_fields cfg entities)
     <-> In key (ENTITIES cfg) /\ filled entities key = false)
  /\ length (get_missing_fields settings entities) <= 8
  /\ (calculate_completeness settings entities
      == Z.of_nat (8 - length (get_missing_fields settings entities)) # 8)%Q
  /\ (get_missing_fields settings entities = []
      <-> (calculate_completeness settings entities == 1)%Q).
Proof.
  split.
  { intros cfg key. rewrite missing_not_filled, filter_In.
    by rewrite negb_true_iff. }
  pose proof (filter_partition_length (filled entities) (ENTITIES settings))
    as Hsum.
  rewrite <- missing_not_filled in Hsum.
  unfold calculate_completeness. rewrite list_sum_indicator.
  change (length (ENTITIES settings)) with 8 in *.
  set (m := get_missing_fields settings entities) in *.
  set (n := length (List.filter _ _)) in *. clearbody n.
  change (0 <? 8) with true. cbv iota.
  assert (n = 8 - length m) as -> by lia.
  split; [lia|]. split.
  - unfold Qeq, Qdiv, Qmult, Qinv, inject_Z. simpl. lia.
  - rewrite <- (is_nil_true m). destruct m as [|k m']; simpl is_nil.
    + split; [|done]. intros _. by vm_compute.
    + split; [done|]. intros H. exfalso. clear Hsum.
      unfold Qeq, Qdiv, Qmult, Qinv, inject_Z in H. simpl in H.
      cbn [length] in H. lia.
Qed.

(** A validator gives a value only for a value that is not a
    placeholder. *)
Lemma normalized_of_present (cfg : Settings) field validator (v : option str)
    (s : str) :
  In (field, validator) (validators cfg) ->
  normalized (validator v) = Some s ->
  exists v0, v = Some v0 /\ placeholder v = false.
Proof.
  intros Hin%validators_cases.
  destruct Hin as [[-> ->]|[[-> ->]|[[-> ->]|[[-> ->]|[[-> ->]|[[-> ->]|[[-> ->]|[-> ->]]]]]]]];
    unfold normalized;
    [ unfold _validate_party_name | unfold _validate_party_name
    | unfold _validate_subject | unfold _validate_decision_type
    | unfold _validate_result | unfold _validate_summary
    | unfold _validate_date | unfold _validate_court ];
    destruct v as [v|]; try done;
    destruct (placeholder (Some v)) eqn:Hp; try done;
    intros _; by exists v.
Qed.

Lemma find_validator_Some_iff (cfg : Settings) k :
  In k (ENTITIES settings)
  <-> exists f, find_validator (validators cfg) k = Some f.
Proof.
  rewrite <- (validators_keys cfg). split.
  - intros Hin. apply in_map_iff in Hin as ([k' f] & <- & Hin).
    exists f. apply find_validator_of_In; [|done].
    rewrite validators_keys. apply entities_nodup.
  - intros [f Hf%find_validator_In]. apply in_map_iff. by exists (k, f).
Qed.

Lemma validate_same_keys (cfg : Settings) (entities : dict) (k : str) :
  (validate cfg entities).1.2 !! k = None <-> entities !! k = None.
Proof.
  destruct (validate_spec cfg entities) as (d' & -> & Hd'). cbn [fst snd].
  rewrite Hd'. destruct (find_validator (validators cfg) k); [|done].
  by rewrite fmap_None.
Qed.

(** X2. [validate] keeps the keys of the dictionary as they are: it adds
    none and drops none, and a key that is not a canonical field keeps its
    value.  A canonical field that the dictionary does not hold is not
    checked at all, the summary included: a dictionary without any
    canonical key is valid and comes back unchanged. *)
Theorem X2_validate_keeps_keys (cfg : Settings) (entities : dict) :
  let r := validate cfg entities in
  (forall k, r.1.2 !! k = None <-> entities !! k = None)
  /\ (forall k, ~ In k (ENTITIES settings) -> r.1.2 !! k = entities !! k)
  /\ ((forall k, In k (ENTITIES settings) -> entities !! k = None) ->
      r = (true, entities, [])).
Proof.
  split; [apply validate_same_keys|].
  destruct (validate_spec cfg entities) as (d' & -> & Hd'). cbn [fst snd].
  split.
  - intros k Hk. rewrite Hd'.
    destruct (find_validator (validators cfg) k) as [f|] eqn:Hf; [|done].
    exfalso. apply Hk. apply (find_validator_Some_iff cfg). by exists f.
  - intros Hnone.
    assert (flat_map (step_errors entities) (validators cfg) = []) as ->.
    { apply flat_map_nil. intros [k f] Hin. unfold step_errors. cbn [fst snd].
      rewrite Hnone; [done|]. rewrite <- (validators_keys cfg).
      apply in_map_iff. by exists (k, f). }
    f_equal. f_equal. apply map_eq. intros k. rewrite Hd'.
    destruct (find_validator (validators cfg) k) as [f|] eqn:Hf; [|done].
    rewrite Hnone; [done|]. apply (find_validator_Some_iff cfg). by exists f.
Qed.

(** X3. The errors of [validate] are one per rejected field, in the form
    "field: message": every error names a canonical field that the
    dictionary holds and whose validator rejected the value, every such
    field has its error, there are at most eight errors, and the value of
    a rejected field is absent from the result, so that
    [get_missing_fields] lists the field. *)
Theorem X3_validate_errors (entities : dict) :
  let r := validate settings entities in
  (forall err, In err r.2 <->
     exists field validator value,
       In (field, validator) (validators settings)
       /\ entities !! field = Some value
       /\ ok (validator value) = false
       /\ err = field ++ py ": " ++ message (validator value))
  /\ length r.2 <= 8
  /\ (forall field validator value,
        In (field, validator) (validators settings) ->
        entities !! field = Some value ->
        ok (validator value) = false ->
        r.1.2 !! field = Some None
        /\ In field (get_missing_fields settings r.1.2)).
Proof.
  destruct (validate_spec settings entities) as (d' & -> & Hd'). cbn [fst snd].
  split; [|split].
  - intros err. rewrite in_flat_map. split.
    + intros ([field validator] & Hin & Herr). unfold step_errors in Herr.
      cbn [fst snd] in Herr.
      destruct (entities !! field) as [value|] eqn:Hv; [|done].
      destruct (ok (validator value)) eqn:Hok; [done|].
      destruct Herr as [<-|[]]. by exists field, validator, value.
    + intros (field & validator & value & Hin & Hv & Hok & ->).
      exists (field, validator). split; [done|]. unfold step_errors.
      cbn [fst snd]. rewrite Hv, Hok. by left.
  - assert (forall tbl : list (str * (option str -> result)),
              length (flat_map (step_errors entities) tbl) <= length tbl) as H.
    { induction tbl as [|fv tbl IH]; [done|]. cbn [flat_map].
      rewrite length_app. cbn [length].
      assert (length (step_errors entities fv) <= 1); [|lia].
      unfold step_errors. repeat case_match; simpl; lia. }
    apply (H (validators settings)).
  - intros field validator value Hin Hv Hok.
    assert (d' !! field = Some None) as Hd.
    { rewrite Hd', Hv.
      rewrite (find_validator_of_In _ _ _ (eq_ind_r _ entities_nodup (validators_keys settings)) Hin).
      cbn [fmap option_fmap option_map]. f_equal.
      by apply (rejected_is_emptied settings field). }
    split; [done|].
    rewrite missing_not_filled. apply filter_In. split.
    + rewrite <- (validators_keys settings). apply in_map_iff.
      by exists (field, validator).
    + unfold filled, get. by rewrite Hd.
Qed.

(** A field that is filled after [validate] was filled before. *)
Lemma filled_after_validate (entities : dict) (key : str) :
  In key (ENTITIES settings) ->
  filled (validate settings entities).1.2 key = true ->
  filled entities key = true.
Proof.
  intros Hkey. destruct (validate_spec settings entities) as (d' & -> & Hd').
  cbn [fst snd]. apply (find_validator_Some_iff settings) in Hkey as [f Hf].
  unfold filled at 1, get. rewrite Hd', Hf.
  destruct (entities !! key) as [value|] eqn:Hv; [|done].
  cbn [fmap option_fmap option_map].
  destruct (normalized (f value)) as [s|] eqn:Hn; [|done]. intros _.
  apply find_validator_In in Hf.
  destruct (normalized_of_present settings key f value s Hf Hn)
    as (v0 & -> & Hp).
  unfold filled, get. rewrite Hv. unfold placeholder in Hp.
  apply orb_false_iff in Hp as [Hnil Hin]. rewrite Hnil. cbn [negb andb].
  apply negb_true_iff. apply not_true_iff_false. intros H%in_list_In.
  apply not_true_iff_false in Hin. apply Hin. apply in_list_In.
  cbn [In] in *. destruct H as [H|[H|[H|[H|[]]]]]; auto.
  destruct v0; [discriminate Hnil | discriminate H].
Qed.

Lemma filter_length_mono {A} (p q : A -> bool) (l : list A) :
  (forall x, In x l -> p x = true -> q x = true) ->
  length (List.filter p l) <= length (List.filter q l).
Proof.
  induction l as [|x l IH]; intros H; simpl; [done|].
  assert (length (List.filter p l) <= length (List.filter q l)) as IH'.
  { apply IH. intros y Hy. apply H. by right. }
  destruct (p x) eqn:Hp.
  - rewrite (H x); [simpl; lia | by left | done].
  - destruct (q x); simpl; lia.
Qed.

(** X4. Validation never raises the completeness: a field that counts as
    filled in the result of [validate] counted as filled in its input, so
    the score computed on the validated entities is at most the score of
    the entities themselves. *)
Theorem X4_validate_lowers_completeness (entities : dict) :
  (forall key, In key (ENTITIES settings) ->
     filled (validate settings entities).1.2 key = true ->
     filled entities key = true)
  /\ (calculate_completeness settings (validate settings entities).1.2
      <= calculate_completeness settings entities)%Q.
Proof.
  split; [apply filled_after_validate|].
  unfold calculate_completeness. rewrite !list_sum_indicator.
  pose proof (filter_length_mono
                (filled (validate settings entities).1.2) (filled entities)
                (ENTITIES settings) (filled_after_validate entities)) as Hle.
  change (length (ENTITIES settings)) with 8.
  set (a := length (List.filter _ _)) in *.
  set (b := length (List.filter (filled entities) _)) in *. clearbody a b.
  change (0 <? 8) with true. cbv iota.
  unfold Qle, Qdiv, Qmult, Qinv, inject_Z. simpl. lia.
Qed.









Lemma X2_validate_keeps_keys_witness :
  validate settings ∅ = (true, ∅, []).
Proof.
  destruct (X2_validate_keeps_keys settings ∅) as (_ & _ & H).
  apply H. intros k _. apply lookup_empty.
Defined.

Lemma X3_validate_errors_witness :
  let entities : dict := <[py "resultado" := Some (py "maybe")]> ∅ in
  (validate settings entities).1.2 !! py "resultado" = Some None
  /\ In (py "resultado")
        (get_missing_fields settings (validate settings entities).1.2).
Proof.
  intros entities.
  destruct (X3_validate_errors entities) as (_ & _ & H).
  apply (H (py "resultado") (_validate_result settings) (Some (py "maybe"))).
  - do 4 right. left. reflexivity.
  - apply lookup_insert_eq.
  - vm_compute. reflexivity.
Defined.

(** ** The extractor: the shape of what the readers give *)

Lemma dict_of_keys_dom (keys : list str) (f : str -> option str) (m : dict) :
  dom (dict_of_keys keys f m) = list_to_set keys ∪ dom m.
Proof.
  revert m. induction keys as [|k keys IH]; intros m; cbn [dict_of_keys].
  - by rewrite list_to_set_nil, (left_id_L ∅ (∪)).
  - rewrite IH, dom_insert_L, list_to_set_cons.
    by rewrite (assoc_L (∪)), (comm_L (∪) _ {[k]}).
Qed.

Lemma has_csv_fields_dom (d : dict) :
  dom d = list_to_set CSV_FIELDS -> has_csv_fields d.
Proof.
  intros Hdom k. rewrite <- list_elem_of_In, <- (elem_of_list_to_set (C := gset str)).
  rewrite <- Hdom, elem_of_dom. unfold is_Some. split.
  - destruct (d !! k) as [v|]; [by exists v | done].
  - by intros [v ->].
Qed.

Lemma has_csv_fields_dict_of_keys (f : str -> option str) :
  has_csv_fields (dict_of_keys CSV_FIELDS f ∅).
Proof. apply has_csv_fields_dom. rewrite dict_of_keys_dom. set_solver. Qed.

Lemma lstrip_blank (s : str) : forallb isspace s = true -> lstrip s = [].
Proof.
  induction s as [|c s IH]; [done|]. cbn [forallb lstrip].
  destruct (isspace c); [|done]. intros H. by apply IH.
Qed.

Lemma strip_blank (s : str) : forallb isspace s = true -> strip s = [].
Proof.
  intros H. unfold strip, rstrip. rewrite (lstrip_blank (rev s)); [done|].
  apply forallb_forall. intros c Hc. apply (proj2 (in_rev _ _)) in Hc.
  by apply (proj1 (forallb_forall _ _) H).
Qed.

Lemma replace_from_blank (old new : str) (skip : nat) (s : str) :
  forallb isspace new = true -> forallb isspace s = true ->
  forallb isspace (replace_from old new skip s) = true.
Proof.
  intros Hnew. revert skip. induction s as [|c s IH]; intros skip; [done|].
  cbn [forallb replace_from]. intros [Hc Hs]%andb_true_iff.
  destruct skip as [|n]; [|by apply IH].
  destruct (starts_with old (c :: s)).
  - rewrite forallb_app, Hnew. cbn [andb]. by apply IH.
  - cbn [forallb]. rewrite Hc. cbn [andb]. by apply IH.
Qed.

(** X6. What the strict reader [_parse_csv_output] gives, when it gives a
    dictionary, holds exactly the eight fields of the header, and none of
    its values is the empty string: an empty column is [None].  A reply
    that is empty or made of white space only gives no dictionary. *)
Theorem X6_parse_csv_output_shape (raw : str) :
  (forallb isspace raw = true -> _parse_csv_output raw = None)
  /\ (forall d, _parse_csv_output raw = Some d ->
        has_csv_fields d /\ forall k (v : str), d !! k = Some (Some v) -> v <> []).
Proof.
  split.
  - intros Hblank. unfold _parse_csv_output. destruct (is_nil raw); [done|].
    cbv zeta. rewrite strip_blank; [done|].
    by apply replace_from_blank.
  - intros d. unfold _parse_csv_output. destruct (is_nil raw); [done|].
    cbv zeta.
    destruct (match List.filter _ _ with [] => None | _ => _ end)
      as [[header_line data_line]|]; [|done].
    destruct (csv.DictReader_next _) as [row rest| |]; [|done|done].
    destruct (csv.row_is_empty row); [done|].
    set (f := fun k : str => _). intros Hd.
    assert (d = dict_of_keys CSV_FIELDS f ∅) as -> by congruence. clear Hd.
    split; [apply has_csv_fields_dict_of_keys|].
    intros k v Hk.
    assert (In k CSV_FIELDS) as Hin.
    { apply (has_csv_fields_dict_of_keys f k). congruence. }
    rewrite dict_of_keys_lookup in Hk; [|apply csv_fields_nodup | done].
    injection Hk as Hk. unfold f in Hk.
    destruct (get (named row) k) as [v0|]; [|done].
    destruct (replace ESCAPED_LF [LF] (strip v0)); [done|].
    cbn [is_nil] in Hk. by injection Hk as <-.
Qed.

Lemma no_header_pair_short (ls : list str) : length ls < 2 -> no_header_pair ls.
Proof.
  intros Hlen before l1 l2 after ->. rewrite length_app in Hlen.
  cbn [length] in Hlen. lia.
Qed.

Lemma no_header_pair_cons (l1 l2 : str) (ls : list str) :
  has_header_names (l1 ++ [LF] ++ l2) l1 = false ->
  no_header_pair (l2 :: ls) -> no_header_pair (l1 :: l2 :: ls).
Proof.
  intros Hh Hls [|x before] a b after E.
  - by injection E as <- <- _.
  - injection E as _ E. by apply (Hls before a b after).
Qed.

(** The loop stops at the first pair that names the header: no pair
    before it does. *)
Lemma first_header_pair_Some (ls : list str) (block : str) :
  first_header_pair ls = Some block ->
  exists before l1 l2 after,
    ls = before ++ l1 :: l2 :: after
    /\ block = l1 ++ [LF] ++ l2
    /\ has_header_names block l1 = true
    /\ no_header_pair (before ++ [l1]).
Proof.
  induction ls as [|l1 ls IH]; [done|]. cbn [first_header_pair].
  destruct ls as [|l2 ls]; [done|]. cbv zeta.
  destruct (has_header_names _ _) eqn:Hh.
  - intros [= <-]. exists [], l1, l2, ls.
    repeat (split; [done|]). apply no_header_pair_short. simpl. lia.
  - intros (before & a & b & after & E & -> & H & Hno)%IH.
    exists (l1 :: before), a, b, after. rewrite E.
    repeat (split; [done|]).
    assert (exists rest, before ++ [a] = l2 :: rest) as [rest Erest].
    { destruct before as [|x before'].
      - injection E as -> _. by exists [].
      - injection E as -> _. by eexists. }
    cbn [app]. rewrite Erest. apply no_header_pair_cons; [done|].
    by rewrite <- Erest.
Qed.

(** The loop ends without a block when no pair names the header. *)
Lemma first_header_pair_None (ls : list str) :
  first_header_pair ls = None -> no_header_pair ls.
Proof.
  induction ls as [|l1 ls IH]; [intros _; apply no_header_pair_short; simpl; lia|].
  cbn [first_header_pair].
  destruct ls as [|l2 ls]; [intros _; apply no_header_pair_short; simpl; lia|].
  cbv zeta. destruct (has_header_names _ _) eqn:Hh; [done|].
  intros H. apply no_header_pair_cons; [done|]. by apply IH.
Qed.

Lemma linebreak_LF : is_linebreak LF = true.
Proof. reflexivity. Qed.

Lemma lacks_snoc_not_linebreak (cur : str) (c : ascii) :
  lacks LF cur -> is_linebreak c = false -> lacks LF (cur ++ [c]).
Proof.
  intros Hcur Hc. apply lacks_app. split; [done|].
  apply lacks_cons. split; [|done].
  destruct (Ascii.eqb c LF) eqn:E; [|done].
  apply Ascii.eqb_eq in E. subst c. by rewrite linebreak_LF in Hc.
Qed.

(** The lines that [splitlines] gives hold no line feed.  The function
    passes over two characters at a carriage return followed by a line
    feed, so the statement is proved for a text and for the text behind
    one more character at once. *)
Lemma splitlines_from_lacks_both (s : str) :
  (forall cur, lacks LF cur -> Forall (lacks LF) (splitlines_from cur s))
  /\ (forall c cur, lacks LF cur ->
        Forall (lacks LF) (splitlines_from cur (c :: s))).
Proof.
  induction s as [|c2 s IH].
  - split; intros; cbn [splitlines_from].
    + destruct (is_nil cur); constructor; [done|constructor].
    + destruct (is_linebreak c) eqn:Hc; [constructor; [done|constructor]|].
      assert (lacks LF (cur ++ [c])) by by apply lacks_snoc_not_linebreak.
      destruct (is_nil (cur ++ [c])); constructor; [done|constructor].
  - destruct IH as [IH1 IH2]. split; [intros cur; apply IH2|].
    intros c cur Hcur. cbn [splitlines_from].
    destruct (is_linebreak c) eqn:Hc.
    + constructor; [done|].
      destruct (Ascii.eqb c CR && Ascii.eqb c2 LF); [by apply IH1|by apply IH2].
    + apply IH2. by apply lacks_snoc_not_linebreak.
Qed.

Lemma splitlines_lacks (text : str) : Forall (lacks LF) (splitlines text).
Proof. by apply splitlines_from_lacks_both. Qed.

Lemma candidate_lines_spec (text l : str) :
  In l (candidate_lines text) ->
  lacks LF l /\ 3 <= count_char (chr 44) l.
Proof.
  unfold candidate_lines. intros [Hin Hc]%filter_In. split.
  - by apply (proj1 (List.Forall_forall _ _) (splitlines_lacks text)).
  - by apply Nat.leb_le.
Qed.

(** X7. [_extract_csv_block] finds no block exactly when fewer than two
    lines of the reply hold three commas or more.  A block that it finds
    is made of two such lines that follow one another among the candidate
    lines, joined by a line feed.  It is the first pair, in the order of
    the lines, that names the first three fields of the header: no pair
    before it does; and it is the first two candidate lines only when no
    pair of the candidate lines names them. *)
Theorem X7_extract_csv_block_shape (text : str) :
  (_extract_csv_block text = None <-> length (candidate_lines text) < 2)
  /\ (forall block, _extract_csv_block text = Some block ->
        exists before l1 l2 after,
          candidate_lines text = before ++ l1 :: l2 :: after
          /\ block = l1 ++ [LF] ++ l2
          /\ split_char LF block = [l1; l2]
          /\ 3 <= count_char (chr 44) l1 /\ 3 <= count_char (chr 44) l2
          /\ no_header_pair (before ++ [l1])
          /\ (has_header_names block l1 = true
              \/ (before = [] /\ no_header_pair (candidate_lines text)))).
Proof.
  assert (forall block, _extract_csv_block text = Some block ->
            exists before l1 l2 after,
              candidate_lines text = before ++ l1 :: l2 :: after
              /\ block = l1 ++ [LF] ++ l2
              /\ no_header_pair (before ++ [l1])
              /\ (has_header_names block l1 = true
                  \/ (before = [] /\ no_header_pair (candidate_lines text))))
    as Hshape.
  { intros block. unfold _extract_csv_block. cbv zeta.
    fold (candidate_lines text). destruct (is_nil _); [done|].
    destruct (first_header_pair _) as [b|] eqn:E.
    - intros [= <-].
      apply first_header_pair_Some
        in E as (before & l1 & l2 & after & E & -> & H & Hno).
      exists before, l1, l2, after. auto.
    - apply first_header_pair_None in E.
      destruct (candidate_lines text) as [|l1 [|l2 ls]]; [done|done|].
      intros [= <-]. exists [], l1, l2, ls.
      split; [done|]. split; [done|]. split; [|by right].
      apply no_header_pair_short. simpl. lia. }
  split.
  - split.
    + intros Hnone. destruct (candidate_lines text) as [|l1 [|l2 ls]] eqn:Ec;
        [simpl; lia | simpl; lia |]. exfalso.
      unfold _extract_csv_block in Hnone. cbv zeta in Hnone.
      fold (candidate_lines text) in Hnone. rewrite Ec in Hnone.
      cbn [is_nil] in Hnone. by destruct (first_header_pair _).
    + intros Hlen. destruct (_extract_csv_block text) as [block|] eqn:E; [|done].
      destruct (Hshape block eq_refl) as (before & l1 & l2 & after & Ec & _).
      rewrite Ec, length_app in Hlen. cbn [length] in Hlen. lia.
  - intros block Hb.
    destruct (Hshape block Hb) as (before & l1 & l2 & after & Ec & -> & Hno & H).
    exists before, l1, l2, after.
    destruct (candidate_lines_spec text l1) as [Hl1 Hc1].
    { rewrite Ec. apply in_app_iff. right. by left. }
    destruct (candidate_lines_spec text l2) as [Hl2 Hc2].
    { rewrite Ec. apply in_app_iff. right. right. by left. }
    split; [done|]. split; [done|]. split; [|by auto].
    change (l1 ++ [LF] ++ l2) with (l1 ++ LF :: l2).
    rewrite split_char_app by done. by rewrite split_char_lacks.
Qed.

(** A reply whose third candidate line names the header: the block is
    the first pair that holds the names, the second and third lines, and
    not the first two candidate lines. *)
Example extract_csv_block_first_naming_pair :
  _extract_csv_block
    (py "a,b,c,d" ++ [LF] ++ py "e,f,g,h" ++ [LF]
     ++ py "autor,reu,assunto_principal,x" ++ [LF] ++ py "1,2,3,4")
  = Some (py "e,f,g,h" ++ [LF] ++ py "autor,reu,assunto_principal,x").
Proof. by vm_compute. Qed.

(** X8. The line that [dict_to_csv_line] writes holds no line feed,
    whatever the values of the dictionary: the line feeds of the values
    are written as a backslash and the letter n, and the end of line of
    the writer is stripped with the white space at both ends. *)
Theorem X8_csv_line_single_line (d : dict) :
  lacks LF (dict_to_csv_line d) /\ trimmed (dict_to_csv_line d).
Proof.
  split; [|apply strip_trimmed].
  set (row := map (wire_value d) CSV_FIELDS).
  change (dict_to_csv_line d) with (strip (writerow row)).
  assert (exists w ws, row = w :: ws /\ ws <> []) as (w & ws & Erow & Hws).
  { unfold row, CSV_FIELDS. cbn [map]. by eexists _, _. }
  assert (writerow row
          = join [DELIMITER] (map write_field row) ++ [CR; LF]) as ->.
  { unfold writerow. rewrite Erow. by destruct w, ws. }
  rewrite strip_app_spaces by done. apply lacks_strip.
  apply lacks_join; [done|]. apply Forall_map, Forall_map.
  apply Forall_forall. intros k _. apply write_field_lacks_LF.
  unfold wire_value. destruct (get d k); [apply escape_lacks_LF | done].
Qed.

(** The dictionary that the heuristic gives holds the eight fields. *)
Lemma heuristic_fields (text : str) (d : dict) :
  _heuristic_extract text = Ok (Some d) -> has_csv_fields d.
Proof.
  unfold _heuristic_extract.
  repeat match goal with
         | |- context [match find_after ?t ?p with _ => _ end] =>
             destruct (find_after t p); [|discriminate]
         end.
  destruct (existsb truthy _); [|discriminate]. intros [= <-].
  apply has_csv_fields_dom. rewrite !dom_insert_L, dom_empty_L.
  unfold CSV_FIELDS. rewrite !list_to_set_cons, list_to_set_nil.
  set_solver.
Qed.

Lemma parse_csv_output_fields (raw : str) (d : dict) :
  _parse_csv_output raw = Some d -> has_csv_fields d.
Proof.
  unfold _parse_csv_output. destruct (is_nil raw); [done|]. cbv zeta.
  destruct (match List.filter _ _ with [] => None | _ => _ end)
    as [[header_line data_line]|]; [|done].
  destruct (csv.DictReader_next _) as [row rest| |]; [|done|done].
  destruct (csv.row_is_empty row); [done|].
  set (f := fun k : str => _). intros Hd.
  assert (d = dict_of_keys CSV_FIELDS f ∅) as -> by congruence.
  apply has_csv_fields_dict_of_keys.
Qed.

Lemma parse_reply_fields (raw_text text : str) (d : dict) :
  parse_reply raw_text text = Ok (Some d) -> has_csv_fields d.
Proof.
  unfold parse_reply.
  destruct (_parse_csv_output raw_text) as [p|] eqn:E1.
  - rewrite (parse_csv_output_truthy raw_text p E1). intros [= <-].
    by apply (parse_csv_output_fields raw_text).
  - cbn [dict_truthy]. cbv zeta.
    destruct (match _extract_csv_block raw_text with
              | Some embedded => _ | None => None end) as [p2|] eqn:E2.
    + assert (exists embedded, _parse_csv_output embedded = Some p2)
        as [embedded E3].
      { destruct (_extract_csv_block raw_text) as [embedded|]; [|done].
        destruct (negb (is_nil embedded)); [|done]. by exists embedded. }
      rewrite (parse_csv_output_truthy embedded p2 E3). intros [= <-].
      by apply (parse_csv_output_fields embedded).
    + cbn [dict_truthy].
      destruct (_heuristic_extract text) as [[h|]|e] eqn:E3; [|done|done].
      rewrite (heuristic_truthy text h E3). intros [= <-].
      by apply (heuristic_fields text).
Qed.

Lemma try_body_fields (answer : exc response) (text : str) (d : dict) :
  try_body answer text = Ok (Some d) -> has_csv_fields d.
Proof.
  unfold try_body. destruct answer as [r|e]; [|done].
  destruct (truthy (LLMExtractor.text r)); [apply parse_reply_fields|].
  destruct (candidates r) as [|parts ?]; [|apply parse_reply_fields].
  destruct (parsed r) as [p|]; [|apply parse_reply_fields].
  destruct (dict_truthy (Some p)); [|apply parse_reply_fields].
  intros [= <-]. apply has_csv_fields_dict_of_keys.
Qed.

Lemma attempt_loop_fields (client : nat -> exc response) (text : str)
    (attempts todo attempt : nat) (w : world) (d : dict) :
  (attempt_loop client text attempts todo attempt w).1 = Some d ->
  has_csv_fields d.
Proof.
  revert attempt w. induction todo as [|todo IH]; intros attempt w; [done|].
  cbn [attempt_loop].
  destruct (try_body (client (calls w)) text) as [[d'|]|e] eqn:E;
    [|apply IH|apply IH].
  cbn [fst]. intros [= <-]. by apply (try_body_fields (client (calls w)) text).
Qed.

(** X9. Every dictionary that [extract_entities] returns holds exactly
    the eight fields of the header, whichever way the reply was read (the
    strict reader, the block found in the reply, the heuristic, or a reply
    that the client had parsed itself), and [validate] hands back a
    dictionary of the same eight fields. *)
Theorem X9_extracted_fields (cfg : Settings) (client : nat -> exc response)
    (text : str) (retry : bool) (d : dict) :
  (extract_entities cfg client text retry).1 = Some d ->
  has_csv_fields d /\ has_csv_fields (validate cfg d).1.2.
Proof.
  intros H. apply attempt_loop_fields in H. split; [done|].
  intros k. rewrite <- (H k). pose proof (validate_same_keys cfg d k). tauto.
Qed.

Lemma X9_extracted_fields_witness :
  let res := extract_entities settings (fails_then_replies 1 scenario_A_reply)
               (py "the document") true in
  exists d,
    res.1 = Some d
    /\ has_csv_fields d /\ has_csv_fields (validate settings d).1.2.
Proof.
  intros res. destruct (res.1) as [d|] eqn:E; [|absurd_shape E].
  exists d. split; [reflexivity|].
  exact (X9_extracted_fields settings (fails_then_replies 1 scenario_A_reply)
           (py "the document") true d E).
Defined.
(** ** The chunker: when the loop ends, and what it covers *)

Import TextChunker.

Lemma adjust_range (len i : Z) :
  (0 <= len -> 0 <= adjust len i <= len)%Z.
Proof. unfold adjust. destruct (Z.ltb_spec i 0); lia. Qed.

Lemma adjust_le (len i : Z) : (0 <= i -> adjust len i <= i)%Z.
Proof. unfold adjust. destruct (Z.ltb_spec i 0); lia. Qed.

(** A search gives [-1] or an index of the part searched. *)
Lemma rfind_in_range (c : ascii) (s : str) (i : Z) :
  (0 <= i ->
   rfind_in c s i = -1
   \/ i <= rfind_in c s i < i + Z.of_nat (length s))%Z.
Proof.
  revert i. induction s as [|x s IH]; intros i Hi; [by left|].
  cbn [rfind_in length]. destruct (IH (i + 1)%Z) as [E|E]; [lia| |].
  - rewrite E. change (-1 <? 0)%Z with true. cbv iota.
    destruct (Ascii.eqb x c); [right; lia | by left].
  - destruct (rfind_in c s (i + 1) <? 0)%Z eqn:E'; [lia|]. right. lia.
Qed.

Lemma rfind_range (c : ascii) (s : str) (start stop : Z) :
  let len := Z.of_nat (length s) in
  (rfind c s start stop = -1
   \/ adjust len start <= rfind c s start stop < adjust len stop)%Z.
Proof.
  intros len. unfold rfind. fold len.
  pose proof (adjust_range len start) as Ha.
  pose proof (adjust_range len stop) as Hb.
  set (a := adjust len start) in *. set (b := adjust len stop) in *.
  set (part := firstn _ _).
  assert (Z.of_nat (length part) <= Z.max 0 (b - a))%Z as Hlen.
  { unfold part. rewrite length_firstn. lia. }
  destruct (rfind_in_range c part a) as [E|E]; [lia|by left|]. right. lia.
Qed.

Section Sizes.

Variable self : chunker.
Variable text : str.

(** The end of a chunk is never further than the size of a chunk from its
    start, and never behind the end of the text unless the plain size is
    taken. *)
Lemma chunk_end_cases (start : Z) :
  (chunk_end self text start = start + chunk_size self
   \/ (start + chunk_size self / 2 + 2 <= chunk_end self text start
       /\ chunk_end self text start
          <= adjust (Z.of_nat (length text)) (start + chunk_size self)))%Z.
Proof.
  unfold chunk_end. cbv zeta.
  destruct (start + chunk_size self <? Z.of_nat (length text))%Z; [|by left].
  destruct (rfind_range "." text start (start + chunk_size self)) as [E|E].
  - rewrite E. by left.
  - destruct (negb _ && _) eqn:Hc; [|by left]. right.
    apply andb_true_iff in Hc as [_ Hc]. lia.
Qed.

Hypothesis size_positive : (0 < chunk_size self)%Z.
Hypothesis overlap_small : (0 <= chunk_overlap self <= chunk_size self / 2)%Z.

Lemma half_lt : (chunk_size self / 2 < chunk_size self)%Z.
Proof. apply Z.div_lt; lia. Qed.

Lemma chunk_end_bounds (start : Z) :
  (0 <= start ->
   start + chunk_overlap self < chunk_end self text start
                              <= start + chunk_size self)%Z.
Proof.
  intros Hs. pose proof half_lt.
  destruct (chunk_end_cases start) as [E|[E1 E2]]; [lia|].
  pose proof (adjust_le (Z.of_nat (length text)) (start + chunk_size self)). lia.
Qed.

(** With enough fuel the loop ends. *)
Lemma chunk_loop_ends (fuel : nat) (start : Z) (chunks : list str) :
  (0 <= start -> Z.of_nat (length text) - start <= Z.of_nat fuel ->
   exists r, chunk_loop fuel self text start chunks = Some r)%Z.
Proof.
  revert start chunks. induction fuel as [|fuel IH]; intros start chunks Hs Hf.
  - cbn [chunk_loop].
    destruct (start <? Z.of_nat (length text))%Z eqn:E; [lia|]. by exists chunks.
  - cbn [chunk_loop].
    destruct (start <? Z.of_nat (length text))%Z eqn:E; [|by exists chunks].
    pose proof (chunk_end_bounds start Hs). apply IH; lia.
Qed.

Lemma chunk_windows_spec (fuel : nat) (start : Z) :
  (0 <= start -> Z.of_nat (length text) - start <= Z.of_nat fuel ->
   let ws := chunk_windows fuel self text start in
   Forall (fun w => 0 <= fst w < snd w /\ snd w <= fst w + chunk_size self) ws
   /\ (forall i, start <= i < Z.of_nat (length text) ->
         exists w, In w ws /\ fst w <= i < snd w)
   /\ Z.of_nat (length ws) <= Z.max 0 (Z.of_nat (length text) - start))%Z.
Proof.
  revert start. induction fuel as [|fuel IH]; intros start Hs Hf;
    cbn [chunk_windows].
  - destruct (start <? Z.of_nat (length text))%Z eqn:E; [lia|].
    split; [constructor|]. split; [intros; lia|simpl; lia].
  - destruct (start <? Z.of_nat (length text))%Z eqn:E.
    2:{ split; [constructor|]. split; [intros; lia|simpl; lia]. }
    pose proof (chunk_end_bounds start Hs) as Hb.
    destruct (IH (chunk_end self text start - chunk_overlap self)%Z)
      as (H1 & H2 & H3); [lia|lia|].
    split; [|split].
    + constructor; [cbn [fst snd]; lia | exact H1].
    + intros i Hi.
      destruct (Z.lt_ge_cases i (chunk_end self text start)) as [Hlt|Hge].
      * exists (start, chunk_end self text start). split; [by left|].
        cbn [fst snd]. lia.
      * destruct (H2 i) as (w & Hw & Hi'); [lia|]. exists w. split; [by right|done].
    + cbn [length]. lia.
Qed.

End Sizes.

(** What the loop gives is the chunks of its windows. *)
Lemma chunk_loop_windows (self : chunker) (text : str) (fuel : nat)
    (start : Z) (chunks r : list str) :
  chunk_loop fuel self text start chunks = Some r ->
  r = chunks ++ map (chunk_of text) (chunk_windows fuel self text start).
Proof.
  revert start chunks. induction fuel as [|fuel IH]; intros start chunks;
    cbn [chunk_loop chunk_windows];
    destruct (start <? Z.of_nat (length text))%Z;
    try discriminate; try (intros [= <-]; by rewrite app_nil_r).
  intros H%IH. rewrite H, <- app_assoc. reflexivity.
Qed.

(** More fuel does not change the result of a run that has ended. *)
Lemma chunk_loop_more_fuel (self : chunker) (text : str) (fuel fuel' : nat)
    (start : Z) (chunks r : list str) :
  chunk_loop fuel self text start chunks = Some r -> fuel <= fuel' ->
  chunk_loop fuel' self text start chunks = Some r.
Proof.
  revert fuel' start chunks.
  induction fuel as [|fuel IH]; intros fuel' start chunks.
  - cbn [chunk_loop]. destruct fuel'; cbn [chunk_loop];
      destruct (start <? Z.of_nat (length text))%Z; done.
  - cbn [chunk_loop]. destruct (start <? Z.of_nat (length text))%Z eqn:E.
    + intros H Hle. destruct fuel' as [|fuel']; [lia|].
      cbn [chunk_loop]. rewrite E. apply IH; [done|lia].
    + intros H _. destruct fuel'; cbn [chunk_loop]; by rewrite E.
Qed.

Lemma lstrip_length (s : str) : length (lstrip s) <= length s.
Proof.
  induction s as [|c s IH]; [done|]. cbn [lstrip].
  destruct (isspace c); simpl; lia.
Qed.

Lemma strip_length (s : str) : length (strip s) <= length s.
Proof.
  unfold strip, rstrip.
  pose proof (lstrip_length (rev (lstrip (rev s)))).
  pose proof (lstrip_length (rev s)).
  rewrite length_rev in *. lia.
Qed.

Lemma slice_length (s : str) (a b : Z) :
  (0 <= a <= b -> Z.of_nat (length (slice s a b)) <= b - a)%Z.
Proof.
  intros Hab. unfold slice. cbv zeta. rewrite length_firstn, length_skipn.
  unfold adjust. destruct (Z.ltb_spec a 0); [lia|].
  destruct (Z.ltb_spec b 0); lia.
Qed.

(** X10. With a positive size and an overlap of at most half the size
    (as the defaults 3000 and 200 are), [chunk_text] ends: a number of
    turns equal to the length of the text is enough, and more turns
    give the same chunks.  There is at least one chunk, there are at most
    as many chunks as characters (one for the empty text), and no chunk
    is longer than the size. *)
Theorem X10_chunk_text_ends (self : chunker) (text : str) :
  (0 < chunk_size self)%Z ->
  (0 <= chunk_overlap self <= chunk_size self / 2)%Z ->
  exists chunks,
    (forall fuel, length text <= fuel ->
       chunk_text fuel self text = Some chunks)
    /\ chunks <> []
    /\ length chunks <= Nat.max 1 (length text)
    /\ Forall (fun c => (Z.of_nat (length c) <= chunk_size self)%Z) chunks.
Proof.
  intros Hsize Hover. unfold chunk_text.
  destruct (Z.of_nat (length text) <=? chunk_size self)%Z eqn:Hshort.
  { exists [text]. split; [done|]. split; [done|]. split; [simpl; lia|].
    constructor; [lia|constructor]. }
  destruct (chunk_loop_ends self text Hsize Hover (length text) 0 [])
    as [r Hr]; [lia|lia|].
  exists r. split.
  { intros fuel Hf. by apply (chunk_loop_more_fuel self text (length text)). }
  apply chunk_loop_windows in Hr. cbn [app] in Hr. subst r.
  destruct (chunk_windows_spec self text Hsize Hover (length text) 0)
    as (H1 & H2 & H3); [lia|lia|].
  split; [|split].
  - destruct (H2 0%Z) as (w & Hw & _); [lia|].
    destruct (chunk_windows _ _ _ _); [done|discriminate].
  - rewrite length_map. lia.
  - apply Forall_map. eapply Forall_impl; [exact H1|].
    intros [a b] Hw. cbn [fst snd] in Hw. unfold chunk_of. cbn [fst snd].
    pose proof (strip_length (slice text a b)).
    pose proof (slice_length text a b). lia.
Qed.

Lemma X10_chunk_text_ends_witness :
  exists chunks,
    (forall fuel, length (py "One. Two. Three.") <= fuel ->
       chunk_text fuel {| chunk_size := 8; chunk_overlap := 2 |}
         (py "One. Two. Three.") = Some chunks)
    /\ chunks <> []
    /\ length chunks <= Nat.max 1 (length (py "One. Two. Three."))
    /\ Forall (fun c => (Z.of_nat (length c) <= 8)%Z) chunks.
Proof.
  apply (X10_chunk_text_ends {| chunk_size := 8; chunk_overlap := 2 |}
           (py "One. Two. Three.")).
  - reflexivity.
  - split; vm_compute; discriminate.
Defined.

(** X11. With a positive size and an overlap of at most half the size,
    the chunks of a text longer than the size are cut from windows that
    leave no character out: every position of the text lies in the window
    of some chunk, every window starts inside the text and is at most the
    size long, and a chunk is its window without the white space at its
    ends. *)
Theorem X11_chunk_text_covers (self : chunker) (text : str) :
  (0 < chunk_size self)%Z ->
  (0 <= chunk_overlap self <= chunk_size self / 2)%Z ->
  (chunk_size self < Z.of_nat (length text))%Z ->
  exists windows,
    chunk_text (length text) self text = Some (map (chunk_of text) windows)
    /\ Forall (fun w => (0 <= fst w < snd w)%Z
                        /\ (snd w <= fst w + chunk_size self)%Z) windows
    /\ forall i, (0 <= i < Z.of_nat (length text))%Z ->
         exists w, In w windows /\ (fst w <= i < snd w)%Z.
Proof.
  intros Hsize Hover Hlong. unfold chunk_text.
  destruct (Z.of_nat (length text) <=? chunk_size self)%Z eqn:Hshort; [lia|].
  destruct (chunk_loop_ends self text Hsize Hover (length text) 0 [])
    as [r Hr]; [lia|lia|].
  exists (chunk_windows (length text) self text 0).
  rewrite Hr. apply chunk_loop_windows in Hr. cbn [app] in Hr. subst r.
  destruct (chunk_windows_spec self text Hsize Hover (length text) 0)
    as (H1 & H2 & H3); [lia|lia|].
  split; [done|]. split; [done|]. intros i Hi. apply H2. lia.
Qed.

Lemma X11_chunk_text_covers_witness :
  exists windows,
    chunk_text (length (py "One. Two. Three."))
      {| chunk_size := 8; chunk_overlap := 2 |} (py "One. Two. Three.")
    = Some (map (chunk_of (py "One. Two. Three.")) windows)
    /\ Forall (fun w => (0 <= fst w < snd w)%Z /\ (snd w <= fst w + 8)%Z)
              windows
    /\ forall i, (0 <= i < Z.of_nat (length (py "One. Two. Three.")))%Z ->
         exists w, In w windows /\ (fst w <= i < snd w)%Z.
Proof.
  apply (X11_chunk_text_covers {| chunk_size := 8; chunk_overlap := 2 |}
           (py "One. Two. Three.")).
  - reflexivity.
  - split; vm_compute; discriminate.
  - reflexivity.
Defined.

(** A start before the end of the text stays before it when the overlap
    is at least the size. *)
Lemma chunk_loop_never_ends (self : chunker) (text : str) (fuel : nat)
    (start : Z) (chunks : list str) :
  (0 < chunk_size self <= chunk_overlap self)%Z ->
  (start < Z.of_nat (length text))%Z ->
  chunk_loop fuel self text start chunks = None.
Proof.
  intros Hsize. revert start chunks.
  induction fuel as [|fuel IH]; intros start chunks Hs; cbn [chunk_loop];
    destruct (start <? Z.of_nat (length text))%Z eqn:E; try lia; [done|].
  apply IH.
  destruct (chunk_end_cases self text start) as [->|[_ H]]; [lia|].
  pose proof (adjust_range (Z.of_nat (length text)) (start + chunk_size self)).
  lia.
Qed.

(** X12. With an overlap that is at least the (positive) size,
    [chunk_text] never returns on a text longer than the size: moving
    the start back by the overlap keeps it before the end of the text, so
    the loop does not end, however many turns it is given. *)
Theorem X12_chunk_text_never_ends (self : chunker) (text : str) (fuel : nat) :
  (0 < chunk_size self <= chunk_overlap self)%Z ->
  (chunk_size self < Z.of_nat (length text))%Z ->
  chunk_text fuel self text = None.
Proof.
  intros Hsize Hlong. unfold chunk_text.
  destruct (Z.of_nat (length text) <=? chunk_size self)%Z eqn:Hshort; [lia|].
  apply chunk_loop_never_ends; [done|lia].
Qed.

Lemma X12_chunk_text_never_ends_witness :
  chunk_text 1000 {| chunk_size := 4; chunk_overlap := 4 |} (py "abcde") = None.
Proof.
  apply (X12_chunk_text_never_ends {| chunk_size := 4; chunk_overlap := 4 |}
           (py "abcde") 1000).
  - split; [reflexivity | vm_compute; discriminate].
  - reflexivity.
Defined.
(** ** The cleaner: what [clean] leaves in a text *)

(** *** Matches and their lengths *)

(** A repetition that matches has handed to its continuation a position
    at least [lo] characters further on. *)
Lemma rep_match_reaches (greedy : bool) (p : ascii -> bool) (after : str) :
  forall (lo : nat) (hi : option nat) (before : str) (g : list (nat * str))
         (k : mstate -> option mstate) (res : mstate),
    rep_match greedy p lo hi before after g k = Some res ->
    exists st,
      k st = Some res
      /\ length before + lo <= consumed st
      /\ consumed st + remaining st = length before + length after.
Proof.
  induction after as [|c after IH]; intros lo hi before g k res.
  - cbn [rep_match]. intros H.
    assert (match lo with 0 => k (before, [], g) | S _ => None end = Some res)
      as H'.
    { revert H. destruct greedy; [done|].
      by destruct (match lo with 0 => _ | S _ => _ end). }
    destruct lo; [|done]. exists (before, [], g).
    unfold consumed, remaining. cbn [fst snd length]. split; [done|lia].
  - cbn [rep_match]. intros H.
    assert (match lo with 0 => k (before, c :: after, g) | S _ => None end
            = Some res
            \/ (if p c && hi_allows hi
                then rep_match greedy p (pred lo) (hi_pred hi) (c :: before)
                       after g k
                else None) = Some res) as [Hs|Hm].
    { revert H. destruct greedy.
      - destruct (if p c && hi_allows hi then _ else _); auto.
      - destruct (match lo with 0 => _ | S _ => _ end); auto. }
    + destruct lo; [|done]. exists (before, c :: after, g).
      unfold consumed, remaining. cbn [fst snd length]. split; [done|lia].
    + destruct (p c && hi_allows hi); [|done].
      apply IH in Hm as (st & Hk & H1 & H2). exists st. split; [done|].
      cbn [length] in *. lia.
Qed.

(** The same for every expression. *)
Lemma rmatch_reaches (r : regex) :
  forall (st : mstate) (k : mstate -> option mstate) (res : mstate),
    rmatch r st k = Some res ->
    exists st',
      k st' = Some res
      /\ consumed st + min_len r <= consumed st'
      /\ consumed st' + remaining st' = consumed st + remaining st.
Proof.
  induction r as [|p|r1 IH1 r2 IH2|r1 IH1 r2 IH2|greedy lo hi p|i r IH|r IH|ps| | |];
    intros [[before after] g] k res; unfold consumed, remaining;
    cbn [rmatch min_len fst snd].
  - intros H. exists (before, after, g). cbn [fst snd]. split; [done|lia].
  - destruct after as [|c after]; [done|]. destruct (p c); [|done].
    intros H. exists (c :: before, after, g). cbn [fst snd length].
    split; [done|lia].
  - intros H. apply IH1 in H as ([[b1 a1] g1] & H & H1 & H2).
    apply IH2 in H as ([[b2 a2] g2] & H & H3 & H4). exists (b2, a2, g2).
    unfold consumed, remaining in *. cbn [fst snd] in *. split; [done|lia].
  - destruct (rmatch r1 (before, after, g) k) eqn:E1.
    + intros [= <-]. apply IH1 in E1 as ([[b1 a1] g1] & H & H1 & H2).
      exists (b1, a1, g1).
      unfold consumed, remaining in *. cbn [fst snd] in *. split; [done|lia].
    + intros H. apply IH2 in H as ([[b2 a2] g2] & H & H1 & H2).
      exists (b2, a2, g2).
      unfold consumed, remaining in *. cbn [fst snd] in *. split; [done|lia].
  - intros H. apply rep_match_reaches in H as ([[b1 a1] g1] & H & H1 & H2).
    exists (b1, a1, g1).
    unfold consumed, remaining in *. cbn [fst snd] in *. split; [done|lia].
  - intros H. apply IH in H as ([[before' after'] g'] & H & H1 & H2).
    eexists (_, _, _). split; [exact H|].
    unfold consumed, remaining in *. cbn [fst snd] in *. lia.
  - destruct (rmatch r (before, after, g) Some); [|done].
    intros H. exists (before, after, g). cbn [fst snd]. split; [done|lia].
  - destruct (behind_ok (rev ps) before); [|done].
    intros H. exists (before, after, g). cbn [fst snd]. split; [done|lia].
  - destruct (is_nil before); [|done].
    intros H. exists (before, after, g). cbn [fst snd]. split; [done|lia].
  - destruct (is_nil after); [|done].
    intros H. exists (before, after, g). cbn [fst snd]. split; [done|lia].
  - destruct (xorb _ _); [|done].
    intros H. exists (before, after, g). cbn [fst snd]. split; [done|lia].
Qed.

(** The text of a match is at least as long as the expression requires,
    and lies in the text that follows the position. *)
Lemma match_at_length (r : regex) (adv : bool) (before after : str)
    (m : re_match) :
  match_at r adv before after = Some m ->
  min_len r <= length (group0 m) <= length after.
Proof.
  unfold match_at.
  destruct (rmatch r (before, after, []) _) as [[[before' after'] g']|] eqn:E;
    [|done].
  intros [= <-]. cbn [group0]. rewrite length_firstn.
  apply rmatch_reaches in E as ([[b1 a1] g1] & Hk & H1 & H2).
  unfold consumed, remaining in *. cbn [fst snd] in *.
  destruct (adv && _); [done|]. injection Hk as -> -> ->. lia.
Qed.

(** A replacement that is no longer than the matches of the expression
    does not lengthen the text. *)
Lemma sub_from_length (r : regex) (repl : str) :
  length repl <= min_len r ->
  forall (after : str) (skip : nat) (before : str),
    length (sub_from r repl skip before after) + Nat.min skip (length after)
    <= length after.
Proof.
  intros Hrepl. induction after as [|c after IH]; intros skip before.
  - destruct skip; [|simpl; lia]. cbn [sub_from].
    destruct (match_at r false before []) as [m|] eqn:E; [|simpl; lia].
    apply match_at_length in E. cbn [length] in E.
    assert (length repl = 0) as Hnil by lia.
    destruct repl; [|done].
    destruct (length (group0 m)); [|lia]. cbn [app].
    destruct (match_at r true before []) as [m2|]; simpl; lia.
  - destruct skip as [|n].
    2:{ cbn [sub_from length]. specialize (IH n (c :: before)). lia. }
    cbn [sub_from].
    pose proof (IH 0 (c :: before)) as IH0.
    destruct (match_at r false before (c :: after)) as [m|] eqn:E;
      [|cbn [length]; lia].
    apply match_at_length in E. cbn [length] in E.
    destruct (length (group0 m)) as [|n] eqn:En.
    + assert (length repl = 0) as Hnil by lia.
      destruct repl; [|done]. cbn [app].
      destruct (match_at r true before (c :: after)) as [m2|] eqn:E2;
        [|cbn [length]; lia].
      apply match_at_length in E2. cbn [length] in E2.
      specialize (IH (length (group0 m2) - 1) (c :: before)).
      cbn [length]. lia.
    + rewrite length_app. replace (S n - 1) with n by lia.
      specialize (IH n (c :: before)). cbn [length]. lia.
Qed.

Lemma re_sub_length (r : regex) (repl s : str) :
  length repl <= min_len r -> length (re_sub r repl s) <= length s.
Proof.
  intros H. unfold re_sub. pose proof (sub_from_length r repl H s 0 []). lia.
Qed.

(** Taking out the characters of a class is a filter. *)
Lemma sub_from_class (p : ascii -> bool) (after : str) :
  forall before,
    sub_from (Chr p) [] 0 before after
    = List.filter (fun c => negb (p c)) after.
Proof.
  induction after as [|c after IH]; intros before; [done|].
  cbn [sub_from List.filter]. unfold match_at at 1. cbn [rmatch].
  destruct (p c) eqn:Hp; cbn [negb andb].
  - cbn [group0 length].
    replace (S (length before) - length before) with 1 by lia.
    cbn [firstn length app]. apply IH.
  - f_equal. apply IH.
Qed.

(** *** The steps of [clean] *)

Lemma replace_char_length (a b : ascii) (s : str) :
  length (replace [a] [b] s) = length s.
Proof.
  unfold replace. induction s as [|c s IH]; [done|].
  cbn [replace_from length Nat.sub].
  destruct (starts_with [a] (c :: s)); cbn [app length]; by rewrite IH.
Qed.

Lemma _remove_headers_length (text : str) :
  length (_remove_headers text) <= length text.
Proof.
  unfold _remove_headers.
  assert (forall (ps : list regex) (t : str),
            length (fold_left (fun t p => re_sub p [] t) ps t) <= length t)
    as H.
  { induction ps as [|p ps IH]; intros t; cbn [fold_left]; [done|].
    etransitivity; [apply IH|]. apply re_sub_length. simpl. lia. }
  apply H.
Qed.

Lemma _normalize_whitespace_length (text : str) :
  length (_normalize_whitespace text) <= length text.
Proof.
  unfold _normalize_whitespace. cbv zeta. rewrite replace_char_length.
  by apply re_sub_length.
Qed.

Lemma _fix_line_breaks_length (text : str) :
  length (_fix_line_breaks text) <= length text.
Proof.
  unfold _fix_line_breaks. cbv zeta.
  etransitivity; [apply re_sub_length; simpl; lia|].
  apply re_sub_length. simpl. lia.
Qed.

Lemma _remove_special_chars_filter (text : str) :
  _remove_special_chars text
  = List.filter (fun c => negb (control_char c))
      (List.filter (fun char => Ascii.eqb char LF || negb (isspace char)
                                || Ascii.eqb char SPACE) text).
Proof. unfold _remove_special_chars, re_sub. cbv zeta. apply sub_from_class. Qed.

Lemma In_lstrip (c : ascii) (s : str) : In c (lstrip s) -> In c s.
Proof.
  induction s as [|x s IH]; [done|]. cbn [lstrip].
  destruct (isspace x); [|done]. intros H. right. by apply IH.
Qed.

Lemma In_strip (c : ascii) (s : str) : In c (strip s) -> In c s.
Proof.
  unfold strip, rstrip. intros H%In_lstrip.
  apply (proj2 (in_rev _ _)) in H. apply In_lstrip in H.
  by apply (proj2 (in_rev _ _)) in H.
Qed.

(** X13. The text that [clean] gives has no white space at its ends, and
    holds no control character and no white space other than the space and
    the line feed: tabs, carriage returns, form feeds, no-break spaces and
    the like are gone, whatever the text was. *)
Theorem X13_clean_alphabet (text : str) :
  trimmed (clean text)
  /\ forall c, In c (clean text) ->
       control_char c = false
       /\ (c = LF \/ c = SPACE \/ isspace c = false).
Proof.
  unfold clean. destruct (is_nil text); [by repeat split|]. cbv zeta.
  split; [apply strip_trimmed|].
  intros c Hc%In_strip. rewrite _remove_special_chars_filter in Hc.
  apply filter_In in Hc as [Hc Hctl]. apply filter_In in Hc as [_ Hkeep].
  split; [by apply negb_true_iff|].
  apply orb_true_iff in Hkeep as [Hkeep|Hsp].
  - apply orb_true_iff in Hkeep as [Hlf|Hns].
    + left. by apply Ascii.eqb_eq.
    + right. right. by apply negb_true_iff.
  - right. left. by apply Ascii.eqb_eq.
Qed.

(** X14. [clean] never makes a text longer: every replacement is at most
    as long as what it replaces, and the other steps only take characters
    out. *)
Theorem X14_clean_not_longer (text : str) :
  length (clean text) <= length text.
Proof.
  unfold clean. destruct (is_nil text); [simpl; lia|]. cbv zeta.
  etransitivity; [apply strip_length|].
  rewrite _remove_special_chars_filter.
  etransitivity; [apply filter_length_le|].
  etransitivity; [apply filter_length_le|].
  etransitivity; [apply _fix_line_breaks_length|].
  etransitivity; [apply _normalize_whitespace_length|].
  apply _remove_headers_length.
Qed.
(** ** The language of a document *)

Import PDFProcessor.

Lemma lower_char_idem (c : ascii) : lower_char (lower_char c) = lower_char c.
Proof. destruct c as [[] [] [] [] [] [] [] []]; reflexivity. Qed.

Lemma lower_idem (s : str) : lower (lower s) = lower s.
Proof.
  unfold lower. rewrite map_map. apply map_ext. apply lower_char_idem.
Qed.

Lemma slice_to_app (n : Z) (s rest : str) :
  (0 <= n <= Z.of_nat (length s))%Z ->
  slice_to n (s ++ rest) = slice_to n s.
Proof.
  intros H. unfold slice_to. destruct (Z.leb_spec 0 n); [|lia].
  rewrite firstn_app.
  replace (Z.to_nat n - length s) with 0 by lia.
  by rewrite firstn_O, app_nil_r.
Qed.

Lemma keyword_count_pos (keywords : list str) (text : str) :
  0 < keyword_count keywords text ->
  exists word, In word keywords /\ contains word text = true.
Proof.
  unfold keyword_count. rewrite list_sum_indicator.
  destruct (List.filter _ keywords) as [|word ws] eqn:E; [simpl; lia|].
  intros _. exists word.
  apply (proj1 (filter_In (fun x => contains x text) word keywords)).
  rewrite E. by left.
Qed.

(** X15. [detect_language] reads the first 5000 characters of the text
    and nothing else, without regard to case; it answers "pt" or "en", and
    "pt" only when one of the Portuguese keywords occurs in the part that
    it reads (so the empty text, and a text where the counts are equal,
    are taken for English). *)
Theorem X15_detect_language (text rest : str) :
  ((5000 <= Z.of_nat (length text))%Z ->
   detect_language (text ++ rest) = detect_language text)
  /\ detect_language (lower text) = detect_language text
  /\ (detect_language text = py "pt" ->
      exists word, In word pt_keywords
                   /\ contains word (slice_to 5000 (lower text)) = true)
  /\ (detect_language text = py "pt" \/ detect_language text = py "en")
  /\ detect_language [] = py "en".
Proof.
  split; [|split; [|split; [|split]]].
  - intros Hlen. unfold detect_language. cbv zeta.
    unfold lower at 1 2. rewrite map_app. fold (lower text) (lower rest).
    rewrite slice_to_app; [done|]. unfold lower. rewrite length_map. lia.
  - unfold detect_language. by rewrite lower_idem.
  - unfold detect_language. cbv zeta.
    destruct (_ <? keyword_count pt_keywords _) eqn:E; [|by vm_compute].
    intros _. apply Nat.ltb_lt in E. apply keyword_count_pos. lia.
  - unfold detect_language. cbv zeta. destruct (_ <? _); auto.
  - by vm_compute.
Qed.

Lemma X15_detect_language_witness :
  detect_language (py "O AUTOR interpôs RECURSO ao Tribunal.") = py "pt"
  /\ exists word,
       In word pt_keywords
       /\ contains word
            (slice_to 5000 (lower (py "O AUTOR interpôs RECURSO ao Tribunal.")))
          = true.
Proof.
  assert (detect_language (py "O AUTOR interpôs RECURSO ao Tribunal.")
          = py "pt") as H by (vm_compute; reflexivity).
  split; [exact H|].
  destruct (X15_detect_language (py "O AUTOR interpôs RECURSO ao Tribunal.") [])
    as (_ & _ & Hpt & _).
  exact (Hpt H).
Defined.

(** ** The kinds of errors in the metrics *)

Import MetricsCalculator.

Lemma count_error_lookup (error_types : gmap str nat) (error t : str) :
  default 0 (count_error error_types error !! t)
  = default 0 (error_types !! t)
    + (if str_eqb (error_type error) t then 1 else 0).
Proof.
  unfold count_error. unfold str_eqb.
  destruct (bool_decide (error_type error = t)) eqn:E.
  - apply bool_decide_eq_true in E. subst t.
    rewrite lookup_insert_eq. done.
  - apply bool_decide_eq_false in E.
    rewrite lookup_insert_ne by done. lia.
Qed.

Lemma count_errors_lookup (messages : list str) (error_types : gmap str nat)
    (t : str) :
  default 0 (fold_left count_error messages error_types !! t)
  = default 0 (error_types !! t) + errors_of_type t messages.
Proof.
  revert error_types. unfold errors_of_type.
  induction messages as [|e es IH]; intros error_types;
    cbn [fold_left List.filter]; [simpl; lia|].
  rewrite IH, count_error_lookup.
  destruct (str_eqb (error_type e) t); cbn [length]; lia.
Qed.

Lemma errors_of_type_app (t : str) (a b : list str) :
  errors_of_type t (a ++ b) = errors_of_type t a + errors_of_type t b.
Proof. unfold errors_of_type. by rewrite List.filter_app, length_app. Qed.

Lemma error_types_lookup {float : Type}
    (extractions : list (extraction float)) (error_types : gmap str nat) (t : str) :
  default 0
    (fold_left (fun error_types extraction =>
                  if is_nil (errors extraction) then error_types
                  else fold_left count_error (errors extraction) error_types)
               extractions error_types !! t)
  = default 0 (error_types !! t) + errors_of_type t (all_errors extractions).
Proof.
  revert error_types. unfold all_errors.
  induction extractions as [|x xs IH]; intros error_types;
    cbn [fold_left map concat]; [simpl; unfold errors_of_type; simpl; lia|].
  rewrite IH, errors_of_type_app.
  destruct (errors x) as [|e es] eqn:Ex; cbn [is_nil].
  - unfold errors_of_type at 2. simpl. lia.
  - rewrite count_errors_lookup. lia.
Qed.

(** A key is made only by counting a message. *)
Lemma count_errors_keys (messages : list str) (error_types : gmap str nat)
    (t : str) :
  (forall k n, error_types !! k = Some n -> 0 < n) ->
  forall n, fold_left count_error messages error_types !! t = Some n -> 0 < n.
Proof.
  revert error_types. induction messages as [|e es IH]; intros error_types H;
    cbn [fold_left]; [apply H|].
  apply IH. intros k n. unfold count_error.
  destruct (decide (error_type e = k)) as [<-|Hne].
  - rewrite lookup_insert_eq. intros [= <-]. lia.
  - rewrite lookup_insert_ne by done. apply H.
Qed.

Lemma error_types_keys {float : Type}
    (extractions : list (extraction float)) (error_types : gmap str nat) (t : str) :
  (forall k n, error_types !! k = Some n -> 0 < n) ->
  forall n,
    fold_left (fun error_types extraction =>
                 if is_nil (errors extraction) then error_types
                 else fold_left count_error (errors extraction) error_types)
              extractions error_types !! t = Some n -> 0 < n.
Proof.
  revert error_types. induction extractions as [|x xs IH]; intros error_types H;
    cbn [fold_left]; [apply H|].
  apply IH. destruct (is_nil (errors x)); [done|].
  intros k n. by apply count_errors_keys.
Qed.

(** X16. [_calculate_error_types] counts every message once, under the
    text before its first colon, stripped, or under "unknown" when it holds
    no colon: the number recorded for a kind is the number of messages of
    that kind in all the extractions, and a kind without message has no
    entry. *)
Theorem X16_error_types_count {float : Type}
    (extractions : list (extraction float)) (t : str) :
  _calculate_error_types extractions !! t
  = if errors_of_type t (all_errors extractions) =? 0 then None
    else Some (errors_of_type t (all_errors extractions)).
Proof.
  unfold _calculate_error_types.
  pose proof (error_types_lookup extractions ∅ t) as Hn.
  pose proof (error_types_keys extractions ∅ t) as Hpos.
  rewrite lookup_empty in Hn. cbn [default] in Hn.
  destruct (fold_left _ extractions ∅ !! t) as [n|] eqn:E.
  - simpl in Hn. subst n.
    assert (0 < errors_of_type t (all_errors extractions)) as H0.
    { apply Hpos; [|done]. intros k n. by rewrite lookup_empty. }
    destruct (Nat.eqb_spec (errors_of_type t (all_errors extractions)) 0);
      [lia|done].
  - simpl in Hn. by rewrite <- Hn.
Qed.

Lemma contains_char (c : ascii) (a b : str) : contains [c] (a ++ c :: b) = true.
Proof.
  induction a as [|x a IH]; cbn [app contains starts_with].
  - by rewrite Ascii.eqb_refl.
  - rewrite IH. apply orb_true_r.
Qed.

(** The names of the fields hold no colon and no white space at their
    ends. *)
Lemma field_names_plain (field : str) :
  In field (ENTITIES settings) -> lacks ":" field /\ strip field = field.
Proof.
  intros H. cbn [ENTITIES settings In] in H.
  destruct H as [<-|[<-|[<-|[<-|[<-|[<-|[<-|[<-|[]]]]]]]]];
    split; vm_compute; reflexivity.
Qed.

Lemma error_type_of_field (field msg : str) :
  In field (ENTITIES settings) ->
  error_type (field ++ py ": " ++ msg) = field.
Proof.
  intros [Hl Hs]%field_names_plain. unfold error_type.
  change (field ++ py ": " ++ msg) with (field ++ ":"%char :: " "%char :: msg).
  change (py ":") with [":"%char].
  rewrite contains_char, split_char_app by done. cbn [hd]. exact Hs.
Qed.

(** X17. The errors of [validate] are counted by field in the metrics:
    the kind under which [_calculate_error_types] counts each of them is
    the name of the canonical field that it reports, whatever colons its
    message holds. *)
Theorem X17_validation_errors_by_field (entities : dict) (err : str) :
  In err (validate settings entities).2 ->
  exists field msg,
    err = field ++ py ": " ++ msg
    /\ In field (ENTITIES settings)
    /\ error_type err = field.
Proof.
  destruct (validate_spec settings entities) as (d' & -> & _). cbn [snd].
  intros ([field validator] & Hin & Herr)%in_flat_map.
  unfold step_errors in Herr. cbn [fst snd] in Herr.
  destruct (entities !! field) as [value|]; [|done].
  destruct (ok (validator value)); [done|]. destruct Herr as [<-|[]].
  assert (In field (ENTITIES settings)) as Hf.
  { rewrite <- (validators_keys settings). apply in_map_iff.
    by exists (field, validator). }
  exists field, (message (validator value)). split; [done|]. split; [done|].
  by apply error_type_of_field.
Qed.

Lemma X17_validation_errors_by_field_witness :
  let entities : dict := <[py "resultado" := Some (py "maybe")]> ∅ in
  exists err field msg,
    In err (validate settings entities).2
    /\ err = field ++ py ": " ++ msg
    /\ In field (ENTITIES settings)
    /\ error_type err = field.
Proof.
  intros entities.
  set (err := py "resultado" ++ py ": "
              ++ message (_validate_result settings (Some (py "maybe")))).
  assert (In err (validate settings entities).2) as Hin.
  { destruct (validate_spec settings entities) as (d' & -> & _). cbn [snd].
    apply in_flat_map. exists (py "resultado", _validate_result settings).
    split; [do 4 right; left; reflexivity|].
    unfold step_errors. cbn [fst snd]. unfold entities.
    rewrite lookup_insert_eq. left. reflexivity. }
  exists err.
  destruct (X17_validation_errors_by_field entities err Hin)
    as (field & msg & H).
  exists field, msg. split; [exact Hin | exact H].
Defined.
(** ** The rates of the fields in the metrics *)

(** The test of the metrics is the test of the completeness. *)
Lemma value_counts_filled (d : dict) (f : str) :
  filled d f
  = match d !! f with Some value => value_counts value | None => false end.
Proof.
  unfold filled, get, value_counts. destruct (d !! f) as [[v|]|]; done.
Qed.

Lemma count_fields_lookup (d : dict) (field_counts : gmap str nat) (f : str) :
  count_fields d field_counts !! f
  = if filled d f then Some (default 0 (field_counts !! f) + 1)
    else field_counts !! f.
Proof.
  unfold count_fields. rewrite value_counts_filled.
  transitivity (match d !! f with
                | Some value =>
                    if value_counts value
                    then Some (default 0 (field_counts !! f) + 1)
                    else field_counts !! f
                | None => field_counts !! f
                end); [|by destruct (d !! f)].
  apply (map_fold_weak_ind
           (fun (r : gmap str nat) (m : dict) =>
              r !! f = match m !! f with
                       | Some value =>
                           if value_counts value
                           then Some (default 0 (field_counts !! f) + 1)
                           else field_counts !! f
                       | None => field_counts !! f
                       end)).
  - by rewrite lookup_empty.
  - intros i x m r Hi IH. destruct (decide (i = f)) as [->|Hne].
    + rewrite lookup_insert_eq. rewrite Hi in IH.
      destruct (value_counts x); [|done].
      by rewrite lookup_insert_eq, IH.
    + rewrite (lookup_insert_ne m) by done.
      destruct (value_counts x); [|done].
      by rewrite lookup_insert_ne.
Qed.

Lemma field_rates_step_eq {float : Type} (field_counts : gmap str nat)
    (total : nat) (x : extraction float) :
  field_rates_step (field_counts, total) x
  = if counted x
    then (count_fields (default ∅ (entities x)) field_counts, S total)
    else (field_counts, total).
Proof.
  unfold field_rates_step, counted.
  by destruct (success x), (dict_truthy (entities x)).
Qed.

Lemma field_rates_fold {float : Type} (extractions : list (extraction float))
    (field_counts : gmap str nat) (total : nat) (f : str) :
  let st := fold_left field_rates_step extractions (field_counts, total) in
  st.2 = total + length (List.filter counted extractions)
  /\ default 0 (st.1 !! f)
     = default 0 (field_counts !! f)
       + length (List.filter (counted_with f) extractions)
  /\ ((forall k n, field_counts !! k = Some n -> 0 < n) ->
      forall k n, st.1 !! k = Some n -> 0 < n).
Proof.
  revert field_counts total.
  induction extractions as [|x xs IH]; intros field_counts total.
  - cbn [fold_left List.filter length fst snd]. split; [lia|].
    split; [lia|done].
  - cbn [fold_left List.filter]. rewrite field_rates_step_eq.
    unfold counted_with at 1. destruct (counted x); cbn [andb].
    2:{ apply IH. }
    destruct (IH (count_fields (default ∅ (entities x)) field_counts) (S total))
      as (H1 & H2 & H3). cbv zeta.
    split; [cbn [length]; lia|]. split.
    + rewrite H2, count_fields_lookup.
      destruct (filled (default ∅ (entities x)) f); simpl; lia.
    + intros Hpos. apply H3. intros k n. rewrite count_fields_lookup.
      destruct (filled (default ∅ (entities x)) k); [|apply Hpos].
      intros [= <-]. lia.
Qed.

(** X18. [_calculate_field_rates] gives, for a field, the quotient of
    the number of the extractions counted (successful, with entities that
    are not empty) in which the field is filled by the number of the
    extractions counted; the test for a filled field is the one of
    [calculate_completeness].  A field that is filled in none of them has
    no rate: the numerator of a rate is at least 1 and at most the
    denominator. *)
Theorem X18_field_rates {float : Type} (true_div : nat -> nat -> float)
    (extractions : list (extraction float)) (f : str) :
  let total := length (List.filter counted extractions) in
  let n := length (List.filter (counted_with f) extractions) in
  _calculate_field_rates true_div extractions !! f
  = (if n =? 0 then None else Some (true_div n total))
  /\ n <= total.
Proof.
  intros total n.
  assert (n <= total) as Hle.
  { unfold n, total. apply filter_length_mono. intros x _.
    unfold counted_with. by intros [H _]%andb_true_iff. }
  split; [|exact Hle].
  unfold _calculate_field_rates.
  destruct (field_rates_fold extractions ∅ 0 f) as (H1 & H2 & H3).
  destruct (fold_left field_rates_step extractions (∅, 0))
    as [field_counts total_extractions].
  cbn [fst snd] in H1, H2, H3. rewrite lookup_empty in H2.
  simpl in H1, H2. fold total in H1. fold n in H2.
  subst total_extractions.
  destruct (Nat.eqb_spec total 0) as [H0|H0].
  - rewrite lookup_empty. by replace n with 0 by lia.
  - rewrite lookup_fmap.
    destruct (field_counts !! f) as [c|] eqn:Ec; simpl in H2.
    + subst c. cbn [fmap option_fmap option_map].
      assert (0 < n) as Hpos.
      { apply (H3 ltac:(intros k c; by rewrite lookup_empty) f n Ec). }
      by destruct (Nat.eqb_spec n 0); [lia|].
    + by rewrite <- H2.
Qed.
(** ** The prompt *)

Lemma lstrip_app_nonblank (a b : str) :
  lstrip a <> [] -> lstrip (a ++ b) = lstrip a ++ b.
Proof.
  induction a as [|c a IH]; [done|]. cbn [app lstrip].
  destruct (isspace c); [exact IH | done].
Qed.

Lemma rstrip_app_nonblank (a b : str) :
  rstrip b <> [] -> rstrip (a ++ b) = a ++ rstrip b.
Proof.
  unfold rstrip. intros H. rewrite rev_app_distr, lstrip_app_nonblank.
  - by rewrite rev_app_distr, rev_involutive.
  - intros E. apply H. by rewrite E.
Qed.

Lemma lstrip_nonblank (s : str) : blank s = false -> lstrip s <> [].
Proof.
  unfold blank. induction s as [|c s IH]; [done|]. cbn [forallb lstrip].
  destruct (isspace c); [exact IH | done].
Qed.

Lemma rstrip_nonblank (s : str) : blank s = false -> rstrip s <> [].
Proof.
  intros H. unfold rstrip. intros E.
  apply (lstrip_nonblank (rev s)).
  - unfold blank in *. rewrite <- H. apply eq_true_iff_eq.
    rewrite !forallb_forall. split; intros Hall c Hc; apply Hall.
    + by apply (proj1 (in_rev _ _)).
    + by apply (proj2 (in_rev _ _)).
  - apply (f_equal (@rev ascii)) in E. by rewrite rev_involutive in E.
Qed.

(** X19. The prompt that [_build_csv_prompt] builds is the same fixed
    instruction for every language and whatever the two templates of the
    configuration hold, followed by the document without the white space
    at its end; for a document that is empty or white space only it is
    the instruction alone. *)
Theorem X19_prompt_shape (template_pt template_en text language : str) :
  _build_csv_prompt template_pt template_en text language
  = if blank text then rstrip prompt_instruction
    else prompt_instruction ++ rstrip text.
Proof.
  unfold _build_csv_prompt, prompt_instruction. cbv zeta.
  set (instruction := csv_instruction_head ++ join (py ", ") CSV_FIELDS
                      ++ csv_instruction_tail).
  replace (csv_instruction_head ++ join (py ", ") CSV_FIELDS
           ++ csv_instruction_tail ++ text ++ [LF])
    with (instruction ++ text ++ [LF])
    by (unfold instruction; by rewrite <- !app_assoc).
  assert (lstrip instruction <> []) as Hins.
  { apply lstrip_nonblank. by vm_compute. }
  destruct (blank text) eqn:Hb.
  - rewrite strip_app_spaces.
    + by vm_compute.
    + unfold blank in Hb. by rewrite forallb_app, Hb.
  - unfold strip. rewrite rstrip_app_nonblank.
    + rewrite lstrip_app_nonblank by done.
      by rewrite rstrip_app_spaces.
    + rewrite rstrip_app_spaces by done. by apply rstrip_nonblank.
Qed.
(** ** The sections of a document *)

Lemma advances_refl (before after : str) (g g' : list (nat * str)) :
  advances (before, after, g) (before, after, g') [].
Proof. by split. Qed.

Lemma advances_trans (st1 st2 st3 : mstate) (x y : str) :
  advances st1 st2 x -> advances st2 st3 y -> advances st1 st3 (x ++ y).
Proof.
  unfold advances. intros [H1 H2] [H3 H4]. rewrite H3, H1, H2, H4.
  by rewrite rev_app_distr, <- !app_assoc.
Qed.

(** A repetition that matches has handed to its continuation a position
    of the same text, further on. *)
Lemma rep_match_advances (greedy : bool) (p : ascii -> bool) (after : str) :
  forall (lo : nat) (hi : option nat) (before : str) (g : list (nat * str))
         (k : mstate -> option mstate) (res : mstate),
    rep_match greedy p lo hi before after g k = Some res ->
    exists st x, k st = Some res /\ advances (before, after, g) st x.
Proof.
  induction after as [|c after IH]; intros lo hi before g k res.
  - cbn [rep_match]. intros H.
    assert (match lo with 0 => k (before, [], g) | S _ => None end = Some res)
      as H'.
    { revert H. destruct greedy; [done|].
      by destruct (match lo with 0 => _ | S _ => _ end). }
    destruct lo; [|done]. exists (before, [], g), []. by split.
  - cbn [rep_match]. intros H.
    assert (match lo with 0 => k (before, c :: after, g) | S _ => None end
            = Some res
            \/ (if p c && hi_allows hi
                then rep_match greedy p (pred lo) (hi_pred hi) (c :: before)
                       after g k
                else None) = Some res) as [Hs|Hm].
    { revert H. destruct greedy.
      - destruct (if p c && hi_allows hi then _ else _); auto.
      - destruct (match lo with 0 => _ | S _ => _ end); auto. }
    + destruct lo; [|done]. exists (before, c :: after, g), []. by split.
    + destruct (p c && hi_allows hi); [|done].
      apply IH in Hm as (st & x & Hk & H1 & H2). exists st, (c :: x).
      split; [done|]. cbn [fst snd] in *. split.
      * rewrite H1. cbn [rev]. by rewrite <- app_assoc.
      * by rewrite H2.
Qed.

Lemma rmatch_advances (r : regex) :
  forall (st : mstate) (k : mstate -> option mstate) (res : mstate),
    rmatch r st k = Some res ->
    exists st' x, k st' = Some res /\ advances st st' x.
Proof.
  induction r as [|p|r1 IH1 r2 IH2|r1 IH1 r2 IH2|greedy lo hi p|i r IH|r IH|ps| | |];
    intros [[before after] g] k res; cbn [rmatch].
  - intros H. exists (before, after, g), []. by split.
  - destruct after as [|c after]; [done|]. destruct (p c); [|done].
    intros H. exists (c :: before, after, g), [c]. by split.
  - intros H. apply IH1 in H as (st1 & x1 & H & H1).
    apply IH2 in H as (st2 & x2 & H & H2). exists st2, (x1 ++ x2).
    split; [done|]. by apply (advances_trans _ st1).
  - destruct (rmatch r1 (before, after, g) k) eqn:E1.
    + intros [= <-]. by apply IH1 in E1.
    + intros H. by apply IH2 in H.
  - apply rep_match_advances.
  - intros H. apply IH in H as ([[before' after'] g'] & x & H & H1).
    eexists (_, _, _), x. split; [exact H|]. exact H1.
  - destruct (rmatch r (before, after, g) Some); [|done].
    intros H. exists (before, after, g), []. by split.
  - destruct (behind_ok (rev ps) before); [|done].
    intros H. exists (before, after, g), []. by split.
  - destruct (is_nil before); [|done].
    intros H. exists (before, after, g), []. by split.
  - destruct (is_nil after); [|done].
    intros H. exists (before, after, g), []. by split.
  - destruct (xorb _ _); [|done].
    intros H. exists (before, after, g), []. by split.
Qed.

(** The text of a match is the text passed over. *)
Lemma group0_advances (before after : str) (st : mstate) (x : str) :
  advances (before, after, []) st x ->
  firstn (length (fst (fst st)) - length before) after = x.
Proof.
  intros [H1 H2]. cbn [fst snd] in *. rewrite H1, H2.
  rewrite length_app, length_rev.
  replace (length x + length before - length before) with (length x) by lia.
  by rewrite firstn_app, Nat.sub_diag, firstn_all, firstn_O, app_nil_r.
Qed.

Lemma match_here_inv (r : regex) (before after : str) (m : re_match) :
  match_here r before after = Some m ->
  exists before' after' g',
    rmatch r (before, after, []) Some = Some (before', after', g')
    /\ group0 m = firstn (length before' - length before) after.
Proof.
  unfold match_here.
  destruct (rmatch r (before, after, []) Some) as [[[b a] g]|]; [|done].
  intros [= <-]. by exists b, a, g.
Qed.

(** A search finds its match somewhere in the text. *)
Lemma search_from_found (r : regex) (after : str) :
  forall (before : str) (m : re_match),
    search_from r before after = Some m ->
    exists skipped rest,
      after = skipped ++ rest
      /\ match_here r (rev skipped ++ before) rest = Some m.
Proof.
  induction after as [|c after IH]; intros before m; cbn [search_from].
  - destruct (match_here r before []) eqn:E; [|done].
    intros [= <-]. by exists [], [].
  - destruct (match_here r before (c :: after)) eqn:E.
    + intros [= <-]. by exists [], (c :: after).
    + intros (skipped & rest & -> & H)%IH. exists (c :: skipped), rest.
      split; [done|]. cbn [rev]. by rewrite <- app_assoc.
Qed.

(** Any character, as often as possible, goes to the end of the text. *)
Lemma star_any_all (after : str) :
  forall (before : str) (g : list (nat * str)),
    rep_match true any_char 0 None before after g Some
    = Some (rev after ++ before, [], g).
Proof.
  induction after as [|c after IH]; intros before g; [done|].
  cbn [rep_match any_char hi_allows andb pred hi_pred].
  rewrite IH. cbn [rev]. by rewrite <- app_assoc.
Qed.

Lemma ci_LF (c : ascii) : ci LF c = true -> c = LF.
Proof. destruct c as [[] [] [] [] [] [] [] []]; by vm_compute. Qed.

(** What a search with an expression that ends in [(?=\n\n)] finds is
    followed by two line feeds. *)
Lemma found_before_blank_line (heading : regex) (text : str) :
  let r := seq_of [heading; lazy_star any_char; Ahead (lit [LF; LF])] in
  found r text <> [] ->
  exists pre post, text = pre ++ found r text ++ [LF; LF] ++ post.
Proof.
  intros r. unfold found, re_search.
  destruct (search_from r [] text) as [m|] eqn:E; [|done]. intros _.
  apply search_from_found in E as (skipped & rest & -> & E).
  apply match_here_inv in E as (before' & after' & g' & Er & ->).
  unfold r in Er. cbn [seq_of rmatch] in Er.
  apply rmatch_advances in Er as (st1 & x1 & Er & H1).
  destruct st1 as [[b1 a1] g1].
  apply rep_match_advances in Er as (st2 & x2 & Er & H2).
  destruct st2 as [[b2 a2] g2]. unfold lit in Er.
  cbn [map seq_of rmatch] in Er.
  destruct a2 as [|c1 a2]; [done|].
  destruct (ci LF c1) eqn:E1; [|done]. apply ci_LF in E1 as ->.
  destruct a2 as [|c2 a2]; [done|].
  destruct (ci LF c2) eqn:E2; [|done]. apply ci_LF in E2 as ->.
  injection Er as <- <- <-.
  pose proof (advances_trans _ _ _ _ _ H1 H2) as H.
  pose proof (group0_advances _ _ _ _ H) as Hg. cbn [fst snd] in Hg.
  rewrite Hg.
  destruct H as [_ H]. cbn [fst snd] in H.
  exists skipped, a2. rewrite H. reflexivity.
Qed.

(** X20. The sections that [extract_sections] finds are where the text
    has them: the decision is a final part of the text (it runs to the
    very end), and the facts and the arguments, when found, are parts of
    the text that stop just before an empty line.  The full text is the
    text. *)
Theorem X20_sections_in_text (text : str) :
  let s := extract_sections text in
  full_text s = text
  /\ (exists pre, text = pre ++ decision s)
  /\ (facts s <> [] ->
      exists pre post, text = pre ++ facts s ++ [LF; LF] ++ post)
  /\ (arguments s <> [] ->
      exists pre post, text = pre ++ arguments s ++ [LF; LF] ++ post).
Proof.
  cbv zeta. unfold extract_sections. cbn [full_text decision facts arguments].
  split; [done|]. split; [|split].
  - unfold found, re_search.
    destruct (search_from decision_pattern [] text) as [m|] eqn:E;
      [|exists text; by rewrite app_nil_r].
    apply search_from_found in E as (skipped & rest & -> & E).
    apply match_here_inv in E as (before' & after' & g' & Er & ->).
    unfold decision_pattern in Er. cbv zeta in Er. cbn [seq_of rmatch] in Er.
    apply rmatch_advances in Er as (st1 & x1 & Er & H1).
    destruct st1 as [[b1 a1] g1]. unfold star in Er. cbn [rmatch] in Er.
    rewrite star_any_all in Er. injection Er as <- <- <-.
    assert (advances (rev skipped ++ [], rest, [])
                     (rev a1 ++ b1, [], g1) (x1 ++ a1)) as H.
    { apply (advances_trans _ (b1, a1, g1)); [done|]. split; [done|].
      cbn [fst snd]. by rewrite app_nil_r. }
    pose proof (group0_advances _ _ _ _ H) as Hg. cbn [fst snd] in Hg.
    rewrite Hg. destruct H as [_ H]. cbn [fst snd] in H. rewrite app_nil_r in H.
    exists skipped. by rewrite H.
  - apply (found_before_blank_line _ text).
  - apply (found_before_blank_line _ text).
Qed.

Lemma slice_to_bound (n : Z) (s : str) :
  (0 <= n -> Z.of_nat (length (slice_to n s)) <= n)%Z.
Proof.
  intros H. unfold slice_to. destruct (Z.leb_spec 0 n); [|lia].
  rewrite length_firstn. lia.
Qed.

Lemma priority_text_length (text : str) :
  (2 <= Z.of_nat (length (priority_text (extract_sections text))) <= 4004)%Z.
Proof.
  unfold priority_text. rewrite !length_app, !Nat2Z.inj_add.
  cbn [header extract_sections length].
  pose proof (slice_to_bound 2000 (decision (extract_sections text))).
  pose proof (slice_to_bound 2000 (facts (extract_sections text))).
  change (slice_to 500 []) with (@nil ascii). cbn [length].
  cbn [decision facts extract_sections] in *. lia.
Qed.

(** X21. With a budget of 1001 tokens or more (the default is 7000), a
    text that exceeds the budget is always cut to the budget and two
    characters: the part kept for the sections is at most 4004 characters
    long, so it always fits, and what follows it is the beginning of the
    text.  The result opens with an empty line, the header being empty. *)
Theorem X21_truncate_large_budget (text : str) (max_tokens : Z) :
  (1001 <= max_tokens)%Z ->
  (max_tokens * 4 < Z.of_nat (length text))%Z ->
  let priority := priority_text (extract_sections text) in
  truncate_for_llm text max_tokens
  = priority ++ [LF; LF]
    ++ slice_to (max_tokens * 4 - Z.of_nat (length priority)) text
  /\ Z.of_nat (length (truncate_for_llm text max_tokens))
     = (max_tokens * 4 + 2)%Z
  /\ firstn 2 (truncate_for_llm text max_tokens) = [LF; LF].
Proof.
  intros Hbig Hlong priority.
  pose proof (priority_text_length text) as Hp. fold priority in Hp.
  assert (truncate_for_llm text max_tokens
          = priority ++ [LF; LF]
            ++ slice_to (max_tokens * 4 - Z.of_nat (length priority)) text)
    as ->.
  { unfold truncate_for_llm. cbv zeta. fold priority.
    destruct (Z.leb_spec (Z.of_nat (length text)) (max_tokens * 4)); [lia|].
    destruct (Z.ltb_spec (max_tokens * 4) (Z.of_nat (length priority)));
      [lia|done]. }
  split; [done|]. split.
  - rewrite !length_app, !Nat2Z.inj_add.
    rewrite slice_to_length by lia. cbn [length]. lia.
  - unfold priority, priority_text. cbn [header extract_sections].
    reflexivity.
Qed.

Lemma X21_truncate_large_budget_witness :
  Z.of_nat (length (truncate_for_llm (repeat "a"%char 4005) 1001))
  = (1001 * 4 + 2)%Z.
Proof.
  destruct (X21_truncate_large_budget (repeat "a"%char 4005) 1001)
    as (_ & H & _).
  - lia.
  - rewrite repeat_length. lia.
  - exact H.
Defined.
(** ** The heuristic needs a colon or a dash *)

(** A repetition hands the groups on as they are. *)
Lemma rep_match_groups (greedy : bool) (p : ascii -> bool) (after : str) :
  forall (lo : nat) (hi : option nat) (before : str) (g : list (nat * str))
         (k : mstate -> option mstate) (res : mstate),
    rep_match greedy p lo hi before after g k = Some res ->
    exists before' after' x,
      k (before', after', g) = Some res
      /\ advances (before, after, g) (before', after', g) x.
Proof.
  induction after as [|c after IH]; intros lo hi before g k res.
  - cbn [rep_match]. intros H.
    assert (match lo with 0 => k (before, [], g) | S _ => None end = Some res)
      as H'.
    { revert H. destruct greedy; [done|].
      by destruct (match lo with 0 => _ | S _ => _ end). }
    destruct lo; [|done]. exists before, [], []. by split.
  - cbn [rep_match]. intros H.
    assert (match lo with 0 => k (before, c :: after, g) | S _ => None end
            = Some res
            \/ (if p c && hi_allows hi
                then rep_match greedy p (pred lo) (hi_pred hi) (c :: before)
                       after g k
                else None) = Some res) as [Hs|Hm].
    { revert H. destruct greedy.
      - destruct (if p c && hi_allows hi then _ else _); auto.
      - destruct (match lo with 0 => _ | S _ => _ end); auto. }
    + destruct lo; [|done]. exists before, (c :: after), []. by split.
    + destruct (p c && hi_allows hi); [|done].
      apply IH in Hm as (b' & a' & x & Hk & H1 & H2).
      exists b', a', (c :: x). split; [done|]. cbn [fst snd] in *. split.
      * rewrite H1. cbn [rev]. by rewrite <- app_assoc.
      * by rewrite H2.
Qed.

(** So does every expression without groups. *)
Lemma rmatch_groupless (r : regex) :
  groupless r = true ->
  forall (before after : str) (g : list (nat * str))
         (k : mstate -> option mstate) (res : mstate),
    rmatch r (before, after, g) k = Some res ->
    exists before' after' x,
      k (before', after', g) = Some res
      /\ advances (before, after, g) (before', after', g) x.
Proof.
  induction r as [|p|r1 IH1 r2 IH2|r1 IH1 r2 IH2|greedy lo hi p|i r IH|r IH|ps| | |];
    cbn [groupless]; intros Hg before after g k res; cbn [rmatch];
    try discriminate.
  - intros H. exists before, after, []. by split.
  - destruct after as [|c after]; [done|]. destruct (p c); [|done].
    intros H. exists (c :: before), after, [c]. by split.
  - apply andb_true_iff in Hg as [Hg1 Hg2].
    intros H. apply (IH1 Hg1) in H as (b1 & a1 & x1 & H & H1).
    apply (IH2 Hg2) in H as (b2 & a2 & x2 & H & H2).
    exists b2, a2, (x1 ++ x2). split; [done|].
    by apply (advances_trans _ (b1, a1, g)).
  - apply andb_true_iff in Hg as [Hg1 Hg2].
    destruct (rmatch r1 (before, after, g) k) eqn:E1.
    + intros [= <-]. by apply (IH1 Hg1) in E1.
    + intros H. by apply (IH2 Hg2) in H.
  - apply rep_match_groups.
  - destruct (rmatch r (before, after, g) Some); [|done].
    intros H. exists before, after, []. by split.
  - destruct (behind_ok (rev ps) before); [|done].
    intros H. exists before, after, []. by split.
  - destruct (is_nil before); [|done].
    intros H. exists before, after, []. by split.
  - destruct (is_nil after); [|done].
    intros H. exists before, after, []. by split.
  - destruct (xorb _ _); [|done].
    intros H. exists before, after, []. by split.
Qed.

Lemma no_label_sep_app (a b : str) :
  no_label_sep (a ++ b) -> no_label_sep b.
Proof. intros H c Hc. apply H. apply in_app_iff. by right. Qed.

(** The end of the expression of [find_after] does not match in a text
    without colon and dash. *)
Lemma label_suffix_fails (n : nat) (before after : str)
    (g : list (nat * str)) (k : mstate -> option mstate) :
  no_label_sep after ->
  rmatch (label_suffix n) (before, after, g) k = None.
Proof.
  intros Hno. unfold label_suffix. cbn [seq_of rmatch]. unfold star at 1.
  cbn [rmatch].
  destruct (rep_match _ _ _ _ _ _ _ _) as [res|] eqn:E; [exfalso|done].
  apply rep_match_advances in E as ([[b1 a1] g1] & x & Hk & _ & H).
  cbn [fst snd] in H. cbn [rmatch] in Hk.
  destruct a1 as [|c a1]; [done|].
  assert (label_sep c = false) as Hc.
  { apply Hno. rewrite H. apply in_app_iff. right. by left. }
  unfold label_sep in Hc. by rewrite Hc in Hk.
Qed.

Lemma labelled_fails (last : regex) (n : nat) (before after : str)
    (g : list (nat * str)) (k : mstate -> option mstate) :
  no_label_sep after ->
  rmatch (Seq last (label_suffix n)) (before, after, g) k = None.
Proof.
  intros Hno. cbn [rmatch].
  destruct (rmatch last _ _) as [res|] eqn:E; [exfalso|done].
  apply rmatch_advances in E as ([[b1 a1] g1] & x & Hk & _ & H).
  cbn [fst snd] in H. rewrite label_suffix_fails in Hk; [done|].
  rewrite H in Hno. by apply no_label_sep_app in Hno.
Qed.

(** A match of a key pattern in such a text is the match of an
    alternative without the group of the value. *)
Lemma alternatives_no_group (init : list regex) (last : regex) (n : nat)
    (before after : str) (res : mstate) :
  no_label_sep after -> forallb groupless init = true ->
  rmatch (alt_of (init ++ [Seq last (label_suffix n)])) (before, after, [])
         Some = Some res ->
  snd res = [].
Proof.
  intros Hno. induction init as [|a init IH]; intros Hg.
  - cbn [app alt_of]. by rewrite labelled_fails.
  - cbn [forallb] in Hg. apply andb_true_iff in Hg as [Ha Hg].
    cbn [app alt_of].
    destruct (init ++ [Seq last (label_suffix n)]) as [|r rs] eqn:E.
    { by destruct init. }
    cbn [rmatch].
    destruct (rmatch a (before, after, []) Some) as [res'|] eqn:Ea.
    + intros [= <-].
      apply (rmatch_groupless a Ha) in Ea as (b' & a' & x & [= <-] & _).
      reflexivity.
    + by apply IH.
Qed.

Lemma paste_suffix_snoc (init : list regex) (last : regex) :
  paste_suffix (init ++ [last])
  = alt_of (init ++ [Seq last (label_suffix
                                 (S (list_sum (map count_groups
                                                   (init ++ [last])))))]).
Proof.
  unfold paste_suffix. rewrite rev_app_distr. cbn [rev app].
  by rewrite rev_involutive.
Qed.

Lemma plain_labels_split (pat : list regex) :
  plain_labels pat = true ->
  exists init last, pat = init ++ [last] /\ forallb groupless init = true.
Proof.
  unfold plain_labels. intros [Hne Hg]%andb_true_iff.
  exists (removelast pat), (List.last pat Eps). split; [|done].
  apply app_removelast_last. by destruct pat.
Qed.

Lemma match_here_groups (r : regex) (before after : str) (m : re_match) :
  match_here r before after = Some m ->
  exists before' after',
    rmatch r (before, after, []) Some = Some (before', after', groups m).
Proof.
  unfold match_here.
  destruct (rmatch r (before, after, []) Some) as [[[b a] g]|]; [|done].
  intros [= <-]. by exists b, a.
Qed.

(** A search for a key pattern in such a text finds nothing, or a match
    without groups. *)
Lemma search_no_group (pat : list regex) (t : str) (m : re_match) :
  no_label_sep t -> plain_labels pat = true ->
  re_search (paste_suffix pat) t = Some m -> groups m = [].
Proof.
  intros Hno (init & last & -> & Hg)%plain_labels_split.
  rewrite paste_suffix_snoc. unfold re_search.
  intros (skipped & rest & -> & H)%search_from_found.
  apply match_here_groups in H as (b' & a' & E).
  apply alternatives_no_group in E; [done| |done].
  by apply no_label_sep_app in Hno.
Qed.

Lemma find_after_no_value (t : str) (key_patterns : list (list regex)) :
  no_label_sep t -> forallb plain_labels key_patterns = true ->
  find_after t key_patterns = Ok None
  \/ find_after t key_patterns = Raise AttributeError.
Proof.
  intros Hno. induction key_patterns as [|pat pats IH]; intros Hp.
  - by left.
  - cbn [forallb] in Hp. apply andb_true_iff in Hp as [Hpat Hp].
    cbn [find_after].
    destruct (re_search (paste_suffix pat) t) as [m|] eqn:E; [|by apply IH].
    apply search_no_group in E; [|done|done].
    unfold group. rewrite E. by right.
Qed.

Lemma In_sub_spaces (c : ascii) (s : str) (in_run : bool) :
  In c (sub_spaces in_run s) -> c = chr 32 \/ In c s.
Proof.
  revert in_run. induction s as [|x s IH]; intros in_run; [done|].
  cbn [sub_spaces]. destruct (isspace x).
  - destruct in_run.
    + intros [H|H]%IH; [by left | right; by right].
    + intros [<-|H]; [by left|]. apply IH in H as [H|H];
        [by left | right; by right].
  - intros [<-|H]; [right; by left|]. apply IH in H as [H|H];
      [by left | right; by right].
Qed.

Lemma no_label_sep_sub_spaces (text : str) :
  no_label_sep text -> no_label_sep (sub_spaces false text).
Proof.
  intros H c [->|Hc]%In_sub_spaces; [reflexivity | by apply H].
Qed.

Lemma key_patterns_plain :
  forallb (forallb plain_labels)
    [autor_patterns; reu_patterns; assunto_patterns; tipo_patterns;
     resultado_patterns; tribunal_patterns] = true.
Proof. reflexivity. Qed.

Lemma lacks_In (sep c : ascii) (s : str) :
  lacks sep s -> In c s -> Ascii.eqb c sep = false.
Proof.
  unfold lacks. rewrite forallb_forall. intros H Hc.
  apply negb_true_iff. by apply H.
Qed.

(** X22. In a text that holds no colon and no dash, the heuristic reads
    no label: when [_heuristic_extract] returns a dictionary for such a
    text, the date is the only field that it has found, and the seven
    other fields are [None]. *)
Theorem X22_heuristic_needs_separator (text : str) (d : dict) :
  lacks ":" text -> lacks "-" text ->
  _heuristic_extract text = Ok (Some d) ->
  (exists date, d !! py "data_decisao" = Some (Some date))
  /\ forall k, In k CSV_FIELDS -> k <> py "data_decisao" ->
               d !! k = Some None.
Proof.
  intros Hcolon Hdash.
  assert (no_label_sep (sub_spaces false text)) as Hno.
  { apply no_label_sep_sub_spaces. intros c Hc. unfold label_sep, exactly.
    by rewrite (lacks_In ":" c text), (lacks_In "-" c text). }
  pose proof key_patterns_plain as Hp. cbn [forallb] in Hp.
  repeat (apply andb_true_iff in Hp as [? Hp]).
  unfold _heuristic_extract. cbv zeta.
  repeat match goal with
         | |- context [match find_after ?t ?p with _ => _ end] =>
             destruct (find_after_no_value t p Hno) as [-> | ->];
             [done| |discriminate]
         end.
  cbn [existsb truthy orb].
  destruct (match re_search heuristic_date text with
            | Some mdate => group mdate 1
            | None => None
            end) as [date|]; [|discriminate].
  destruct (truthy (Some date) || false); [|discriminate].
  intros [= <-]. split.
  - exists date. rewrite lookup_insert_ne by str_neq.
    by rewrite lookup_insert_eq.
  - intros k Hk Hne. cbn [CSV_FIELDS In] in Hk.
    destruct Hk as [<-|[<-|[<-|[<-|[<-|[<-|[<-|[<-|[]]]]]]]]];
      try done;
      repeat (rewrite lookup_insert_ne by str_neq);
      by rewrite lookup_insert_eq.
Qed.

Lemma X22_heuristic_needs_separator_witness :
  exists d,
    _heuristic_extract (py "Signed 12/03/2020 in Lisbon") = Ok (Some d)
    /\ (exists date, d !! py "data_decisao" = Some (Some date))
    /\ forall k, In k CSV_FIELDS -> k <> py "data_decisao" ->
                 d !! k = Some None.
Proof.
  destruct (_heuristic_extract (py "Signed 12/03/2020 in Lisbon"))
    as [[d|]|e] eqn:E; [|absurd_shape E|absurd_shape E].
  exists d. split; [reflexivity|].
  apply (X22_heuristic_needs_separator (py "Signed 12/03/2020 in Lisbon") d);
    [reflexivity | reflexivity | exact E].
Defined.
